(** * Noja: the object map, the closure chain and the bytecode generator

    A shallow embedding of four C sources of the Noja interpreter and the
    properties their specification states about them:

    - [Err]      the error channel ([_Error_Report2]);
    - [Map]      the open-addressed map object ([Object_NewMap], [select],
                 [grow], [insert]);
    - [Closure]  the chain of scopes ([Object_NewClosure], [select]);
    - [Codegen]  the AST-to-bytecode pass ([emitInstrForNode], [compile]).

    C [int]s are integers of [Z] with the 32-bit wrap-around written out,
    pointers that may be [NULL] are [option]s, and a C array is the
    number of elements that was requested for it together with the cells
    written so far, those of the block apart from those past its end.
    A [longjmp] to a frame that has returned, like a read of a cell that
    was never written, is [Undefined].  A function that takes
    [Error *error] or [Heap *heap] takes the value and gives the new one
    back.  The [assert]s of the sources state what their authors expect
    and are not part of the model: it is the program built with [NDEBUG].

    The first part holds the definitions, the second the properties. *)

From Stdlib Require Import ZArith Lia Bool List.
From Stdlib Require Floats.SpecFloat.
From stdpp Require Import base tactics option list gmap strings pretty.

Local Open Scope Z_scope.

#[local] Set Warnings "-register-all".

(** * Definitions *)

(** ** C integers *)

Module CInt.

(** A value of type [int] after an operation that may leave the range:
    reduced modulo [2^32] into [-2^31, 2^31). *)
Definition wrap (z : Z) : Z := (z + 2 ^ 31) mod 2 ^ 32 - 2 ^ 31.

Definition in_range (z : Z) : Prop := - 2 ^ 31 <= z < 2 ^ 31.

End CInt.

(** ** The error channel *)

Module Err.

(** The fields of [Error] the callers read.  [file], [func] and [line]
    (the reporting site) and the [on_report] callback are left out; the
    message is the formatted text.  Every message reported by the code
    below is shorter than the inline buffer [message2], so the branch of
    [_Error_Report2] that moves a long message to the C heap is not
    taken and [truncated] stays 0. *)
Record Error : Type := mkError {
  occurred : bool;
  internal : bool;
  message : string;
  truncated : bool;
}.

(** [Error_Init]: [memset(err, 0, sizeof (Error))]. *)
Definition Error_Init : Error :=
  {| occurred := false; internal := false; message := ""; truncated := false |}.

(** [_Error_Report2], for a message that fits [message2]. *)
Definition _Error_Report2 (err : Error) (internal : bool) (text : string) : Error :=
  {| occurred := true; internal := internal; message := text; truncated := false |}.

(** The [Error_Report] macro. *)
Definition Error_Report (err : Error) (internal : bool) (text : string) : Error :=
  _Error_Report2 err internal text.

End Err.

Export Err.

(** ** The heap *)

Module HeapModel.

(** Modelled from the spec: [Heap_Malloc] and [Heap_RawMalloc] (heap.c
    is not among the sources).  The spec gives the heap two entry
    points, [alloc_typed(type) -> Object | Err] and
    [alloc_raw(bytes) -> ptr | Err], and says that an allocation fails
    with OOM, an internal error, "when capacity is exhausted".  Which
    requests a heap can still serve is left to the instance:
    [alloc_typed] and [alloc_raw] give the heap after an allocation for
    the named type, or of that many bytes, when it is served, and
    [oom_text] is the text of the OOM report. *)
Class HeapOps : Type := {
  Heap : Type;
  alloc_typed : Heap -> string -> option Heap;
  alloc_raw : Heap -> Z -> option Heap;
  oom_text : string;
}.

Section Allocation.
Context `{HeapOps}.

(** The [bool] says whether the returned pointer is not [NULL]. *)
Definition Heap_Malloc (heap : Heap) (type : string) (err : Error)
  : bool * Heap * Error :=
  match alloc_typed heap type with
  | Some heap' => (true, heap', err)
  | None => (false, heap, Error_Report err true oom_text)
  end.

Definition Heap_RawMalloc (heap : Heap) (size : Z) (err : Error)
  : bool * Heap * Error :=
  match alloc_raw heap size with
  | Some heap' => (true, heap', err)
  | None => (false, heap, Error_Report err true oom_text)
  end.

(** The error on the channel is an OOM report. *)
Definition is_OOM (err : Error) : Prop :=
  occurred err = true /\ internal err = true /\ message err = oom_text.

End Allocation.

(** A heap of a fixed number of bytes that serves a request while the
    bytes last: the heap is the number of bytes left.  An object header
    takes 64 bytes. *)
Definition bump_heap : HeapOps := {|
  Heap := Z;
  alloc_typed := fun left _ => if 64 <=? left then Some (left - 64) else None;
  alloc_raw := fun left size =>
    if (0 <=? size) && (size <=? left) then Some (left - size) else None;
  oom_text := "Out of heap";
|}.

End HeapModel.

Export HeapModel.

(** ** What a run of a C function comes to *)

Module Run.

(** A run returns, or leaves what C defines (it reads a cell that was
    never written, whose value the model cannot give, or follows a [NULL]
    pointer, or reaches [UNREACHABLE]), or is still inside a loop when the
    fuel given to that loop is spent. *)
Inductive outcome (A : Type) : Type :=
| Returns (a : A)
| Undefined
| OutOfFuel.

Arguments Returns {A} a.
Arguments Undefined {A}.
Arguments OutOfFuel {A}.

#[global] Instance outcome_ret : MRet outcome := fun _ a => Returns a.

#[global] Instance outcome_bind : MBind outcome := fun _ _ f m =>
  match m with
  | Returns a => f a
  | Undefined => Undefined
  | OutOfFuel => OutOfFuel
  end.

(** [for(int i = first; i < first + steps; i += 1) body], the bound being
    fixed before the loop. *)
Fixpoint for_loop {S : Type} (steps : nat) (i : Z) (body : Z -> S -> outcome S) (s : S)
  : outcome S :=
  match steps with
  | O => Returns s
  | S steps' => s' ← body i s; for_loop steps' (i + 1) body s'
  end.

(** [for(int i = 0; i < n; i += 1) body] *)
Definition for_upto {S : Type} (n : Z) (body : Z -> S -> outcome S) (s : S) : outcome S :=
  for_loop (Z.to_nat n) 0 body s.

End Run.

Export Run.

(** ** C arrays *)

Module CArray.

(** An array obtained from [Heap_RawMalloc]: the number of elements
    the request was sized for, the cells of the block that have been
    written, and the cells written past the block.  A fresh array holds
    nothing.

    A write at an index outside [0, requested) is a write past the
    block.  In C that cell belongs to whatever the heap placed next to
    the block, and what a later read of it gives is not defined.  The
    model keeps every such cell apart, in [stray], with the index it was
    written at, and reads it back from there: a run that has left a
    block can still be followed, and [stray] tells that it has.  A
    property that is to hold of the C program must not rest on a stray
    cell. *)
Record array (A : Type) : Type := mkArray {
  requested : Z;
  cells : gmap Z A;
  stray : gmap Z A;
}.

Arguments mkArray {A} requested cells stray.
Arguments requested {A} a.
Arguments cells {A} a.
Arguments stray {A} a.

Definition fresh {A : Type} (n : Z) : array A := mkArray n ∅ ∅.

(** [i] is an index of the block. *)
Definition inside {A : Type} (a : array A) (i : Z) : bool :=
  (0 <=? i) && (i <? requested a).

(** [a[i]] as an rvalue *)
Definition get {A : Type} (a : array A) (i : Z) : outcome A :=
  match (if inside a i then cells a else stray a) !! i with
  | Some v => Returns v
  | None => Undefined
  end.

(** [a[i] = v] *)
Definition set {A : Type} (a : array A) (i : Z) (v : A) : array A :=
  if inside a i
  then mkArray (requested a) (<[i := v]> (cells a)) (stray a)
  else mkArray (requested a) (cells a) (<[i := v]> (stray a)).

(** No write has gone past the block, whose size is [n] elements. *)
Definition exact {A : Type} (a : array A) (n : Z) : Prop :=
  requested a = n /\ stray a = ∅.

End CArray.

(** ** The map object *)

Module Map.

Import CInt CArray.

(** objects.c is not among the sources: the three entry points of the
    object interface that the map calls are the parameters of the model.
    Each takes the error channel and gives it back, as the C functions
    take [Error *error]; [Object_Copy] may allocate.  [Object_Hash]
    returns an [int]. *)
Class ObjectOps `{HeapOps} : Type := {
  Object : Type;
  Object_Hash : Object -> Error -> Z * Error;
  Object_Compare : Object -> Object -> Error -> bool * Error;
  Object_Copy : Object -> Heap -> Error -> option Object * Heap * Error;
}.

(** [sizeof(int)] and the size of an object pointer, on an LP64 target *)
Definition sizeof_int : Z := 4.
Definition sizeof_ptr : Z := 8.

(** A [mapper_size] that is a power of two an [int] holds, from the
    8 slots of the smallest map on. *)
Definition mapper_size_ok (size : Z) : Prop := exists k, 3 <= k <= 30 /\ size = 2 ^ k.

Section WithObjects.
Context `{ObjectOps}.

Record MapObject : Type := mkMap {
  mapper_size : Z;
  count : Z;
  mapper : array Z;
  keys : array Object;
  vals : array Object;
}.

(** [mapper_size * 2.0 / 3.0] converted back to [int].  For an [int]
    operand the product is exact in a [double] and the quotient is off by
    less than [2^-20], so the conversion, which drops the fraction, gives
    the integer quotient truncated toward zero. *)
Definition calc_capacity (mapper_size : Z) : Z := Z.quot (mapper_size * 2) 3.

(** [mapper_size = 8; while(calc_capacity(mapper_size) < num) mapper_size <<= 1;] *)
Fixpoint initial_mapper_size (fuel : nat) (mapper_size num : Z) : outcome Z :=
  match fuel with
  | O => OutOfFuel
  | S fuel' =>
    if calc_capacity mapper_size <? num
    then initial_mapper_size fuel' (wrap (Z.shiftl mapper_size 1)) num
    else Returns mapper_size
  end.

(** [for(int i = 0; i < mapper_size; i += 1) mapper[i] = -1;] *)
Definition clear_mapper (mapper_size : Z) (mapper : array Z) : outcome (array Z) :=
  for_upto mapper_size (fun i m => Returns (set m i (-1))) mapper.

Definition Object_NewMap (fuel : nat) (num : Z) (heap : Heap) (error : Error)
  : outcome (option MapObject * Heap * Error) :=
  let num := if num <? 0 then 0 else num in
  mapper_size ← initial_mapper_size fuel 8 num;
  let capacity := calc_capacity mapper_size in
  let '(obj, heap, error) := Heap_Malloc heap "map" error in
  if negb obj then Returns (None, heap, error)
  else
    let '(mapper_ok, heap, error) := Heap_RawMalloc heap (sizeof_int * capacity) error in
    let '(keys_ok, heap, error) := Heap_RawMalloc heap (sizeof_ptr * capacity) error in
    let '(vals_ok, heap, error) := Heap_RawMalloc heap (sizeof_ptr * capacity) error in
    if negb mapper_ok || negb keys_ok || negb vals_ok then Returns (None, heap, error)
    else
      mapper ← clear_mapper mapper_size (fresh capacity);
      Returns (Some {| mapper_size := mapper_size;
                       count := 0;
                       mapper := mapper;
                       keys := fresh capacity;
                       vals := fresh capacity |}, heap, error).

(** The [while(1)] of [select], from the slot [i] on. *)
Fixpoint select_probe (fuel : nat) (map : MapObject) (key : Object)
    (mask pert i : Z) (error : Error) : outcome (option Object * Error) :=
  match fuel with
  | O => OutOfFuel
  | S fuel' =>
    k ← get (mapper map) i;
    if k =? -1 then Returns (None, error)
    else
      slot_key ← get (keys map) i;
      let '(equal, error) := Object_Compare key slot_key error in
      if equal then
        slot_val ← get (vals map) i;
        Returns (Some slot_val, error)
      else if occurred error then Returns (None, error)
      else
        let pert := Z.shiftr pert 5 in
        let i := Z.land (wrap (i * 5 + pert + 1)) mask in
        select_probe fuel' map key mask pert i error
  end.

Definition select (fuel : nat) (map : MapObject) (key : Object) (heap : Heap) (error : Error)
  : outcome (option Object * Error) :=
  let mask := wrap (mapper_size map - 1) in
  let '(hash, error) := Object_Hash key error in
  let pert := hash in
  if occurred error then Returns (None, error)
  else
    let i := Z.land hash mask in
    select_probe fuel map key mask pert i error.

(** The three requests of [grow], all made before any is looked at. *)
Definition grow_requests (map : MapObject) (heap : Heap) (error : Error)
  : bool * bool * bool * Heap * Error :=
  let new_mapper_size := wrap (Z.shiftl (mapper_size map) 1) in
  let new_capacity := calc_capacity new_mapper_size in
  let '(mapper_ok, heap, error) := Heap_RawMalloc heap (sizeof_int * new_mapper_size) error in
  let '(keys_ok, heap, error) := Heap_RawMalloc heap (sizeof_ptr * new_capacity) error in
  let '(vals_ok, heap, error) := Heap_RawMalloc heap (sizeof_ptr * new_capacity) error in
  (mapper_ok, keys_ok, vals_ok, heap, error).

(** The first loop of [grow]: the entries move over in their order. *)
Definition copy_entries (map : MapObject) (keys' vals' : array Object)
  : outcome (array Object * array Object) :=
  for_upto (count map)
    (fun i '(ks, vs) =>
       k ← get (keys map) i;
       v ← get (vals map) i;
       Returns (set ks i k, set vs i v))
    (keys', vals').

(** The [while(1)] of the rehash: the first free slot from [j] on. *)
Fixpoint free_slot (fuel : nat) (mapper : array Z) (mask pert j : Z) : outcome Z :=
  match fuel with
  | O => OutOfFuel
  | S fuel' =>
    k ← get mapper j;
    if k =? -1 then Returns j
    else
      let pert := Z.shiftr pert 5 in
      let j := Z.land (wrap (j * 5 + pert + 1)) mask in
      free_slot fuel' mapper mask pert j
  end.

(** The third loop of [grow]: every entry is hashed again and takes the
    first free slot of its probe sequence. *)
Definition rehash (fuel : nat) (entries new_mapper_size : Z) (keys' : array Object)
    (mapper' : array Z) (error : Error) : outcome (array Z * Error) :=
  for_upto entries
    (fun i '(m, error) =>
       k ← get keys' i;
       let '(hash, error) := Object_Hash k error in
       let mask := wrap (new_mapper_size - 1) in
       let pert := hash in
       let j := Z.land hash mask in
       j ← free_slot fuel m mask pert j;
       Returns (set m j i, error))
    (mapper', error).

Definition grow (fuel : nat) (map : MapObject) (heap : Heap) (error : Error)
  : outcome (bool * MapObject * Heap * Error) :=
  let new_mapper_size := wrap (Z.shiftl (mapper_size map) 1) in
  let new_capacity := calc_capacity new_mapper_size in
  let '(mapper_ok, keys_ok, vals_ok, heap, error) := grow_requests map heap error in
  if negb mapper_ok || negb keys_ok || negb vals_ok then Returns (false, map, heap, error)
  else
    '(keys', vals') ← copy_entries map (fresh new_capacity) (fresh new_capacity);
    mapper' ← clear_mapper new_mapper_size (fresh new_mapper_size);
    '(mapper', error) ← rehash fuel (count map) new_mapper_size keys' mapper' error;
    Returns (true, {| mapper_size := new_mapper_size;
                      count := count map;
                      mapper := mapper';
                      keys := keys';
                      vals := vals' |}, heap, error).

(** The [while(1)] of [insert], from the slot [i] on. *)
Fixpoint insert_probe (fuel : nat) (map : MapObject) (key val : Object)
    (mask pert i : Z) (heap : Heap) (error : Error)
  : outcome (bool * MapObject * Heap * Error) :=
  match fuel with
  | O => OutOfFuel
  | S fuel' =>
    k ← get (mapper map) i;
    if k =? -1 then
      let '(key_copy, heap, error) := Object_Copy key heap error in
      match key_copy with
      | None => Returns (false, map, heap, error)
      | Some key_copy =>
        Returns (true, {| mapper_size := mapper_size map;
                          count := wrap (count map + 1);
                          mapper := set (mapper map) i (count map);
                          keys := set (keys map) (count map) key_copy;
                          vals := set (vals map) (count map) val |}, heap, error)
      end
    else
      slot_key ← get (keys map) i;
      let '(equal, error) := Object_Compare key slot_key error in
      if equal then
        Returns (true, {| mapper_size := mapper_size map;
                          count := count map;
                          mapper := mapper map;
                          keys := keys map;
                          vals := set (vals map) i val |}, heap, error)
      else if occurred error then Returns (false, map, heap, error)
      else
        let pert := Z.shiftr pert 5 in
        let i := Z.land (wrap (i * 5 + pert + 1)) mask in
        insert_probe fuel' map key val mask pert i heap error
  end.

Definition insert (fuel : nat) (map : MapObject) (key val : Object) (heap : Heap) (error : Error)
  : outcome (bool * MapObject * Heap * Error) :=
  '(grown, map, heap, error) ←
    (if count map =? calc_capacity (mapper_size map)
     then grow fuel map heap error
     else Returns (true, map, heap, error));
  if negb grown then Returns (false, map, heap, error)
  else
    let mask := wrap (mapper_size map - 1) in
    let '(hash, error) := Object_Hash key error in
    let pert := hash in
    if occurred error then Returns (false, map, heap, error)
    else
      let i := Z.land hash mask in
      insert_probe fuel map key val mask pert i heap error.

(** *** What the specification asks of a map *)

(** The slots of a table of [size] slots are all written, each empty
    or the index of one of the first [entries] entries. *)
Definition slots_ok (size entries : Z) (mapper : array Z) : Prop :=
  forall j, 0 <= j < size ->
    exists k, get mapper j = Returns k /\ (k = -1 \/ 0 <= k < entries).

(** [mapper_size] is a power of two, [count <= capacity], and every
    slot is empty or names an entry. *)
Definition map_inv (m : MapObject) : Prop :=
  mapper_size_ok (mapper_size m) /\
  0 <= count m <= calc_capacity (mapper_size m) /\
  slots_ok (mapper_size m) (count m) (mapper m).

(** The blocks of the map have the sizes of its table, the mapper
    [mapper_size] slots and the keys and the values [capacity] cells,
    and no write has gone past any of them.  This is how [grow] leaves a
    map; the map [Object_NewMap] returns is not so, its mapper being
    short. *)
Definition blocks_fit (m : MapObject) : Prop :=
  exact (mapper m) (mapper_size m) /\
  exact (keys m) (calc_capacity (mapper_size m)) /\
  exact (vals m) (calc_capacity (mapper_size m)).

End WithObjects.

Arguments MapObject {_ _}.

End Map.

(** ** The closure object *)

Module Closure.

Section WithValues.
Context `{HeapOps}.

(** The objects of the other types, whose [type] field is not
    [&t_closure]. *)
Variable Value : Type.

(** An object seen through [Object *]: a closure, or an object of
    another type.  A [ClosureObject] holds [prev], [NULL] for the
    outermost scope, and [vars]. *)
Inductive Object : Type :=
| OfClosure (closure : ClosureObject)
| OfOther (value : Value)
with ClosureObject : Type :=
| mkClosure (prev : option ClosureObject) (vars : Object).

Definition prev (c : ClosureObject) : option ClosureObject :=
  match c with mkClosure p _ => p end.

Definition vars (c : ClosureObject) : Object :=
  match c with mkClosure _ v => v end.

(** [o->type == &t_closure] *)
Definition is_closure (o : Object) : bool :=
  match o with OfClosure _ => true | OfOther _ => false end.

(** [(ClosureObject* ) parent], for a [parent] that is [NULL] or a closure *)
Definition as_closure (parent : option Object) : option ClosureObject :=
  match parent with
  | Some (OfClosure c) => Some c
  | _ => None
  end.

Definition Object_NewClosure (parent : option Object) (new_map : Object)
    (heap : Heap) (error : Error) : option Object * Heap * Error :=
  let '(obj, heap, error) := Heap_Malloc heap "closure" error in
  if negb obj then (None, heap, error)
  else if match parent with Some p => negb (is_closure p) | None => false end
  then (None, heap, Error_Report error false "Object is not a closure")
  else (Some (OfClosure (mkClosure (as_closure parent) new_map)), heap, error).

(** objects.c is not among the sources: [Object_Select], which
    dispatches on the type of the object it is given, is a parameter. *)
Variable Object_Select : Object -> Object -> Heap -> Error -> option Object * Heap * Error.

(** The loop of [select], entered with [closure] not [NULL] and
    [selected == NULL]: one turn, then the loop test. *)
Fixpoint select_from (closure : ClosureObject) (key : Object) (heap : Heap) (err : Error)
  : option Object * Heap * Error :=
  match closure with
  | mkClosure prev vars =>
    let '(selected, heap, err) := Object_Select vars key heap err in
    if occurred err then (None, heap, err)
    else
      match prev, selected with
      | Some closure, None => select_from closure key heap err
      | _, _ => (selected, heap, err)
      end
  end.

Definition select (self : ClosureObject) (key : Object) (heap : Heap) (err : Error)
  : option Object * Heap * Error :=
  select_from self key heap err.

End WithValues.

Arguments OfClosure {Value} closure.
Arguments OfOther {Value} value.
Arguments mkClosure {Value} prev vars.
Arguments prev {Value} c.
Arguments vars {Value} c.
Arguments is_closure {Value} o.
Arguments as_closure {Value} parent.

End Closure.

(** ** The walk of the chain, in the words of the specification *)

Module ClosureSpec.

Import Closure.

Section Spec.
Context `{HeapOps}.
Variable Value : Type.
Variable Object_Select :
  Object Value -> Object Value -> Heap -> Error -> option (Object Value) * Heap * Error.

(** The [vars] of a chain, the innermost scope first. *)
Fixpoint scopes (closure : ClosureObject Value) : list (Object Value) :=
  match closure with
  | mkClosure prev vars =>
    vars :: match prev with Some outer => scopes outer | None => [] end
  end.

(** "[select(key)] walks the [prev] chain, returning the first
    non-[None] result from [vars.select].  Any error aborts the walk."
    The result for a list of scopes that are asked in turn: [None] when
    there is no scope left; failure as soon as a scope reports an error,
    whatever the scopes further out hold; the value of the first scope
    that has one; and otherwise what the scopes further out give. *)
Inductive walk_result (key : Object Value)
  : list (Object Value) -> Heap -> Error -> option (Object Value) * Heap * Error -> Prop :=
| walk_none heap err :
    walk_result key [] heap err (None, heap, err)
| walk_abort scope outer heap err selected heap' err' :
    Object_Select scope key heap err = (selected, heap', err') ->
    occurred err' = true ->
    walk_result key (scope :: outer) heap err (None, heap', err')
| walk_found scope outer heap err value heap' err' :
    Object_Select scope key heap err = (Some value, heap', err') ->
    occurred err' = false ->
    walk_result key (scope :: outer) heap err (Some value, heap', err')
| walk_on scope outer heap err heap' err' result :
    Object_Select scope key heap err = (None, heap', err') ->
    occurred err' = false ->
    walk_result key outer heap' err' result ->
    walk_result key (scope :: outer) heap err result.

(** [obj->prev] read back through [Object *] *)
Definition prev_object (closure : ClosureObject Value) : option (Object Value) :=
  OfClosure <$> prev closure.

End Spec.

End ClosureSpec.

(** ** The code generator *)

Module Codegen.

Import Stdlib.Floats.SpecFloat.

(** *** The syntax tree ([ASTi.h] is not among the sources; the node
    types are read off the fields the generator uses) *)

Inductive NodeKind : Type :=
| NODE_EXPR | NODE_BREAK | NODE_IFELSE | NODE_WHILE | NODE_DOWHILE
| NODE_COMP | NODE_RETURN | NODE_FUNC.

Inductive ExprKind : Type :=
| EXPR_PAIR
| EXPR_NOT | EXPR_POS | EXPR_NEG
| EXPR_ADD | EXPR_SUB | EXPR_MUL | EXPR_DIV
| EXPR_EQL | EXPR_NQL | EXPR_LSS | EXPR_LEQ | EXPR_GRT | EXPR_GEQ
| EXPR_AND | EXPR_OR
| EXPR_ASS
| EXPR_INT | EXPR_FLOAT | EXPR_STRING | EXPR_IDENT
| EXPR_LIST | EXPR_MAP | EXPR_CALL | EXPR_SELECT
| EXPR_NONE | EXPR_TRUE | EXPR_FALSE.

(** A parameter of a function definition: its span and its name. *)
Record ArgumentNode : Type := mkArgument {
  arg_offset : Z;
  arg_length : Z;
  arg_name : string;
}.

(** A node with its span.  The lists are the chains of [next] pointers:
    the operands of an operator from [head], the items of a list, the
    arguments of a call, the statements of a block. *)
Inductive Node : Type :=
| OperExprNode (kind : ExprKind) (offset length : Z) (head : list Node)
| IntExprNode (offset length : Z) (val : Z)
| FloatExprNode (offset length : Z) (val : spec_float)
| StringExprNode (offset length : Z) (val : string)
| IdentExprNode (offset length : Z) (val : string)
| ListExprNode (offset length : Z) (items : list Node) (itemc : Z)
| MapExprNode (offset length : Z) (keys items : list Node) (itemc : Z)
| CallExprNode (offset length : Z) (func : Node) (argv : list Node) (argc : Z)
| IndexSelectionExprNode (offset length : Z) (set idx : Node)
| ExprNode (kind : ExprKind) (offset length : Z)
| BreakNode (offset length : Z)
| IfElseNode (offset length : Z) (condition true_branch : Node) (false_branch : option Node)
| WhileNode (offset length : Z) (condition body : Node)
| DoWhileNode (offset length : Z) (body condition : Node)
| CompoundNode (offset length : Z) (head : list Node)
| ReturnNode (offset length : Z) (val : Node)
| FunctionNode (offset length : Z) (name : string) (argv : list ArgumentNode) (argc : Z)
    (body : Node).

(** [node->kind] *)
Definition node_kind (node : Node) : NodeKind :=
  match node with
  | BreakNode _ _ => NODE_BREAK
  | IfElseNode _ _ _ _ _ => NODE_IFELSE
  | WhileNode _ _ _ _ => NODE_WHILE
  | DoWhileNode _ _ _ _ => NODE_DOWHILE
  | CompoundNode _ _ _ => NODE_COMP
  | ReturnNode _ _ _ => NODE_RETURN
  | FunctionNode _ _ _ _ _ _ => NODE_FUNC
  | _ => NODE_EXPR
  end.

Definition is_NODE_EXPR (node : Node) : bool :=
  match node_kind node with NODE_EXPR => true | _ => false end.

(** [node->offset] and [node->length] *)
Definition node_offset (node : Node) : Z :=
  match node with
  | OperExprNode _ o _ _ | IntExprNode o _ _ | FloatExprNode o _ _
  | StringExprNode o _ _ | IdentExprNode o _ _ | ListExprNode o _ _ _
  | MapExprNode o _ _ _ _ | CallExprNode o _ _ _ _
  | IndexSelectionExprNode o _ _ _ | ExprNode _ o _ | BreakNode o _
  | IfElseNode o _ _ _ _ | WhileNode o _ _ _ | DoWhileNode o _ _ _
  | CompoundNode o _ _ | ReturnNode o _ _ | FunctionNode o _ _ _ _ _ => o
  end.

Definition node_length (node : Node) : Z :=
  match node with
  | OperExprNode _ _ l _ | IntExprNode _ l _ | FloatExprNode _ l _
  | StringExprNode _ l _ | IdentExprNode _ l _ | ListExprNode _ l _ _
  | MapExprNode _ l _ _ _ | CallExprNode _ l _ _ _
  | IndexSelectionExprNode _ l _ _ | ExprNode _ _ l | BreakNode _ l
  | IfElseNode _ l _ _ _ | WhileNode _ l _ _ | DoWhileNode _ l _ _
  | CompoundNode _ l _ | ReturnNode _ l _ | FunctionNode _ l _ _ _ _ => l
  end.

(** The source text a tree was parsed from; the generator reads its
    size only. *)
Record Source : Type := mkSource {
  Source_GetSize : Z;
}.

Record AST : Type := mkAST {
  root : Node;
  src : Source;
}.

(** *** Instructions *)

Inductive Opcode : Type :=
| OPCODE_NOT | OPCODE_POS | OPCODE_NEG
| OPCODE_ADD | OPCODE_SUB | OPCODE_MUL | OPCODE_DIV
| OPCODE_EQL | OPCODE_NQL | OPCODE_LSS | OPCODE_LEQ | OPCODE_GRT | OPCODE_GEQ
| OPCODE_AND | OPCODE_OR
| OPCODE_ASS | OPCODE_POP
| OPCODE_CALL | OPCODE_SELECT | OPCODE_INSERT | OPCODE_INSERT2
| OPCODE_PUSHINT | OPCODE_PUSHFLT | OPCODE_PUSHSTR | OPCODE_PUSHVAR
| OPCODE_PUSHTRU | OPCODE_PUSHFLS | OPCODE_PUSHNNE
| OPCODE_PUSHFUN | OPCODE_PUSHLST | OPCODE_PUSHMAP
| OPCODE_RETURN
| OPCODE_JUMPIFNOTANDPOP | OPCODE_JUMPIFANDPOP | OPCODE_JUMP.

(** A promise is named by the position of its cell in the scratch
    allocator. *)
Definition Promise : Type := nat.

Inductive Operand : Type :=
| OPTP_INT (as_int : Z)
| OPTP_FLOAT (as_float : spec_float)
| OPTP_STRING (as_string : string)
| OPTP_PROMISE (as_promise : Promise).

Record Instruction : Type := mkInstr {
  opcode : Opcode;
  operands : list Operand;
  instr_offset : Z;
  instr_length : Z;
}.

(** *** The scratch allocator, promises and the builder *)

(** Modelled from the spec: [BPAlloc], [Promise] and [ExeBuilder]
    (their sources are not among the files).  The scratch allocator is a
    bump allocator that can run out: [serves n] says whether its request
    number [n] is served, and every new promise and every appended
    instruction is one request.  A promise is a write-once cell that is
    unresolved ([None]) until an [INT] payload is written to it. *)
Record BPAlloc : Type := mkBPAlloc {
  serves : nat -> bool;
  requests : nat;
  promises : list (option Z);
}.

Definition BPAlloc_Malloc (alloc : BPAlloc) : option BPAlloc :=
  if serves alloc (requests alloc)
  then Some (mkBPAlloc (serves alloc) (S (requests alloc)) (promises alloc))
  else None.

Definition Promise_New (alloc : BPAlloc) : option (Promise * BPAlloc) :=
  match BPAlloc_Malloc alloc with
  | Some alloc =>
    Some (length (promises alloc),
          mkBPAlloc (serves alloc) (requests alloc) (promises alloc ++ [None]))
  | None => None
  end.

Definition Promise_Resolve (alloc : BPAlloc) (promise : Promise) (payload : Z) : BPAlloc :=
  mkBPAlloc (serves alloc) (requests alloc) (<[promise := Some payload]> (promises alloc)).

Definition Promise_Read (alloc : BPAlloc) (promise : Promise) : option Z :=
  mjoin (promises alloc !! promise).

(** The instructions appended so far, the first one first. *)
Record ExeBuilder : Type := mkBuilder {
  code : list Instruction;
}.

Definition ExeBuilder_InstrCount (builder : ExeBuilder) : Z := Z.of_nat (length (code builder)).

(** The finished program: the instructions, and the source it is bound
    to by [Executable_SetSource]. *)
Record Executable : Type := mkExecutable {
  body : list Instruction;
  exe_source : option Source;
}.

Definition Executable_SetSource (exe : Executable) (src : Source) : Executable :=
  mkExecutable (body exe) (Some src).

(** *** The context and the non-local exit *)

Record CodegenContext : Type := mkContext {
  error : Error;
  alloc : BPAlloc;
  builder : ExeBuilder;
  own_alloc : bool;
}.

(** What a piece of the generator comes to: it goes on with a value and
    the context, or it has called [longjmp] (the context is the one at
    the call, and holds the error that was reported), or the tree had a
    shape the parser does not build, or the fuel for the walk is
    spent. *)
Inductive result (A : Type) : Type :=
| Ok (a : A) (ctx : CodegenContext)
| Jumped (ctx : CodegenContext)
| Malformed
| Exhausted.

Arguments Ok {A} a ctx.
Arguments Jumped {A} ctx.
Arguments Malformed {A}.
Arguments Exhausted {A}.

Definition Gen (A : Type) : Type := CodegenContext -> result A.

Definition ret {A : Type} (a : A) : Gen A := fun ctx => Ok a ctx.

Definition bind {A B : Type} (m : Gen A) (f : A -> Gen B) : Gen B :=
  fun ctx =>
    match m ctx with
    | Ok a ctx' => f a ctx'
    | Jumped ctx' => Jumped ctx'
    | Malformed => Malformed
    | Exhausted => Exhausted
    end.

Declare Scope gen_scope.
Delimit Scope gen_scope with gen.
Notation "'let*' x ':=' m 'in' k" := (bind m (fun x => k))
  (at level 10, x name, m at level 100, k at level 200) : gen_scope.
Notation "m ;; k" := (bind m (fun _ => k))
  (at level 100, k at level 200, right associativity) : gen_scope.
Local Open Scope gen_scope.

(** [okNowJump] *)
Definition okNowJump {A : Type} : Gen A := fun ctx => Jumped ctx.

(** [reportErrorAndJump] with the message formatted *)
Definition reportErrorAndJump {A : Type} (internal : bool) (text : string) : Gen A :=
  fun ctx =>
    Jumped (mkContext (Error_Report (error ctx) internal text)
                      (alloc ctx) (builder ctx) (own_alloc ctx)).

Definition malformed {A : Type} : Gen A := fun _ => Malformed.

(** A loop over a chain of [next] pointers. *)
Fixpoint for_each {A : Type} (l : list A) (f : A -> Gen unit) : Gen unit :=
  match l with
  | [] => ret tt
  | x :: l' => f x ;; for_each l' f
  end.

(** Modelled from the spec: [ExeBuilder_Append] fails when the scratch
    allocator is out of memory, with an internal error on the channel. *)
Definition ExeBuilder_Append (ctx : CodegenContext) (opcode : Opcode) (opv : list Operand)
    (off len : Z) : option CodegenContext * Error :=
  match BPAlloc_Malloc (alloc ctx) with
  | Some alloc' =>
    (Some (mkContext (error ctx) alloc'
             (mkBuilder (code (builder ctx) ++ [mkInstr opcode opv off len]))
             (own_alloc ctx)),
     error ctx)
  | None => (None, Error_Report (error ctx) true "No memory")
  end.

Definition emitInstr (opcode : Opcode) (opv : list Operand) (off len : Z) : Gen unit :=
  fun ctx =>
    match ExeBuilder_Append ctx opcode opv off len with
    | (Some ctx', _) => Ok tt ctx'
    | (None, err) => okNowJump (mkContext err (alloc ctx) (builder ctx) (own_alloc ctx))
    end.

Definition emitInstr_POP (op0 : Z) (off len : Z) : Gen unit :=
  emitInstr OPCODE_POP [OPTP_INT op0] off len.

Definition emitInstr_POP1 (off len : Z) : Gen unit := emitInstr_POP 1 off len.

Definition emitInstr_ASS (name : string) (off len : Z) : Gen unit :=
  emitInstr OPCODE_ASS [OPTP_STRING name] off len.

Definition newOffsetPromise : Gen Promise :=
  fun ctx =>
    match Promise_New (alloc ctx) with
    | Some (promise, alloc') =>
      Ok promise (mkContext (error ctx) alloc' (builder ctx) (own_alloc ctx))
    | None => reportErrorAndJump true "No memory" ctx
    end.

(** [temp = ExeBuilder_InstrCount(ctx->builder); Promise_Resolve(promise, &temp, sizeof(temp));] *)
Definition resolve_here (promise : Promise) : Gen unit :=
  fun ctx =>
    Ok tt (mkContext (error ctx)
             (Promise_Resolve (alloc ctx) promise (ExeBuilder_InstrCount (builder ctx)))
             (builder ctx) (own_alloc ctx)).

(** [ExeBuilder_InstrCount(ctx->builder)] *)
Definition instr_count : Gen Z := fun ctx => Ok (ExeBuilder_InstrCount (builder ctx)) ctx.

Definition exprkind_to_opcode (kind : ExprKind) : option Opcode :=
  match kind with
  | EXPR_NOT => Some OPCODE_NOT
  | EXPR_POS => Some OPCODE_POS
  | EXPR_NEG => Some OPCODE_NEG
  | EXPR_ADD => Some OPCODE_ADD
  | EXPR_SUB => Some OPCODE_SUB
  | EXPR_MUL => Some OPCODE_MUL
  | EXPR_DIV => Some OPCODE_DIV
  | EXPR_EQL => Some OPCODE_EQL
  | EXPR_NQL => Some OPCODE_NQL
  | EXPR_LSS => Some OPCODE_LSS
  | EXPR_LEQ => Some OPCODE_LEQ
  | EXPR_GRT => Some OPCODE_GRT
  | EXPR_GEQ => Some OPCODE_GEQ
  | EXPR_AND => Some OPCODE_AND
  | EXPR_OR => Some OPCODE_OR
  | _ => None
  end.

(** [for(int i = first; i < first + steps; i += 1) body] *)
Fixpoint for_index (steps : nat) (i : Z) (body : Z -> Gen unit) : Gen unit :=
  match steps with
  | O => ret tt
  | S steps' => body i ;; for_index steps' (i + 1) body
  end.

(** *** The walk

    [emitInstrForNode] and the functions it shares its recursion with
    take the recursive call, [emitNode], as an argument. *)

Definition emitter : Type := Node -> option Promise -> Gen unit.

(** The leaves of a tree of [EXPR_PAIR] nodes are appended to [tuple],
    left to right; [*count] is the length of [tuple]. *)
Fixpoint flattenTupleTree (root : Node) (tuple : list Node) (max : Z) : Gen (list Node) :=
  match root with
  | OperExprNode EXPR_PAIR _ _ head =>
    match head with
    | first :: second :: _ =>
      let* tuple := flattenTupleTree first tuple max in
      flattenTupleTree second tuple max
    | _ => malformed
    end
  | ExprNode EXPR_PAIR _ _ => malformed
  | _ =>
    if max =? Z.of_nat (length tuple)
    then reportErrorAndJump false "Static buffer is too small"
    else ret (tuple ++ [root])
  end.

Definition emitInstrForFuncCallNode (emitNode : emitter)
    (off len : Z) (func : Node) (argv : list Node) (argc : Z)
    (break_dest : option Promise) (returns : Z) : Gen unit :=
  for_each argv (fun arg => emitNode arg break_dest) ;;
  emitNode func break_dest ;;
  emitInstr OPCODE_CALL [OPTP_INT argc; OPTP_INT returns] off len.

Definition emitInstrForFuncNode (emitNode : emitter)
    (off len : Z) (name : string) (argv : list ArgumentNode) (argc : Z) (body : Node)
    (break_dest : option Promise) : Gen unit :=
  let* func_index := newOffsetPromise in
  let* jump_index := newOffsetPromise in
  emitInstr OPCODE_PUSHFUN [OPTP_PROMISE func_index; OPTP_INT argc] off len ;;
  emitInstr_ASS name off len ;;
  emitInstr_POP1 off len ;;
  emitInstr OPCODE_JUMP [OPTP_PROMISE jump_index] off len ;;
  resolve_here func_index ;;
  for_each argv (fun arg =>
    emitInstr_ASS (arg_name arg) (arg_offset arg) (arg_length arg) ;;
    emitInstr_POP1 (arg_offset arg) (arg_length arg)) ;;
  emitNode body None ;;
  (if is_NODE_EXPR body
   then emitInstr_POP1 (CInt.wrap (node_offset body + node_length body)) 0
   else ret tt) ;;
  emitInstr OPCODE_RETURN [OPTP_INT 0] (node_offset body) 0 ;;
  resolve_here jump_index.

Definition emitInstrForIfElseNode (emitNode : emitter)
    (off len : Z) (condition true_branch : Node) (false_branch : option Node)
    (break_dest : option Promise) : Gen unit :=
  emitNode condition break_dest ;;
  match false_branch with
  | Some false_branch =>
    let* else_offset := newOffsetPromise in
    let* done_offset := newOffsetPromise in
    emitInstr OPCODE_JUMPIFNOTANDPOP [OPTP_PROMISE else_offset] off len ;;
    emitNode true_branch break_dest ;;
    (if is_NODE_EXPR true_branch
     then emitInstr_POP 1 (node_offset true_branch) 0
     else ret tt) ;;
    emitInstr OPCODE_JUMP [OPTP_PROMISE done_offset] off len ;;
    resolve_here else_offset ;;
    emitNode false_branch break_dest ;;
    (if is_NODE_EXPR false_branch
     then emitInstr_POP1 (node_offset false_branch) 0
     else ret tt) ;;
    resolve_here done_offset
  | None =>
    let* done_offset := newOffsetPromise in
    emitInstr OPCODE_JUMPIFNOTANDPOP [OPTP_PROMISE done_offset] off len ;;
    emitNode true_branch break_dest ;;
    (if is_NODE_EXPR true_branch
     then emitInstr_POP1 (node_offset true_branch) 0
     else ret tt) ;;
    resolve_here done_offset
  end.

(** The store of one target of an assignment. *)
Definition emitInstrForTarget (emitNode : emitter) (tuple_item : Node)
    (break_dest : option Promise) : Gen unit :=
  match tuple_item with
  | IdentExprNode off len name => emitInstr_ASS name off len
  | IndexSelectionExprNode off len set idx =>
    emitNode set break_dest ;;
    emitNode idx break_dest ;;
    emitInstr OPCODE_INSERT2 [] off len
  | _ => reportErrorAndJump false "Assigning to something that it can't be assigned to"
  end.

Definition emitInstrForAssignmentNode (emitNode : emitter)
    (off : Z) (head : list Node) (break_dest : option Promise) : Gen unit :=
  match head with
  | lop :: rest =>
    let* tuple := flattenTupleTree lop [] 32 in
    let count := Z.of_nat (length tuple) in
    (if count =? 1
     then
       match rest with
       | rop :: _ => emitNode rop break_dest
       | [] => malformed
       end
     else
       match rest with
       | CallExprNode call_off call_len func argv argc :: _ =>
         emitInstrForFuncCallNode emitNode call_off call_len func argv argc break_dest count
       | _ :: _ =>
         reportErrorAndJump false
           ("Assigning to " ++ pretty count ++ " variables only 1 value")
       | [] => malformed
       end) ;;
    for_index (length tuple) 0 (fun i =>
      match tuple !! Z.to_nat (count - i - 1) with
      | Some tuple_item =>
        emitInstrForTarget emitNode tuple_item break_dest ;;
        (if i + 1 <? count then emitInstr_POP1 off 0 else ret tt)
      | None => malformed
      end)
  | [] => malformed
  end.

(** The items of a list expression, from index [i] on. *)
Fixpoint emitInstrForItems (emitNode : emitter) (items : list Node) (i : Z)
    (break_dest : option Promise) : Gen unit :=
  match items with
  | [] => ret tt
  | item :: items' =>
    emitInstr OPCODE_PUSHINT [OPTP_INT i] (node_offset item) (node_length item) ;;
    emitNode item break_dest ;;
    emitInstr OPCODE_INSERT [] (node_offset item) (node_length item) ;;
    emitInstrForItems emitNode items' (i + 1) break_dest
  end.

(** The pairs of a map expression: the loop runs while there is an item
    and reads a key for each. *)
Fixpoint emitInstrForPairs (emitNode : emitter) (keys items : list Node)
    (break_dest : option Promise) : Gen unit :=
  match items with
  | [] => ret tt
  | item :: items' =>
    match keys with
    | key :: keys' =>
      emitNode key break_dest ;;
      emitNode item break_dest ;;
      emitInstr OPCODE_INSERT [] (node_offset item) (node_length item) ;;
      emitInstrForPairs emitNode keys' items' break_dest
    | [] => malformed
    end
  end.

Fixpoint emitInstrForNode (fuel : nat) (node : Node) (break_dest : option Promise)
  : Gen unit :=
  match fuel with
  | O => fun _ => Exhausted
  | S fuel' =>
    let emitNode : emitter := emitInstrForNode fuel' in
    match node with
    | OperExprNode kind off len head =>
      match kind with
      | EXPR_PAIR =>
        reportErrorAndJump false "Tuple outside of assignment or return statement"
      | EXPR_ASS => emitInstrForAssignmentNode emitNode off head break_dest
      | _ =>
        match exprkind_to_opcode kind with
        | Some opcode =>
          for_each head (fun operand => emitNode operand break_dest) ;;
          emitInstr opcode [] off len
        | None => malformed
        end
      end
    | IntExprNode off len val => emitInstr OPCODE_PUSHINT [OPTP_INT val] off len
    | FloatExprNode off len val => emitInstr OPCODE_PUSHFLT [OPTP_FLOAT val] off len
    | StringExprNode off len val => emitInstr OPCODE_PUSHSTR [OPTP_STRING val] off len
    | IdentExprNode off len val => emitInstr OPCODE_PUSHVAR [OPTP_STRING val] off len
    | ListExprNode off len items itemc =>
      emitInstr OPCODE_PUSHLST [OPTP_INT itemc] off len ;;
      emitInstrForItems emitNode items 0 break_dest
    | MapExprNode off len keys items itemc =>
      emitInstr OPCODE_PUSHMAP [OPTP_INT itemc] off len ;;
      emitInstrForPairs emitNode keys items break_dest
    | CallExprNode off len func argv argc =>
      emitInstrForFuncCallNode emitNode off len func argv argc break_dest 1
    | IndexSelectionExprNode off len set idx =>
      emitNode set break_dest ;;
      emitNode idx break_dest ;;
      emitInstr OPCODE_SELECT [] off len
    | ExprNode kind off len =>
      match kind with
      | EXPR_NONE => emitInstr OPCODE_PUSHNNE [] off len
      | EXPR_TRUE => emitInstr OPCODE_PUSHTRU [] off len
      | EXPR_FALSE => emitInstr OPCODE_PUSHFLS [] off len
      | _ => malformed
      end
    | BreakNode off len =>
      match break_dest with
      | None => reportErrorAndJump false "Break not inside a loop"
      | Some dest => emitInstr OPCODE_JUMP [OPTP_PROMISE dest] off len
      end
    | IfElseNode off len condition true_branch false_branch =>
      emitInstrForIfElseNode emitNode off len condition true_branch false_branch break_dest
    | WhileNode off len condition body =>
      let* start_offset := newOffsetPromise in
      let* end_offset := newOffsetPromise in
      resolve_here start_offset ;;
      emitNode condition break_dest ;;
      emitInstr OPCODE_JUMPIFNOTANDPOP [OPTP_PROMISE end_offset]
        (node_offset condition) (node_length condition) ;;
      emitNode body (Some end_offset) ;;
      (if is_NODE_EXPR body then emitInstr_POP1 (node_offset body) 0 else ret tt) ;;
      emitInstr OPCODE_JUMP [OPTP_PROMISE start_offset] off len ;;
      resolve_here end_offset
    | DoWhileNode off len body condition =>
      let* end_offset := newOffsetPromise in
      let* start := instr_count in
      emitNode body (Some end_offset) ;;
      (if is_NODE_EXPR body then emitInstr_POP1 (node_offset body) 0 else ret tt) ;;
      emitNode condition break_dest ;;
      emitInstr OPCODE_JUMPIFANDPOP [OPTP_INT start]
        (node_offset condition) (node_length condition) ;;
      resolve_here end_offset
    | CompoundNode off len head =>
      for_each head (fun stmt =>
        emitNode stmt break_dest ;;
        (if is_NODE_EXPR stmt then emitInstr_POP1 (node_offset stmt) 0 else ret tt))
    | ReturnNode off len val =>
      let* tuple := flattenTupleTree val [] 32 in
      for_each tuple (fun item => emitNode item break_dest) ;;
      emitInstr OPCODE_RETURN [OPTP_INT (Z.of_nat (length tuple))] off len
    | FunctionNode off len name argv argc body =>
      emitInstrForFuncNode emitNode off len name argv argc body break_dest
    end
  end.

(** *** Finalization and [compile] *)

Definition finalize_operand (alloc : BPAlloc) (op : Operand) : option Operand :=
  match op with
  | OPTP_PROMISE promise => OPTP_INT <$> Promise_Read alloc promise
  | _ => Some op
  end.

Definition finalize_instr (alloc : BPAlloc) (instr : Instruction) : option Instruction :=
  opv ← mapM (finalize_operand alloc) (operands instr);
  Some (mkInstr (opcode instr) opv (instr_offset instr) (instr_length instr)).

(** Modelled from the spec: [ExeBuilder_Finalize] replaces every
    [PROMISE] operand by the [INT] payload of its promise; a promise
    that is still unresolved is an internal error. *)
Definition ExeBuilder_Finalize (ctx : CodegenContext) : option Executable * Error :=
  match mapM (finalize_instr (alloc ctx)) (code (builder ctx)) with
  | Some body => (Some (mkExecutable body None), error ctx)
  | None => (None, Error_Report (error ctx) true "Unresolved promise")
  end.

(** Modelled from the spec: [ExeBuilder_New] is a request to the
    scratch allocator and starts with no instruction. *)
Definition ExeBuilder_New (alloc : BPAlloc) : option (ExeBuilder * BPAlloc) :=
  match BPAlloc_Malloc alloc with
  | Some alloc' => Some (mkBuilder [], alloc')
  | None => None
  end.

Definition makeExecutableAndFreeCodegenContext (src : Source) : Gen Executable :=
  fun ctx =>
    match ExeBuilder_Finalize ctx with
    | (Some exe, _) => Ok (Executable_SetSource exe src) ctx
    | (None, err) => okNowJump (mkContext err (alloc ctx) (builder ctx) (own_alloc ctx))
    end.

Section Compile.

(** What [BPAlloc_Init(-1)] returns when [compile] is given no
    allocator: a fresh one, or [NULL]. *)
Variable BPAlloc_Init : option BPAlloc.

Definition initCodegenContext (error : Error) (alloc : option BPAlloc)
  : option CodegenContext * Error :=
  let '(alloc, own_alloc) :=
    match alloc with
    | None => (BPAlloc_Init, true)
    | Some alloc => (Some alloc, false)
    end in
  match alloc with
  | None => (None, Error_Report error true "No memory")
  | Some alloc =>
    match ExeBuilder_New alloc with
    | None => (None, error)
    | Some (builder, alloc) => (Some (mkContext error alloc builder own_alloc), error)
    end
  end.

(** [compile].  The [setjmp] that fills [ctx.env] is called inside
    [setOrcatchJump], and that function has returned when the walk
    begins.  A [longjmp] to [ctx.env] is then a jump into a call that
    has ended, which C leaves undefined: when a piece of the pass takes
    the exit, with its error on the channel, [compile] does not come to
    its [return NULL] in any way the language defines.  The failures of
    [initCodegenContext] are before the [setjmp] and return [NULL]. *)
Definition compile (fuel : nat) (ast : AST) (alloc : option BPAlloc) (error : Error)
  : outcome (option Executable * Error) :=
  match initCodegenContext error alloc with
  | (None, error) => Returns (None, error)
  | (Some ctx, _) =>
    match
      (emitInstrForNode fuel (root ast) None ;;
       emitInstr OPCODE_RETURN [OPTP_INT 0] (Source_GetSize (src ast)) 0 ;;
       makeExecutableAndFreeCodegenContext (src ast)) ctx
    with
    | Ok exe ctx' => Returns (Some exe, Codegen.error ctx')
    | Jumped ctx' => Undefined
    | Malformed => Undefined
    | Exhausted => OutOfFuel
    end
  end.

End Compile.

(** *** The errors of the pass, as the specification names them *)

(** [BreakOutsideLoop], a user error *)
Definition BreakOutsideLoop (err : Error) : Prop :=
  occurred err = true /\ internal err = false /\ message err = "Break not inside a loop".

(** The piece took the [longjmp] with an error of the given kind on the
    channel. *)
Definition jumps_with {A : Type} (kind : Error -> Prop) (r : result A) : Prop :=
  exists ctx, r = Jumped ctx /\ kind (error ctx).

End Codegen.

(** ** What the walk keeps, and the shapes it works on *)

Module CodegenSpec.

Import Codegen.
Local Open Scope gen_scope.

(** *** Trees *)

(** [kind] of a node that is an expression *)
Definition expr_kind (node : Node) : option ExprKind :=
  match node with
  | OperExprNode kind _ _ _ => Some kind
  | IntExprNode _ _ _ => Some EXPR_INT
  | FloatExprNode _ _ _ => Some EXPR_FLOAT
  | StringExprNode _ _ _ => Some EXPR_STRING
  | IdentExprNode _ _ _ => Some EXPR_IDENT
  | ListExprNode _ _ _ _ => Some EXPR_LIST
  | MapExprNode _ _ _ _ _ => Some EXPR_MAP
  | CallExprNode _ _ _ _ _ => Some EXPR_CALL
  | IndexSelectionExprNode _ _ _ _ => Some EXPR_SELECT
  | ExprNode kind _ _ => Some kind
  | _ => None
  end.

(** The leaves of a tree of [EXPR_PAIR] nodes, left to right. *)
Fixpoint leaves (root : Node) : list Node :=
  match root with
  | OperExprNode EXPR_PAIR _ _ (first :: second :: _) => leaves first ++ leaves second
  | _ => [root]
  end.

(** The number of [EXPR_PAIR] nodes above the leaves. *)
Fixpoint pairs (root : Node) : nat :=
  match root with
  | OperExprNode EXPR_PAIR _ _ (first :: second :: _) => S (pairs first + pairs second)
  | _ => O
  end.

(** Every [EXPR_PAIR] node above the leaves is an operator node with
    two operands, as the parser builds them. *)
Fixpoint tuple_ok (root : Node) : bool :=
  match root with
  | OperExprNode EXPR_PAIR _ _ head =>
    match head with
    | first :: second :: _ => tuple_ok first && tuple_ok second
    | _ => false
    end
  | ExprNode EXPR_PAIR _ _ => false
  | _ => true
  end.

(** The height of a tree: the number of nodes on its longest branch. *)
Fixpoint depth (node : Node) : nat :=
  match node with
  | OperExprNode _ _ _ head => S (list_max (map depth head))
  | ListExprNode _ _ items _ => S (list_max (map depth items))
  | MapExprNode _ _ keys items _ =>
    S (Nat.max (list_max (map depth keys)) (list_max (map depth items)))
  | CallExprNode _ _ func argv _ => S (Nat.max (depth func) (list_max (map depth argv)))
  | IndexSelectionExprNode _ _ set idx => S (Nat.max (depth set) (depth idx))
  | IfElseNode _ _ condition true_branch false_branch =>
    S (Nat.max (depth condition)
         (Nat.max (depth true_branch)
            (match false_branch with Some node => depth node | None => O end)))
  | WhileNode _ _ condition body => S (Nat.max (depth condition) (depth body))
  | DoWhileNode _ _ body condition => S (Nat.max (depth body) (depth condition))
  | CompoundNode _ _ head => S (list_max (map depth head))
  | ReturnNode _ _ val => S (depth val)
  | FunctionNode _ _ _ _ _ body => S (depth body)
  | _ => 1%nat
  end.



(** *** Instructions *)


(** The last instruction of every program. *)
Definition final_RETURN (src : Source) : Instruction :=
  mkInstr OPCODE_RETURN [OPTP_INT 0] (Source_GetSize src) 0.


(** The operands that name an instruction to go to: those of the three
    jumps, and the first operand of [PUSHFUN], where the body of the
    function starts. *)
Definition targets (instr : Instruction) : list Operand :=
  match opcode instr with
  | OPCODE_JUMP | OPCODE_JUMPIFNOTANDPOP | OPCODE_JUMPIFANDPOP => operands instr
  | OPCODE_PUSHFUN => take 1 (operands instr)
  | _ => []
  end.


(** The last loop of [emitInstrForAssignmentNode], which stores into
    the targets: [steps] turns from [i = first] on. *)
Definition store_loop (emitNode : emitter) (off : Z) (tuple : list Node)
    (break_dest : option Promise) (steps : nat) (first : Z) : Gen unit :=
  let count := Z.of_nat (length tuple) in
  for_index steps first (fun i =>
    match tuple !! Z.to_nat (count - i - 1) with
    | Some tuple_item =>
      emitInstrForTarget emitNode tuple_item break_dest ;;
      (if i + 1 <? count then emitInstr_POP1 off 0 else ret tt)
    | None => malformed
    end).

(** *** Contexts *)

(** The context after the report of a user error. *)
Definition reported (ctx : CodegenContext) (text : string) : CodegenContext :=
  mkContext (Error_Report (error ctx) false text) (alloc ctx) (builder ctx) (own_alloc ctx).

(** The number of promises and of instructions of a context. *)
Definition plen (ctx : CodegenContext) : nat := length (promises (alloc ctx)).
Definition clen (ctx : CodegenContext) : nat := length (code (builder ctx)).

(** A promise made since the pass began, when there were [base]
    promises. *)
Definition valid (base : nat) (ctx : CodegenContext) (p : Promise) : Prop :=
  (base <= p < plen ctx)%nat.

(** A target is a promise, or the number of an instruction there is or
    of the one to come. *)
Definition target_ok (ctx : CodegenContext) (op : Operand) : Prop :=
  match op with
  | OPTP_INT v => 0 <= v <= Z.of_nat (clen ctx)
  | OPTP_PROMISE _ => True
  | _ => False
  end.

(** What the pass keeps of the promises and the code: a promise of the
    pass that is resolved holds the number of an instruction there is or
    of the one to come; an operand that is a promise is a promise of the
    pass; every target is as [target_ok] says. *)
Record good (base : nat) (ctx : CodegenContext) : Prop := mkGood {
  good_base : (base <= plen ctx)%nat;
  good_cells : forall p v, (base <= p)%nat ->
    promises (alloc ctx) !! p = Some (Some v) -> 0 <= v <= Z.of_nat (clen ctx);
  good_operands : forall instr p,
    instr ∈ code (builder ctx) -> OPTP_PROMISE p ∈ operands instr -> valid base ctx p;
  good_targets : forall instr op,
    instr ∈ code (builder ctx) -> op ∈ targets instr -> target_ok ctx op;
}.

(** [ctx'] is [ctx] some steps later: the error channel and the owner
    of the allocator are the same, requests and promises have been made
    and instructions appended, none taken back. *)
Record extends (ctx ctx' : CodegenContext) : Prop := mkExtends {
  ext_error : error ctx' = error ctx;
  ext_own : own_alloc ctx' = own_alloc ctx;
  ext_serves : serves (alloc ctx') = serves (alloc ctx);
  ext_requests : (requests (alloc ctx) <= requests (alloc ctx'))%nat;
  ext_promises : (plen ctx <= plen ctx')%nat;
  ext_code : exists more, code (builder ctx') = code (builder ctx) ++ more;
}.

Definition reach (base : nat) (ctx0 ctx : CodegenContext) : Prop :=
  extends ctx0 ctx /\ (good base ctx0 -> good base ctx).

(** [m], run from [ctx], goes on with a value and a context that
    satisfy [Q], or takes the jump with an error on the channel. *)
Definition triple {A : Type} (ctx : CodegenContext) (m : Gen A)
    (Q : A -> CodegenContext -> Prop) : Prop :=
  match m ctx with
  | Ok a ctx' => Q a ctx'
  | Jumped ctx' => occurred (error ctx') = true
  | Malformed | Exhausted => True
  end.

(** A step that goes on from [ctx]: what it leaves is reached from
    [ctx0] and has the promises and the code of [ctx], or more. *)
Definition goes_on (base : nat) (ctx0 : CodegenContext) (m : Gen unit)
    (ctx : CodegenContext) : Prop :=
  forall Q : unit -> CodegenContext -> Prop,
    (forall ctx', reach base ctx0 ctx' -> (plen ctx <= plen ctx')%nat ->
       (clen ctx <= clen ctx')%nat -> Q tt ctx') ->
    triple ctx m Q.

(** The recursive call goes on from every context that was reached,
    given a [break_dest] that is a promise of the pass. *)
Definition emitter_ok (base : nat) (ctx0 : CodegenContext) (emitNode : emitter) : Prop :=
  forall node bd ctx,
    reach base ctx0 ctx ->
    (good base ctx0 -> forall d, bd = Some d -> valid base ctx d) ->
    goes_on base ctx0 (emitNode node bd) ctx.

(** [m] does not stop for want of fuel. *)
Definition ends {A : Type} (m : Gen A) : Prop := forall ctx, m ctx <> Exhausted.

(** *** Breaks and loops *)

(** Every [break] of the tree is inside a loop of its function.
    [in_loop] says whether the node itself is: the body of a loop is,
    the body of a function is not, whatever loop the definition is in,
    and every other child is where its parent is. *)
Fixpoint breaks_in_loops (in_loop : bool) (node : Node) : bool :=
  match node with
  | BreakNode _ _ => in_loop
  | OperExprNode _ _ _ head => forallb (breaks_in_loops in_loop) head
  | ListExprNode _ _ items _ => forallb (breaks_in_loops in_loop) items
  | MapExprNode _ _ keys items _ =>
    forallb (breaks_in_loops in_loop) keys && forallb (breaks_in_loops in_loop) items
  | CallExprNode _ _ func argv _ =>
    breaks_in_loops in_loop func && forallb (breaks_in_loops in_loop) argv
  | IndexSelectionExprNode _ _ set idx =>
    breaks_in_loops in_loop set && breaks_in_loops in_loop idx
  | IfElseNode _ _ condition true_branch false_branch =>
    breaks_in_loops in_loop condition && breaks_in_loops in_loop true_branch
    && match false_branch with Some node => breaks_in_loops in_loop node | None => true end
  | WhileNode _ _ condition body =>
    breaks_in_loops in_loop condition && breaks_in_loops true body
  | DoWhileNode _ _ body condition =>
    breaks_in_loops true body && breaks_in_loops in_loop condition
  | CompoundNode _ _ head => forallb (breaks_in_loops in_loop) head
  | ReturnNode _ _ val => breaks_in_loops in_loop val
  | FunctionNode _ _ _ _ _ body => breaks_in_loops false body
  | _ => true
  end.

(** There is a break destination. *)
Definition has_dest (break_dest : option Promise) : bool :=
  match break_dest with Some _ => true | None => false end.

(** [m] does not take the exit with the report of a break outside a
    loop. *)
Definition quiet {A : Type} (m : Gen A) : Prop :=
  forall ctx ctx', m ctx = Jumped ctx' -> message (error ctx') <> "Break not inside a loop".

End CodegenSpec.

(** ** Objects, heaps and programs for the examples *)

Module Sample.

Import Stdlib.Floats.SpecFloat.
Import Map.

(** Two object types.  Integers hash to their value, are compared by
    value and are copied as they are.  Floats are the objects of
    o_float.c: the table [t_float] has the entries [to_float], [print]
    and [op_eql] and no hash entry, so hashing one is reported as an
    error. *)
Inductive sample_object : Type :=
| IntObj (val : Z)
| FloatObj (val : spec_float).

Definition no_hash_text : string := "Object is not hashable".

Definition sample_hash (o : sample_object) (err : Error) : Z * Error :=
  match o with
  | IntObj val => (val, err)
  | FloatObj _ => (-1, Error_Report err false no_hash_text)
  end.

Definition sample_compare (a b : sample_object) (err : Error) : bool * Error :=
  match a, b with
  | IntObj x, IntObj y => (x =? y, err)
  | FloatObj x, FloatObj y => (SFeqb x y, err)
  | _, _ => (false, err)
  end.

#[export] Instance sample_objects : @ObjectOps bump_heap := {|
  Object := sample_object;
  Object_Hash := sample_hash;
  Object_Compare := sample_compare;
  Object_Copy := fun o heap err => (Some o, heap, err);
|}.

Definition sample_map : Type := @MapObject bump_heap sample_objects.

(** A heap with room for everything the examples allocate. *)
Definition roomy : Z := 65536.

(** The fuel given to every loop of the examples. *)
Definition plenty : nat := 64.

(** [Object_NewMap(num, heap, error)] on a roomy heap, the error channel
    clear. *)
Definition new_map (num : Z) : outcome (option sample_map * Z * Error) :=
  @Object_NewMap bump_heap sample_objects plenty num roomy Error_Init.

(** [insert(map, key, val, heap, error)] for an integer key and value. *)
Definition put (key val : Z) (st : sample_map * Z * Error)
  : outcome (bool * sample_map * Z * Error) :=
  let '(map, heap, err) := st in
  @insert bump_heap sample_objects plenty map (IntObj key) (IntObj val) heap err.

(** The inserts of [pairs], one after the other; [None] when one of
    them returns 0. *)
Fixpoint put_all (pairs : list (Z * Z)) (st : sample_map * Z * Error)
  : outcome (option (sample_map * Z * Error)) :=
  match pairs with
  | [] => Returns (Some st)
  | (key, val) :: pairs' =>
    '(ok, map, heap, err) ← put key val st;
    if ok : bool then put_all pairs' (map, heap, err) else Returns None
  end.

(** The state that [Object_NewMap(0, ...)] and the inserts of [pairs]
    leave; [None] when no map is returned or an insert returns 0. *)
Definition map_of (pairs : list (Z * Z)) : outcome (option (sample_map * Z * Error)) :=
  '(map, heap, err) ← new_map 0;
  match map with
  | Some map => put_all pairs (map, heap, err)
  | None => Returns None
  end.

(** [select(map, key, heap, error)] for an integer key. *)
Definition lookup (key : Z) (st : sample_map * Z * Error)
  : outcome (option sample_object * Error) :=
  let '(map, heap, err) := st in
  @select bump_heap sample_objects plenty map (IntObj key) heap err.

(** [grow(map, heap, error)] *)
Definition grown (st : sample_map * Z * Error) : outcome (bool * sample_map * Z * Error) :=
  let '(map, heap, err) := st in
  @grow bump_heap sample_objects plenty map heap err.

(** A map without arrays, which stands for the map of a run that did
    not return one. *)
Definition no_map : sample_map :=
  mkMap 0 0 (CArray.fresh 0) (CArray.fresh 0) (CArray.fresh 0).

Definition the_state (st : outcome (option (sample_map * Z * Error)))
  : sample_map * Z * Error :=
  match st with
  | Returns (Some st) => st
  | _ => (no_map, 0, Error_Init)
  end.

Definition the_map (st : outcome (option (sample_map * Z * Error))) : sample_map :=
  (the_state st).1.1.

(** The map [Object_NewMap(0, ...)] returns. *)
Definition empty_map : sample_map := the_map (map_of []).

(** One key, whose hash is negative and whose slot is 0. *)
Definition one_key : list (Z * Z) := [(-64, 1)].

(** Three keys: 0, then 2, then 1. *)
Definition three_keys : list (Z * Z) := [(0, 10); (2, 12); (1, 11)].

(** Five keys, which fill a map of 8 slots: 0, 1, 3, 2, 4. *)
Definition five_keys : list (Z * Z) := [(0, 10); (1, 11); (3, 13); (2, 12); (4, 14)].

Definition full_map : sample_map := the_map (map_of five_keys).

(** The full map after [grow]. *)
Definition grown_map : sample_map :=
  match grown (the_state (map_of five_keys)) with
  | Returns (_, map, _, _) => map
  | _ => no_map
  end.

(** *** Programs *)

Import Codegen.

(** A scratch allocator that serves every request; [used] requests
    have been made and [cells] are its promises. *)
Definition unbounded (used : nat) (cells : list (option Z)) : BPAlloc :=
  mkBPAlloc (fun _ => true) used cells.

(** An instruction without its span. *)
Definition bare (instr : Instruction) : Opcode * list Operand :=
  (opcode instr, operands instr).

(** The instructions of the executable [compile] returns, the spans
    left out; [None] when it returns none. *)
Definition listing (r : outcome (option Executable * Error))
  : option (list (Opcode * list Operand)) :=
  match r with
  | Returns (Some exe, _) => Some (map bare (body exe))
  | _ => None
  end.

(** The programs are given with the spans of their nodes left open:
    [span n] is the offset and the length of the node numbered [n]. *)
Section Programs.
Variable span : nat -> Z * Z.

Definition ident (n : nat) (name : string) : Node :=
  IdentExprNode (span n).1 (span n).2 name.

Definition int_lit (n : nat) (val : Z) : Node :=
  IntExprNode (span n).1 (span n).2 val.

Definition oper (n : nat) (kind : ExprKind) (operands : list Node) : Node :=
  OperExprNode kind (span n).1 (span n).2 operands.

Definition call (n : nat) (func : Node) (argv : list Node) : Node :=
  CallExprNode (span n).1 (span n).2 func argv (Z.of_nat (length argv)).

Definition block (n : nat) (stmts : list Node) : Node :=
  CompoundNode (span n).1 (span n).2 stmts.

Definition return_ (n : nat) (val : Node) : Node :=
  ReturnNode (span n).1 (span n).2 val.

Definition break_ (n : nat) : Node := BreakNode (span n).1 (span n).2.

Definition while_ (n : nat) (condition body : Node) : Node :=
  WhileNode (span n).1 (span n).2 condition body.

Definition true_ (n : nat) : Node := ExprNode EXPR_TRUE (span n).1 (span n).2.

(** The expression [a, b = f(x)] *)
Definition assign_ab_fx : Node :=
  oper 1 EXPR_ASS
    [oper 2 EXPR_PAIR [ident 3 "a"; ident 4 "b"];
     call 5 (ident 6 "f") [ident 7 "x"]].

(** Modelled from the spec: the tree of the program [a, b = f(x);]
    (the parser is not among the sources).  The root is the block of
    the top-level statements, as in the spec's scenario of a function
    definition followed by a call, and here it holds the one expression
    statement. *)
Definition program_ab_fx : Node := block 0 [assign_ab_fx].

(** [return 1;] *)
Definition program_return_1 : Node := block 0 [return_ 1 (int_lit 2 1)].

(** [if x < 0: return -x; return x;] *)
Definition program_abs : Node :=
  block 0
    [IfElseNode (span 1).1 (span 1).2
       (oper 2 EXPR_LSS [ident 3 "x"; int_lit 4 0])
       (return_ 5 (oper 6 EXPR_NEG [ident 7 "x"]))
       None;
     return_ 8 (ident 9 "x")].

(** [while n > 0: { n = n - 1; }] *)
Definition program_countdown : Node :=
  block 0
    [while_ 1 (oper 2 EXPR_GRT [ident 3 "n"; int_lit 4 0])
       (block 5
          [oper 6 EXPR_ASS
             [ident 7 "n"; oper 8 EXPR_SUB [ident 9 "n"; int_lit 10 1]]])].

(** [fun g(x) return x+1;] followed by [g(2);] *)
Definition program_fun_call : Node :=
  block 0
    [FunctionNode (span 1).1 (span 1).2 "g"
       [mkArgument (span 2).1 (span 2).2 "x"] 1
       (return_ 3 (oper 4 EXPR_ADD [ident 5 "x"; int_lit 6 1]));
     call 7 (ident 8 "g") [int_lit 9 2]].

(** The empty program *)
Definition program_empty : Node := block 0 [].

(** [break;] *)
Definition program_break : Node := block 0 [break_ 1].

(** [while true: break;] *)
Definition program_while_break : Node := block 0 [while_ 1 (true_ 2) (break_ 3)].

(** [while true: { fun g() { break; } }] *)
Definition program_fun_break : Node :=
  block 0
    [while_ 1 (true_ 2)
       (block 3
          [FunctionNode (span 4).1 (span 4).2 "g" [] 0 (block 5 [break_ 6])])].

End Programs.

(** Spans to run the programs with: node [n] is the byte [n]. *)
Definition one_byte_each (n : nat) : Z * Z := (Z.of_nat n, 1).

(** [compile(ast, alloc, error)] of a tree for a source of [size] bytes,
    with an allocator that never runs out and the error channel clear. *)
Definition compiled (fuel : nat) (root : Node) (size : Z)
  : outcome (option Executable * Error) :=
  compile None fuel (mkAST root (mkSource size)) (Some (unbounded 0 [])) Error_Init.

(** The listing the specification gives for [a, b = f(x);] *)
Definition listing_in_spec : list (Opcode * list Operand) :=
  [(OPCODE_PUSHVAR, [OPTP_STRING "x"]);
   (OPCODE_PUSHVAR, [OPTP_STRING "f"]);
   (OPCODE_CALL, [OPTP_INT 1; OPTP_INT 2]);
   (OPCODE_ASS, [OPTP_STRING "b"]);
   (OPCODE_POP, [OPTP_INT 1]);
   (OPCODE_ASS, [OPTP_STRING "a"]);
   (OPCODE_RETURN, [OPTP_INT 0])].

(** The same with the [POP 1] that ends an expression statement. *)
Definition listing_with_pop : list (Opcode * list Operand) :=
  [(OPCODE_PUSHVAR, [OPTP_STRING "x"]);
   (OPCODE_PUSHVAR, [OPTP_STRING "f"]);
   (OPCODE_CALL, [OPTP_INT 1; OPTP_INT 2]);
   (OPCODE_ASS, [OPTP_STRING "b"]);
   (OPCODE_POP, [OPTP_INT 1]);
   (OPCODE_ASS, [OPTP_STRING "a"]);
   (OPCODE_POP, [OPTP_INT 1]);
   (OPCODE_RETURN, [OPTP_INT 0])].

(** A context in the middle of a pass: two instructions appended, one
    promise allocated and not yet resolved. *)
Definition busy_context : CodegenContext :=
  mkContext Error_Init (unbounded 3 [None])
    (mkBuilder [mkInstr OPCODE_PUSHTRU [] 6 4;
                mkInstr OPCODE_JUMPIFNOTANDPOP [OPTP_PROMISE 0%nat] 6 4])
    true.

(** The map [Object_NewMap(num, ...)] returns. *)
Definition new_map_of (num : Z) : sample_map :=
  match new_map num with
  | Returns (Some map, _, _) => map
  | _ => no_map
  end.

(** The map and the heap a call of [insert] or of [grow] leaves. *)
Definition map_after (r : outcome (bool * sample_map * Z * Error)) : sample_map :=
  match r with
  | Returns (_, map, _, _) => map
  | _ => no_map
  end.

Definition heap_after (r : outcome (bool * sample_map * Z * Error)) : Z :=
  match r with
  | Returns (_, _, heap, _) => heap
  | _ => 0
  end.

(** The map after the [insert] of an integer key and value. *)
Definition after_put (key val : Z) (st : sample_map * Z * Error) : sample_map :=
  map_after (put key val st).

(** The full map after [grow], with the heap [grow] has left. *)
Definition grown_state : sample_map * Z * Error :=
  (grown_map, heap_after (grown (the_state (map_of five_keys))), Error_Init).

(** Five keys more, which fill the map of 16 slots. *)
Definition five_more : list (Z * Z) := [(5, 15); (6, 16); (7, 17); (8, 18); (9, 19)].

Definition full_16_state : sample_map * Z * Error := the_state (put_all five_more grown_state).

(** [insert] of a float, which has no hash. *)
Definition put_float (st : sample_map * Z * Error)
  : outcome (bool * sample_map * Z * Error) :=
  let '(map, heap, err) := st in
  @insert bump_heap sample_objects plenty map (FloatObj (S754_zero false)) (IntObj 1) heap err.

(** A context at the start of a pass whose allocator serves nothing. *)
Definition starved_context : CodegenContext :=
  mkContext Error_Init (mkBPAlloc (fun _ => false) 0 []) (mkBuilder []) false.

(** The context a piece of the generator leaves. *)
Definition context_of {A : Type} (r : result A) : CodegenContext :=
  match r with
  | Ok _ ctx | Jumped ctx => ctx
  | _ => busy_context
  end.

(** The executable [compile] returns. *)
Definition the_executable (r : outcome (option Executable * Error)) : Executable :=
  match r with
  | Returns (Some exe, _) => exe
  | _ => mkExecutable [] None
  end.

End Sample.

(** * Properties *)

(** ** C integers and arrays *)

Module CFacts.

Import CInt CArray.

Lemma wrap_in_range z : in_range (wrap z).
Proof.
  unfold wrap, in_range.
  pose proof (Z.mod_pos_bound (z + 2 ^ 31) (2 ^ 32)). lia.
Qed.

Lemma wrap_id z : in_range z -> wrap z = z.
Proof. unfold wrap, in_range. intros Hz. rewrite Z.mod_small; lia. Qed.

Lemma shiftl_1 z : Z.shiftl z 1 = 2 * z.
Proof. rewrite Z.shiftl_mul_pow2 by lia. lia. Qed.

Lemma requested_set {A : Type} (a : array A) i v : requested (set a i v) = requested a.
Proof. unfold set. by destruct (inside a i). Qed.

Lemma inside_set {A : Type} (a : array A) i j v : inside (set a i v) j = inside a j.
Proof. unfold inside. by rewrite requested_set. Qed.

Lemma inside_range {A : Type} (a : array A) i : inside a i = true <-> 0 <= i < requested a.
Proof. unfold inside. rewrite andb_true_iff, Z.leb_le, Z.ltb_lt. done. Qed.

Lemma get_set_eq {A : Type} (a : array A) i v : get (set a i v) i = Returns v.
Proof.
  unfold get. rewrite inside_set. unfold set.
  destruct (inside a i); simpl; by rewrite lookup_insert_eq.
Qed.

Lemma get_set_ne {A : Type} (a : array A) i j v : i <> j -> get (set a i v) j = get a j.
Proof.
  intros. unfold get. rewrite inside_set. unfold set.
  destruct (inside a i), (inside a j); simpl; by rewrite ?lookup_insert_ne.
Qed.

Lemma get_fresh {A : Type} n i : get (fresh n : array A) i = Undefined.
Proof. unfold get, fresh; simpl. destruct (inside _ _); by rewrite lookup_empty. Qed.

(** A write inside the block leaves no stray cell. *)
Lemma exact_set {A : Type} (a : array A) n i v :
  exact a n -> 0 <= i < n -> exact (set a i v) n.
Proof.
  intros [Hreq Hstray] Hi. unfold exact, set.
  assert (Hin : inside a i = true) by (apply inside_range; lia).
  by rewrite Hin.
Qed.

Lemma exact_fresh {A : Type} n : exact (fresh n : array A) n.
Proof. done. Qed.

(** In a block without stray cells, a cell that is read is one of the
    block. *)
Lemma exact_get {A : Type} (a : array A) n i v :
  exact a n -> get a i = Returns v -> 0 <= i < n.
Proof.
  intros [Hreq Hstray]. unfold get.
  destruct (inside a i) eqn:Hin.
  - intros _. apply inside_range in Hin. lia.
  - by rewrite Hstray, lookup_empty.
Qed.

End CFacts.

(** ** The heap *)

Module HeapFacts.

Section Facts.
Context `{HeapOps}.

Lemma Heap_RawMalloc_fails heap size err ok heap' err' :
  Heap_RawMalloc heap size err = (ok, heap', err') ->
  ok = false -> is_OOM err'.
Proof.
  unfold Heap_RawMalloc. destruct (alloc_raw heap size); intros [= <- <- <-] ?.
  - discriminate.
  - repeat split.
Qed.

Lemma Heap_RawMalloc_keeps_OOM heap size err ok heap' err' :
  Heap_RawMalloc heap size err = (ok, heap', err') ->
  is_OOM err -> is_OOM err'.
Proof.
  unfold Heap_RawMalloc. destruct (alloc_raw heap size); intros [= <- <- <-] ?.
  - assumption.
  - repeat split.
Qed.

End Facts.

End HeapFacts.

(** ** The map *)

Module MapFacts.

Import CInt CArray Map CFacts HeapFacts.

(** *** Sizes *)

Lemma pow2_bounds k : 3 <= k <= 30 -> 8 <= 2 ^ k <= 2 ^ 30.
Proof.
  intros Hk. split.
  - change 8 with (2 ^ 3). apply Z.pow_le_mono_r; lia.
  - apply Z.pow_le_mono_r; lia.
Qed.

Lemma mapper_size_ok_range size : mapper_size_ok size -> 8 <= size <= 2 ^ 30.
Proof. intros (k & Hk & ->). by apply pow2_bounds. Qed.

Lemma calc_capacity_div size : 0 <= size -> calc_capacity size = size * 2 / 3.
Proof. intros. unfold calc_capacity. apply Z.quot_div_nonneg; lia. Qed.

Lemma calc_capacity_bounds size : 8 <= size -> 5 <= calc_capacity size < size.
Proof.
  intros. rewrite calc_capacity_div by lia. split.
  - apply Z.div_le_lower_bound; lia.
  - apply Z.div_lt_upper_bound; lia.
Qed.

Lemma mask_of_mapper_size size :
  mapper_size_ok size ->
  exists k, 3 <= k <= 30 /\ size = 2 ^ k /\ wrap (size - 1) = Z.ones k.
Proof.
  intros (k & Hk & ->). exists k. split; [done|]. split; [done|].
  pose proof (pow2_bounds k Hk).
  rewrite wrap_id by (unfold in_range; lia).
  rewrite Z.ones_equiv. lia.
Qed.

(** The slot a hash or a probe step is masked to lies in the table. *)
Lemma slot_in_table size z :
  mapper_size_ok size -> 0 <= Z.land z (wrap (size - 1)) < size.
Proof.
  intros Hsize. destruct (mask_of_mapper_size size Hsize) as (k & Hk & -> & ->).
  rewrite Z.land_ones by lia. apply Z.mod_pos_bound. lia.
Qed.

(** Once the size has wrapped around to 0 the loop that looks for the
    initial size goes on for ever. *)
Lemma initial_mapper_size_spins fuel num :
  0 < num -> initial_mapper_size fuel 0 num = OutOfFuel.
Proof.
  intros Hnum. induction fuel as [|fuel IH]; [done|].
  simpl. change (calc_capacity 0) with 0.
  destruct (Z.ltb_spec 0 num); [|lia]. exact IH.
Qed.

Lemma initial_mapper_size_pow2 fuel : forall k num r,
  3 <= k <= 30 ->
  initial_mapper_size fuel (2 ^ k) num = Returns r ->
  (exists k', k <= k' <= 30 /\ r = 2 ^ k') /\ num <= calc_capacity r.
Proof.
  induction fuel as [|fuel IH]; intros k num r Hk; [done|].
  simpl. destruct (Z.ltb_spec (calc_capacity (2 ^ k)) num) as [Hlt|Hge].
  - pose proof (pow2_bounds k Hk) as Hb.
    pose proof (calc_capacity_bounds (2 ^ k) ltac:(lia)) as Hc.
    rewrite shiftl_1.
    destruct (decide (k = 30)) as [->|Hne].
    + change (wrap (2 * 2 ^ 30)) with (- 2 ^ 31).
      destruct fuel as [|fuel]; [done|]. simpl.
      change (calc_capacity (- 2 ^ 31)) with (-1431655765).
      destruct (Z.ltb_spec (-1431655765) num); [|lia].
      change (wrap (Z.shiftl (- 2 ^ 31) 1)) with 0.
      rewrite initial_mapper_size_spins by lia. done.
    + replace (2 * 2 ^ k) with (2 ^ (k + 1)) by (rewrite Z.pow_add_r by lia; lia).
      pose proof (pow2_bounds (k + 1) ltac:(lia)) as Hb'.
      rewrite wrap_id by (unfold in_range; lia).
      intros Hr. apply IH in Hr; [|lia].
      destruct Hr as [(k' & Hk' & ->) Hn]. split; [|done].
      exists k'. split; [lia|done].
  - intros [= <-]. split; [|lia]. exists k. split; [lia|done].
Qed.

(** The size the loop settles on is the first that has room. *)
Lemma initial_mapper_size_least fuel : forall k num r,
  3 <= k <= 30 ->
  initial_mapper_size fuel (2 ^ k) num = Returns r ->
  r = 2 ^ k \/ calc_capacity (r / 2) < num.
Proof.
  induction fuel as [|fuel IH]; intros k num r Hk; [done|].
  simpl. destruct (Z.ltb_spec (calc_capacity (2 ^ k)) num) as [Hlt|Hge].
  - pose proof (pow2_bounds k Hk) as Hb.
    pose proof (calc_capacity_bounds (2 ^ k) ltac:(lia)) as Hc.
    rewrite shiftl_1.
    destruct (decide (k = 30)) as [->|Hne].
    + change (wrap (2 * 2 ^ 30)) with (- 2 ^ 31).
      destruct fuel as [|fuel]; [done|]. simpl.
      change (calc_capacity (- 2 ^ 31)) with (-1431655765).
      destruct (Z.ltb_spec (-1431655765) num); [|lia].
      change (wrap (Z.shiftl (- 2 ^ 31) 1)) with 0.
      rewrite initial_mapper_size_spins by lia. done.
    + assert (Hpow : 2 * 2 ^ k = 2 ^ (k + 1)) by (rewrite Z.pow_add_r by lia; lia).
      rewrite Hpow.
      pose proof (pow2_bounds (k + 1) ltac:(lia)) as Hb'.
      rewrite wrap_id by (unfold in_range; lia).
      intros Hr. apply IH in Hr; [|lia]. right.
      destruct Hr as [->|Hr]; [|done].
      rewrite <- Hpow. replace (2 * 2 ^ k / 2) with (2 ^ k); [done|].
      symmetry. rewrite Z.mul_comm. apply Z.div_mul. lia.
  - intros [= <-]. by left.
Qed.

(** No size has room for more than 715827882 entries. *)
Lemma calc_capacity_max k : 3 <= k <= 30 -> calc_capacity (2 ^ k) <= 715827882.
Proof.
  intros Hk. change 715827882 with (calc_capacity (2 ^ 30)).
  pose proof (pow2_bounds k Hk). rewrite !calc_capacity_div by lia.
  apply Z.div_le_mono; lia.
Qed.

(** *** Loops *)

(** What every turn keeps, the loop keeps. *)
Lemma for_loop_inv {S : Type} (P : S -> Prop) (body : Z -> S -> outcome S) steps :
  forall i s s',
  (forall j t t', i <= j < i + Z.of_nat steps -> P t -> body j t = Returns t' -> P t') ->
  P s -> for_loop steps i body s = Returns s' -> P s'.
Proof.
  induction steps as [|steps IH]; intros i s s' Hbody Hs; simpl.
  - by intros [= <-].
  - destruct (body i s) as [t| |] eqn:Hstep; simpl; [|done..].
    apply IH.
    + intros j u u' Hj. apply Hbody. lia.
    + eapply Hbody; [|exact Hs|exact Hstep]. lia.
Qed.

(** *** The loop that clears the mapper *)

Lemma clear_loop steps : forall i (a : array Z),
  exists a',
    for_loop steps i (fun i m => Returns (set m i (-1))) a = Returns a' /\
    requested a' = requested a /\
    (forall j, i <= j < i + Z.of_nat steps -> get a' j = Returns (-1)) /\
    (forall j, j < i \/ i + Z.of_nat steps <= j -> get a' j = get a j).
Proof.
  induction steps as [|steps IH]; intros i a.
  - exists a. split; [done|]. split; [done|]. split; [intros j Hj; lia|done].
  - simpl for_loop.
    destruct (IH (i + 1) (set a i (-1))) as (a' & Hrun & Hreq & Hin & Hout).
    exists a'. split; [exact Hrun|]. split; [by rewrite Hreq, requested_set|]. split.
    + intros j Hj. destruct (decide (j = i)) as [->|Hne].
      * rewrite Hout by lia. apply get_set_eq.
      * apply Hin. lia.
    + intros j Hj. rewrite Hout by lia. apply get_set_ne. lia.
Qed.

Lemma clear_mapper_spec size (a : array Z) :
  0 <= size ->
  exists a',
    clear_mapper size a = Returns a' /\
    requested a' = requested a /\
    (forall j, 0 <= j < size -> get a' j = Returns (-1)) /\
    (forall j, j < 0 \/ size <= j -> get a' j = get a j).
Proof.
  intros Hsize. unfold clear_mapper, for_upto.
  destruct (clear_loop (Z.to_nat size) 0 a) as (a' & Hrun & Hreq & Hin & Hout).
  exists a'. split; [exact Hrun|]. split; [done|].
  split; intros j Hj; [apply Hin|apply Hout]; lia.
Qed.

Section WithObjects.
Context `{ObjectOps}.

(** *** A new map *)

(** What [Object_NewMap] returns when it returns a map: no entry, a
    power of two of slots that are all empty, room for [num] entries and
    for five at least; and the request for the mapper was sized for
    [capacity] elements, fewer than the slots. *)
Lemma Object_NewMap_spec fuel num heap err m heap' err' :
  Object_NewMap fuel num heap err = Returns (Some m, heap', err') ->
  mapper_size_ok (mapper_size m) /\
  Z.max 0 num <= calc_capacity (mapper_size m) /\
  count m = 0 /\
  requested (mapper m) = calc_capacity (mapper_size m) /\
  keys m = fresh (calc_capacity (mapper_size m)) /\
  vals m = fresh (calc_capacity (mapper_size m)) /\
  (forall j, 0 <= j < mapper_size m -> get (mapper m) j = Returns (-1)) /\
  err' = err.
Proof.
  unfold Object_NewMap.
  destruct (initial_mapper_size fuel 8 _) as [size| |] eqn:Hsize; simpl; [|done..].
  apply (initial_mapper_size_pow2 fuel 3) in Hsize; [|lia].
  destruct Hsize as [(k & Hk & ->) Hnum].
  unfold Heap_Malloc, Heap_RawMalloc.
  destruct (alloc_typed heap "map") as [h0|]; simpl; [|done].
  destruct (alloc_raw h0 _) as [h1|]; simpl.
  2: { repeat (destruct (alloc_raw _ _); simpl); done. }
  destruct (alloc_raw h1 _) as [h2|]; simpl.
  2: { repeat (destruct (alloc_raw _ _); simpl); done. }
  destruct (alloc_raw h2 _) as [h3|]; simpl; [|done].
  pose proof (pow2_bounds k ltac:(lia)) as Hb.
  destruct (clear_mapper_spec (2 ^ k) (fresh (calc_capacity (2 ^ k))) ltac:(lia))
    as (a' & -> & Hreq & Hin & _).
  simpl. intros [= <- <- <-]; simpl.
  split; [exists k; split; [lia|done]|].
  split; [destruct (Z.ltb_spec num 0); lia|].
  repeat split; try done.
Qed.

(** C6, as amended: the smallest map has 8 slots and room for 5
    entries, there is none of capacity 0; and [select] on a map that
    [Object_NewMap] has just returned (no entry yet) hashes the key
    before it looks at any slot.  It returns [NULL] with the error
    channel as [Object_Hash] left it: clear for a key that has a hash,
    and holding the report for a key that has none. *)
Theorem select_on_new_map fuel fuel' num heap err m heap' err' key h e :
  Object_NewMap fuel num heap err = Returns (Some m, heap', err') ->
  count m = 0 /\
  5 <= calc_capacity (mapper_size m) /\
  select (S fuel') m key h e = Returns (None, (Object_Hash key e).2).
Proof.
  intros Hnew. apply Object_NewMap_spec in Hnew.
  destruct Hnew as (Hsize & _ & Hcount & _ & _ & _ & Hclear & _).
  split; [done|]. split.
  { apply calc_capacity_bounds. apply mapper_size_ok_range in Hsize. lia. }
  unfold select. destruct (Object_Hash key e) as [hash e1]; simpl.
  destruct (occurred e1); [done|].
  rewrite Hclear by (by apply slot_in_table). done.
Qed.

(** *** Growth that fails *)



(** *** What inserts keep *)

Lemma slots_ok_set size entries mapper j k :
  slots_ok size entries mapper -> 0 <= k < entries ->
  slots_ok size entries (set mapper j k).
Proof.
  intros Hok Hk i Hi. destruct (decide (i = j)) as [->|Hne].
  - exists k. rewrite get_set_eq. split; [done|]. by right.
  - rewrite get_set_ne by done. by apply Hok.
Qed.

Lemma slots_ok_mono size entries entries' mapper :
  slots_ok size entries mapper -> entries <= entries' -> slots_ok size entries' mapper.
Proof.
  intros Hok Hle j Hj. destruct (Hok j Hj) as (k & Hget & Hk).
  exists k. split; [done|]. lia.
Qed.

Lemma rehash_slots_ok fuel entries size keys' mapper' err mapper'' err' :
  slots_ok size entries mapper' ->
  rehash fuel entries size keys' mapper' err = Returns (mapper'', err') ->
  slots_ok size entries mapper''.
Proof.
  intros Hok. unfold rehash, for_upto.
  destruct (decide (0 <= entries)) as [Hpos|Hneg].
  2: { replace (Z.to_nat entries) with 0%nat by lia. simpl. by intros [= <- <-]. }
  intros Hrun.
  apply (for_loop_inv (fun '(m, _) => slots_ok size entries m) _ _ _ _ _ ) in Hrun; [done| |done].
  intros j [m e] [m2 e2] Hj Hm. simpl.
  destruct (get keys' j) as [k| |]; simpl; [|done..].
  destruct (Object_Hash k e) as [hash e1].
  destruct (free_slot _ _ _ _ _) as [slot| |]; simpl; [|done..].
  intros [= <- <-]. apply slots_ok_set; [done|lia].
Qed.

Lemma copy_entries_spec map ks vs ks' vs' :
  copy_entries map ks vs = Returns (ks', vs') ->
  requested ks' = requested ks /\ requested vs' = requested vs /\
  (forall k, 0 <= k < count map ->
     get ks' k = get (keys map) k /\ get vs' k = get (vals map) k) /\
  (forall k, k < 0 \/ count map <= k -> get ks' k = get ks k /\ get vs' k = get vs k).
Proof.
  unfold copy_entries, for_upto.
  set (body := fun (i : Z) '(ks, vs) => _).
  assert (Hgen : forall steps i ks vs ks' vs',
    for_loop steps i body (ks, vs) = Returns (ks', vs') ->
    requested ks' = requested ks /\ requested vs' = requested vs /\
    (forall k, i <= k < i + Z.of_nat steps ->
       get ks' k = get (keys map) k /\ get vs' k = get (vals map) k) /\
    (forall k, k < i \/ i + Z.of_nat steps <= k -> get ks' k = get ks k /\ get vs' k = get vs k)).
  { clear. induction steps as [|steps IH]; intros i ks vs ks' vs'; simpl.
    - intros [= <- <-]. repeat split; try done. intros; lia. intros; lia.
    - destruct (get (keys map) i) as [k| |] eqn:Hk; simpl; [|done..].
      destruct (get (vals map) i) as [v| |] eqn:Hv; simpl; [|done..].
      intros Hrun. apply IH in Hrun. destruct Hrun as (Hr1 & Hr2 & Hin & Hout).
      rewrite requested_set in Hr1, Hr2.
      split; [done|]. split; [done|]. split.
      + intros j Hj. destruct (decide (j = i)) as [->|Hne].
        * destruct (Hout i ltac:(lia)) as [-> ->].
          rewrite !get_set_eq. done.
        * apply Hin. lia.
      + intros j Hj. destruct (Hout j ltac:(lia)) as [-> ->].
        rewrite !get_set_ne by lia. done. }
  intros Hrun. apply Hgen in Hrun. destruct Hrun as (Hr1 & Hr2 & Hin & Hout).
  split; [done|]. split; [done|].
  destruct (decide (0 <= count map)).
  - split; intros k Hk; [apply Hin|apply Hout]; lia.
  - split; intros k Hk; [lia|apply Hout; lia].
Qed.

Lemma rehash_fails_on_unwritten fuel entries size keys' n err :
  0 < entries ->
  forall r, rehash fuel entries size keys' (fresh n) err <> Returns r.
Proof.
  intros Hpos r. unfold rehash, for_upto.
  destruct (Z.to_nat entries) as [|steps] eqn:Hsteps; [lia|]. simpl.
  destruct (get keys' 0) as [k| |]; simpl; [|done..].
  destruct (Object_Hash k err) as [hash e1].
  destruct fuel as [|fuel]; simpl; [done|].
  rewrite get_fresh. done.
Qed.

(** What a growth that succeeds leaves. *)
Lemma grow_spec fuel map heap err map' heap' err' :
  mapper_size_ok (mapper_size map) ->
  0 < count map ->
  grow fuel map heap err = Returns (true, map', heap', err') ->
  mapper_size map' = 2 * mapper_size map /\
  mapper_size_ok (mapper_size map') /\
  count map' = count map /\
  requested (mapper map') = mapper_size map' /\
  requested (keys map') = calc_capacity (mapper_size map') /\
  requested (vals map') = calc_capacity (mapper_size map') /\
  (forall k, 0 <= k < count map ->
     get (keys map') k = get (keys map) k /\ get (vals map') k = get (vals map) k) /\
  slots_ok (mapper_size map') (count map) (mapper map').
Proof.
  intros (k & Hk & Hsize) Hcount. unfold grow.
  destruct (grow_requests map heap err) as [[[[mapper_ok keys_ok] vals_ok] h1] e1].
  destruct (negb mapper_ok || negb keys_ok || negb vals_ok); [done|].
  rewrite Hsize, shiftl_1.
  destruct (decide (k = 30)) as [->|Hne].
  - change (wrap (2 * 2 ^ 30)) with (- 2 ^ 31).
    destruct (copy_entries map _ _) as [[keys' vals']| |]; simpl; [|done..].
    change (clear_mapper (- 2 ^ 31) (fresh (- 2 ^ 31)))
      with (Returns (fresh (- 2 ^ 31) : array Z)).
    simpl. intros Hrun. exfalso.
    destruct (rehash _ _ _ _ _ _) as [[m2 e2]| |] eqn:Hre; simpl in Hrun; [|done..].
    by eapply rehash_fails_on_unwritten in Hre.
  - pose proof (pow2_bounds (k + 1) ltac:(lia)) as Hb.
    replace (2 * 2 ^ k) with (2 ^ (k + 1)) by (rewrite Z.pow_add_r by lia; lia).
    rewrite wrap_id by (unfold in_range; lia).
    destruct (copy_entries map _ _) as [[keys' vals']| |] eqn:Hcopy; simpl; [|done..].
    apply copy_entries_spec in Hcopy. destruct Hcopy as (Hrk & Hrv & Hin & _).
    destruct (clear_mapper_spec (2 ^ (k + 1)) (fresh (2 ^ (k + 1))) ltac:(lia))
      as (m1 & -> & Hreq & Hclear & _).
    simpl.
    destruct (rehash _ _ _ _ _ _) as [[m2 e2]| |] eqn:Hre; simpl; [|done..].
    intros [= <- <- <-]. simpl.
    assert (Hreq2 : requested m2 = requested m1).
    { revert Hre. unfold rehash, for_upto. intros Hre.
      apply (for_loop_inv (fun '(m, _) => requested m = requested m1)) in Hre; [done| |done].
      intros j [m e] [m' e'] _ Hm. simpl.
      destruct (get keys' j); simpl; [|done..].
      destruct (Object_Hash _ _). destruct (free_slot _ _ _ _ _); simpl; [|done..].
      intros [= <- <-]. by rewrite requested_set. }
    split; [done|]. split; [exists (k + 1); split; [lia|done]|].
    split; [done|]. split; [by rewrite Hreq2, Hreq|].
    split; [done|]. split; [done|]. split; [done|].
    eapply rehash_slots_ok; [|exact Hre].
    intros j Hj. exists (-1). split; [by apply Hclear|by left].
Qed.

Lemma calc_capacity_grows size : 8 <= size -> calc_capacity size < calc_capacity (2 * size).
Proof.
  intros. rewrite !calc_capacity_div by lia.
  assert (size * 2 / 3 < size) by (apply Z.div_lt_upper_bound; lia).
  assert (size <= 2 * size * 2 / 3) by (apply Z.div_le_lower_bound; lia).
  lia.
Qed.

Lemma insert_probe_inv fuel : forall map key val mask pert i heap err map' heap' err',
  map_inv map -> count map < calc_capacity (mapper_size map) ->
  insert_probe fuel map key val mask pert i heap err = Returns (true, map', heap', err') ->
  map_inv map'.
Proof.
  induction fuel as [|fuel IH]; intros map key val mask pert i heap err map' heap' err'
    Hinv Hroom; simpl; [done|].
  destruct (get (mapper map) i) as [k| |]; simpl; [|done..].
  destruct (k =? -1).
  - destruct (Object_Copy key heap err) as [[[copy|] h1] e1]; [|done].
    intros [= <- <- <-]. destruct Hinv as (Hsize & Hcount & Hslots).
    pose proof (mapper_size_ok_range _ Hsize).
    pose proof (calc_capacity_bounds (mapper_size map) ltac:(lia)).
    assert (Hw : wrap (count map + 1) = count map + 1)
      by (apply wrap_id; unfold in_range; lia).
    split; [done|]. simpl. rewrite Hw. split; [lia|].
    apply slots_ok_set; [|lia]. eapply slots_ok_mono; [done|lia].
  - destruct (get (keys map) i) as [slot_key| |]; simpl; [|done..].
    destruct (Object_Compare key slot_key err) as [[] e1].
    + intros [= <- <- <-]. exact Hinv.
    + destruct (occurred e1); [done|]. by apply IH.
Qed.

Lemma insert_inv fuel map key val heap err map' heap' err' :
  map_inv map ->
  insert fuel map key val heap err = Returns (true, map', heap', err') ->
  map_inv map'.
Proof.
  intros Hinv. unfold insert.
  destruct (count map =? calc_capacity (mapper_size map)) eqn:Hfull.
  - apply Z.eqb_eq in Hfull. destruct Hinv as (Hsize & Hcount & Hslots).
    pose proof (mapper_size_ok_range _ Hsize) as Hr.
    pose proof (calc_capacity_bounds (mapper_size map) ltac:(lia)) as Hc.
    destruct (grow fuel map heap err) as [[[[grown m1] h1] e1]| |] eqn:Hgrow; simpl; [|done..].
    destruct grown; simpl; [|done].
    apply grow_spec in Hgrow; [|done|lia].
    destruct Hgrow as (Hdouble & Hsize1 & Hcount1 & _ & _ & _ & _ & Hslots1).
    destruct (Object_Hash key e1) as [hash e2]. destruct (occurred e2); [done|].
    pose proof (calc_capacity_grows (mapper_size map) ltac:(lia)).
    apply insert_probe_inv.
    + split; [done|]. rewrite Hcount1. split; [rewrite Hdouble; lia|done].
    + rewrite Hcount1, Hdouble. lia.
  - apply Z.eqb_neq in Hfull. simpl.
    destruct (Object_Hash key err) as [hash e2]. destruct (occurred e2); [done|].
    apply insert_probe_inv; [done|]. destruct Hinv as (_ & Hcount & _). lia.
Qed.

(** X2: a growth that succeeds doubles [mapper_size], requests the
    new mapper with [mapper_size] slots and the new entries with the new
    capacity, and moves the entries over in their order: [keys'[k]] is
    [keys[k]] and [vals'[k]] is [vals[k]] for [0 <= k < count]. *)
Theorem grow_keeps_entries fuel map heap err map' heap' err' :
  mapper_size_ok (mapper_size map) ->
  0 < count map ->
  grow fuel map heap err = Returns (true, map', heap', err') ->
  mapper_size map' = 2 * mapper_size map /\
  count map' = count map /\
  requested (mapper map') = mapper_size map' /\
  requested (keys map') = calc_capacity (mapper_size map') /\
  (forall k, 0 <= k < count map ->
     get (keys map') k = get (keys map) k /\ get (vals map') k = get (vals map) k).
Proof.
  intros Hsize Hcount Hgrow. apply grow_spec in Hgrow; [|done..].
  destruct Hgrow as (? & _ & ? & ? & ? & _ & ? & _). done.
Qed.

(** X3: every map [Object_NewMap] returns has its mapper requested
    with [capacity] elements, fewer than its [mapper_size] slots, the
    last of which the clearing loop has written. *)
Theorem Object_NewMap_mapper_request fuel num heap err m heap' err' :
  Object_NewMap fuel num heap err = Returns (Some m, heap', err') ->
  requested (mapper m) = calc_capacity (mapper_size m) /\
  requested (mapper m) < mapper_size m /\
  get (mapper m) (mapper_size m - 1) = Returns (-1).
Proof.
  intros Hnew. apply Object_NewMap_spec in Hnew.
  destruct Hnew as (Hsize & _ & _ & Hreq & _ & _ & Hclear & _).
  pose proof (mapper_size_ok_range _ Hsize).
  pose proof (calc_capacity_bounds (mapper_size m) ltac:(lia)).
  split; [done|]. split; [lia|]. apply Hclear. lia.
Qed.

(** X11: a probe can go on for ever.  [pert] is a signed [int], and
    for a negative hash [pert >>= 5] (an arithmetic shift) ends at -1
    and not at 0, after which the step is [i = (i * 5) & mask], which
    keeps slot 0 at slot 0.  In a map of 8 slots, [select] of a key
    whose hash is -32, while slot 0 holds a key that does not compare
    equal, is still probing slot 0 whatever fuel it is given. *)
Theorem select_never_returns fuel map key heap err e1 k slot_key :
  mapper_size map = 8 ->
  Object_Hash key err = (-32, e1) ->
  occurred e1 = false ->
  get (mapper map) 0 = Returns k ->
  k <> -1 ->
  get (keys map) 0 = Returns slot_key ->
  Object_Compare key slot_key e1 = (false, e1) ->
  select fuel map key heap err = OutOfFuel.
Proof.
  intros Hsize Hhash Hclear Hslot Hk Hkey Hcmp.
  unfold select. rewrite Hhash, Hclear, Hsize.
  change (Z.land (-32) (wrap (8 - 1))) with 0. change (wrap (8 - 1)) with 7.
  assert (Hspin : forall pert, pert = -32 \/ pert = -1 ->
            select_probe fuel map key 7 pert 0 e1 = OutOfFuel).
  { induction fuel as [|fuel IH]; intros pert Hpert; [done|].
    cbn [select_probe]. rewrite Hslot. simpl.
    destruct (Z.eqb_spec k (-1)) as [|_]; [done|].
    rewrite Hkey. simpl. rewrite Hcmp, Hclear.
    assert (Hnext : Z.shiftr pert 5 = -1) by (destruct Hpert as [->| ->]; reflexivity).
    rewrite Hnext. change (Z.land (wrap (0 * 5 + -1 + 1)) 7) with 0.
    apply IH. by right. }
  apply Hspin. by left.
Qed.

(** *** Blocks that fit *)

Lemma clear_mapper_exact size (a a' : array Z) :
  exact a size -> clear_mapper size a = Returns a' -> exact a' size.
Proof.
  intros Ha. unfold clear_mapper, for_upto.
  apply (for_loop_inv (fun m => exact m size)); [|done].
  intros j m m' Hj Hm [= <-]. apply exact_set; [done|lia].
Qed.

Lemma copy_entries_exact map n ks vs ks' vs' :
  exact ks n -> exact vs n -> count map <= n ->
  copy_entries map ks vs = Returns (ks', vs') ->
  exact ks' n /\ exact vs' n.
Proof.
  intros Hks Hvs Hcount. unfold copy_entries, for_upto. intros Hrun.
  apply (for_loop_inv (fun '(ks, vs) => exact ks n /\ exact vs n)) in Hrun; [done| |done].
  intros j [ks1 vs1] [ks2 vs2] Hj [Hk Hv]. simpl.
  destruct (get (keys map) j); simpl; [|done..].
  destruct (get (vals map) j); simpl; [|done..].
  intros [= <- <-]. split; apply exact_set; (done || lia).
Qed.

(** The slot the rehash settles on is one it has read. *)
Lemma free_slot_reads fuel : forall (mapper : array Z) mask pert j r,
  free_slot fuel mapper mask pert j = Returns r -> get mapper r = Returns (-1).
Proof.
  induction fuel as [|fuel IH]; intros mapper mask pert j r; simpl; [done|].
  destruct (get mapper j) as [k| |] eqn:Hslot; simpl; [|done..].
  destruct (Z.eqb_spec k (-1)) as [->|Hk].
  - by intros [= <-].
  - apply IH.
Qed.

Lemma rehash_exact fuel entries size keys' mapper' err mapper'' err' :
  exact mapper' size ->
  rehash fuel entries size keys' mapper' err = Returns (mapper'', err') ->
  exact mapper'' size.
Proof.
  intros Hm. unfold rehash, for_upto. intros Hrun.
  apply (for_loop_inv (fun '(m, _) => exact m size)) in Hrun; [done| |done].
  intros j [m e] [m2 e2] Hj Hexact. simpl.
  destruct (get keys' j) as [k| |]; simpl; [|done..].
  destruct (Object_Hash k e) as [hash e1].
  destruct (free_slot _ _ _ _ _) as [slot| |] eqn:Hslot; simpl; [|done..].
  intros [= <- <-]. apply exact_set; [done|].
  apply free_slot_reads in Hslot. by eapply exact_get.
Qed.

(** The three loops of a growth that succeeds. *)
Lemma grow_parts fuel map heap err map' heap' err' :
  grow fuel map heap err = Returns (true, map', heap', err') ->
  let n := wrap (Z.shiftl (mapper_size map) 1) in
  mapper_size map' = n /\
  copy_entries map (fresh (calc_capacity n)) (fresh (calc_capacity n))
  = Returns (keys map', vals map') /\
  exists cleared e,
    clear_mapper n (fresh n) = Returns cleared /\
    rehash fuel (count map) n (keys map') cleared e = Returns (mapper map', err').
Proof.
  unfold grow.
  destruct (grow_requests map heap err) as [[[[mapper_ok keys_ok] vals_ok] h1] e1].
  destruct (negb mapper_ok || negb keys_ok || negb vals_ok); [done|].
  destruct (copy_entries map _ _) as [[keys' vals']| |]; simpl; [|done..].
  destruct (clear_mapper _ _) as [cleared| |]; simpl; [|done..].
  destruct (rehash _ _ _ _ _ _) as [[m2 e2]| |] eqn:Hre; simpl; [|done..].
  intros [= <- <- <-]. simpl. split; [done|]. split; [done|]. by exists cleared, e1.
Qed.

Lemma grow_fit fuel map heap err map' heap' err' :
  mapper_size_ok (mapper_size map) ->
  0 < count map <= calc_capacity (mapper_size map) ->
  grow fuel map heap err = Returns (true, map', heap', err') ->
  map_inv map' /\ blocks_fit map'.
Proof.
  intros Hsize Hcount Hgrow.
  pose proof (grow_parts _ _ _ _ _ _ _ Hgrow) as (Hn & Hcopy & cleared & e & Hclear & Hre).
  apply grow_spec in Hgrow; [|done|lia].
  destruct Hgrow as (Hdouble & Hsize' & Hcount' & _ & _ & _ & _ & Hslots).
  pose proof (mapper_size_ok_range _ Hsize) as Hrange.
  pose proof (calc_capacity_grows (mapper_size map) ltac:(lia)) as Hgrows.
  rewrite <- Hn in Hcopy, Hclear, Hre. rewrite <- Hdouble in Hgrows.
  split.
  - split; [done|]. rewrite Hcount'. split; [lia|done].
  - split; [|by apply (copy_entries_exact map _ _ _ _ _ (exact_fresh _) (exact_fresh _));
                  [lia|done]].
    eapply rehash_exact; [|exact Hre].
    eapply clear_mapper_exact; [|exact Hclear]. apply exact_fresh.
Qed.

Lemma insert_probe_fit fuel : forall map key val mask pert i heap err map' heap' err',
  blocks_fit map -> 0 <= count map < calc_capacity (mapper_size map) ->
  insert_probe fuel map key val mask pert i heap err = Returns (true, map', heap', err') ->
  blocks_fit map'.
Proof.
  induction fuel as [|fuel IH]; intros map key val mask pert i heap err map' heap' err'
    Hfit Hroom; simpl; [done|].
  destruct Hfit as (Hmapper & Hkeys & Hvals).
  destruct (get (mapper map) i) as [k| |] eqn:Hslot; simpl; [|done..].
  destruct (k =? -1).
  - destruct (Object_Copy key heap err) as [[[copy|] h1] e1]; [|done].
    intros [= <- <- <-]. split; [|split]; simpl; apply exact_set; try done.
    by eapply exact_get.
  - destruct (get (keys map) i) as [slot_key| |] eqn:Hkey; simpl; [|done..].
    destruct (Object_Compare key slot_key err) as [[] e1].
    + intros [= <- <- <-]. split; [done|]. split; [done|]. simpl.
      apply exact_set; [done|]. exact (exact_get _ _ _ _ Hkeys Hkey).
    + destruct (occurred e1); [done|]. apply IH; [exact (conj Hmapper (conj Hkeys Hvals))|done].
Qed.

Lemma insert_fit fuel map key val heap err map' heap' err' :
  map_inv map ->
  (count map <> calc_capacity (mapper_size map) -> blocks_fit map) ->
  insert fuel map key val heap err = Returns (true, map', heap', err') ->
  blocks_fit map'.
Proof.
  intros Hinv Hfit. destruct Hinv as (Hsize & Hcount & Hslots).
  pose proof (mapper_size_ok_range _ Hsize) as Hr.
  pose proof (calc_capacity_bounds (mapper_size map) ltac:(lia)) as Hc.
  unfold insert.
  destruct (Z.eqb_spec (count map) (calc_capacity (mapper_size map))) as [Hfull|Hroom].
  - destruct (grow fuel map heap err) as [[[[grown m1] h1] e1]| |] eqn:Hgrow; simpl; [|done..].
    destruct grown; simpl; [|done].
    pose proof Hgrow as Hspec. apply grow_spec in Hspec; [|done|lia].
    destruct Hspec as (Hdouble & _ & Hcount1 & _).
    apply grow_fit in Hgrow as [_ Hfit1]; [|done|lia].
    destruct (Object_Hash key e1) as [hash e2]. destruct (occurred e2); [done|].
    pose proof (calc_capacity_grows (mapper_size map) ltac:(lia)).
    apply insert_probe_fit; [done|]. rewrite Hcount1, Hdouble. lia.
  - simpl. destruct (Object_Hash key err) as [hash e2]. destruct (occurred e2); [done|].
    apply insert_probe_fit; [by apply Hfit|lia].
Qed.

(** X1: on a map whose blocks have the sizes of its table, none
    written past, an insert that returns 1 leaves it so and keeps the
    invariants: [mapper_size] is a power of two, [0 <= count <=
    capacity], and every slot is -1 or the index of an entry. *)
Theorem insert_keeps_map_inv fuel map key val heap err map' heap' err' :
  map_inv map ->
  blocks_fit map ->
  insert fuel map key val heap err = Returns (true, map', heap', err') ->
  map_inv map' /\ blocks_fit map'.
Proof.
  intros Hinv Hfit Hins. split; [by eapply insert_inv|]. by eapply insert_fit.
Qed.

(** X12: a growth that succeeds leaves a map whose blocks have the
    sizes of its table and in which every write went to a cell of its
    block, with [mapper_size] a power of two, [count <= capacity] and
    every slot -1 or the index of an entry, whatever the mapper it was
    given held. *)
Theorem grow_fits_blocks fuel map heap err map' heap' err' :
  mapper_size_ok (mapper_size map) ->
  0 < count map <= calc_capacity (mapper_size map) ->
  grow fuel map heap err = Returns (true, map', heap', err') ->
  map_inv map' /\ blocks_fit map'.
Proof. apply grow_fit. Qed.

(** *** What [select] returns *)




(** *** What [insert] keeps *)

(** A probe that ends in failure has changed nothing. *)
Lemma insert_probe_fails fuel : forall map key val mask pert i heap err map' heap' err',
  insert_probe fuel map key val mask pert i heap err = Returns (false, map', heap', err') ->
  map' = map.
Proof.
  induction fuel as [|fuel IH]; intros map key val mask pert i heap err map' heap' err';
    simpl; [done|].
  destruct (get (mapper map) i) as [k| |]; simpl; [|done..].
  destruct (k =? -1).
  - destruct (Object_Copy key heap err) as [[[copy|] h1] e1]; [done|].
    by intros [= <- <- <-].
  - destruct (get (keys map) i) as [slot_key| |]; simpl; [|done..].
    destruct (Object_Compare key slot_key err) as [[] e1]; [done|].
    destruct (occurred e1); [by intros [= <- <- <-]|]. apply IH.
Qed.

(** What a probe that ends in success has done: it has appended the
    entry [count], or it has written the value of a slot whose key
    compares equal. *)
Lemma insert_probe_succeeds fuel : forall map key val mask pert i heap err map' heap' err',
  insert_probe fuel map key val mask pert i heap err = Returns (true, map', heap', err') ->
  mapper_size map' = mapper_size map /\
  ((count map' = wrap (count map + 1) /\
    (exists slot copy h e h1,
       Object_Copy key h e = (Some copy, h1, err') /\
       mapper map' = set (mapper map) slot (count map) /\
       keys map' = set (keys map) (count map) copy) /\
    vals map' = set (vals map) (count map) val) \/
   (count map' = count map /\ mapper map' = mapper map /\ keys map' = keys map /\
    exists slot slot_key e,
      get (keys map) slot = Returns slot_key /\
      Object_Compare key slot_key e = (true, err') /\
      vals map' = set (vals map) slot val)).
Proof.
  induction fuel as [|fuel IH]; intros map key val mask pert i heap err map' heap' err';
    simpl; [done|].
  destruct (get (mapper map) i) as [k| |]; simpl; [|done..].
  destruct (k =? -1).
  - destruct (Object_Copy key heap err) as [[[copy|] h1] e1] eqn:Hcopy; [|done].
    intros [= <- <- <-]. simpl. split; [done|]. left. split; [done|].
    split; [|done]. by exists i, copy, heap, err, h1.
  - destruct (get (keys map) i) as [slot_key| |] eqn:Hkey; simpl; [|done..].
    destruct (Object_Compare key slot_key err) as [[] e1] eqn:Hcmp.
    + intros [= <- <- <-]. simpl. split; [done|]. right.
      repeat split. by exists i, slot_key, err.
    + destruct (occurred e1); [done|]. apply IH.
Qed.

Lemma map_inv_count_range map : map_inv map -> 0 <= count map < 2 ^ 30.
Proof.
  intros (Hsize & Hcount & _).
  pose proof (mapper_size_ok_range _ Hsize).
  pose proof (calc_capacity_bounds (mapper_size map) ltac:(lia)). lia.
Qed.

(** The map [insert] probes: the one it was given, or the grown one. *)
Lemma insert_prepares fuel map heap err grown map1 heap1 err1 :
  map_inv map ->
  (if count map =? calc_capacity (mapper_size map)
   then grow fuel map heap err
   else Returns (true, map, heap, err)) = Returns (grown, map1, heap1, err1) ->
  count map1 = count map /\
  (mapper_size map1 = mapper_size map \/ mapper_size map1 = 2 * mapper_size map) /\
  (count map <> calc_capacity (mapper_size map) -> map1 = map) /\
  (forall k, 0 <= k < count map ->
     get (keys map1) k = get (keys map) k /\ get (vals map1) k = get (vals map) k).
Proof.
  intros Hinv.
  destruct (Z.eqb_spec (count map) (calc_capacity (mapper_size map))) as [Hfull|Hroom].
  - destruct grown.
    + intros Hgrow. destruct Hinv as (Hsize & Hcount & _).
      pose proof (mapper_size_ok_range _ Hsize).
      pose proof (calc_capacity_bounds (mapper_size map) ltac:(lia)).
      apply grow_spec in Hgrow; [|done|lia].
      destruct Hgrow as (? & _ & ? & _ & _ & _ & ? & _).
      split; [done|]. split; [by right|]. split; [done|]. done.
    + unfold grow. destruct (grow_requests map heap err) as [[[[m_ok k_ok] v_ok] h1] e1].
      destruct (negb m_ok || negb k_ok || negb v_ok).
      * intros [= <- <- <-]. split; [done|]. split; [by left|]. done.
      * destruct (copy_entries _ _ _) as [[ks vs]| |]; simpl; [|done..].
        destruct (clear_mapper _ _); simpl; [|done..].
        destruct (rehash _ _ _ _ _ _) as [[m2 e2]| |]; simpl; done.
  - intros [= <- <- <- <-]. split; [done|]. split; [by left|]. done.
Qed.

(** X13: on a map whose blocks fit, an insert that returns 1 leaves
    every earlier key where it was; it changes the value of an entry
    only to the inserted value and only where the key compared equal;
    and it leaves [count] as it was or appends as entry [count] a copy of
    the key with the value. *)
Theorem insert_keeps_earlier_entries fuel map key val heap err map' heap' err' :
  map_inv map ->
  blocks_fit map ->
  insert fuel map key val heap err = Returns (true, map', heap', err') ->
  (forall k, 0 <= k < count map -> get (keys map') k = get (keys map) k) /\
  (forall k, 0 <= k < count map ->
     get (vals map') k = get (vals map) k \/
     get (vals map') k = Returns val /\
     exists slot_key e, get (keys map) k = Returns slot_key /\
                        (Object_Compare key slot_key e).1 = true) /\
  (count map' = count map \/
   count map' = count map + 1 /\
   get (vals map') (count map) = Returns val /\
   exists copy h e, (Object_Copy key h e).1.1 = Some copy /\
                    get (keys map') (count map) = Returns copy).
Proof.
  intros Hinv _. pose proof (map_inv_count_range map Hinv) as Hrange. unfold insert.
  destruct (if count map =? _ then _ else _) as [[[[grown map1] heap1] err1]| |] eqn:Hprep;
    simpl; [|done..].
  apply insert_prepares in Hprep; [|done].
  destruct Hprep as (Hcount1 & _ & _ & Hsame).
  destruct grown; simpl; [|done].
  destruct (Object_Hash key err1) as [hash e2]. destruct (occurred e2); [done|].
  intros Hprobe. apply insert_probe_succeeds in Hprobe.
  destruct Hprobe as
    (_ & [(Hcount & (slot & copy & h & e & h1 & Hcopy & Hmapper & Hkeys) & Hvals)
         |(Hcount & _ & Hkeys & slot & slot_key & e & Hslot & Hcmp & Hvals)]).
  - rewrite Hcount1 in *.
    rewrite wrap_id in Hcount by (unfold in_range; lia).
    split; [|split].
    + intros k Hk. rewrite Hkeys, get_set_ne by lia. by apply Hsame.
    + intros k Hk. left. rewrite Hvals, get_set_ne by lia. by apply Hsame.
    + right. split; [done|]. split; [by rewrite Hvals, get_set_eq|].
      exists copy, h, e. rewrite Hcopy. split; [done|]. by rewrite Hkeys, get_set_eq.
  - split; [|split].
    + intros k Hk. rewrite Hkeys. by apply Hsame.
    + intros k Hk. rewrite Hvals. destruct (decide (k = slot)) as [->|Hne].
      * right. rewrite get_set_eq. split; [done|].
        exists slot_key, e. destruct (Hsame slot Hk) as [<- _].
        split; [done|]. by rewrite Hcmp.
      * left. rewrite get_set_ne by done. by apply Hsame.
    + left. lia.
Qed.

(** X14: on a map whose blocks fit, an insert that returns 0 has
    added and changed no entry.  The map is the one it was given when
    that one was not full; the insert into a full map may have grown it
    to twice the slots before it failed. *)
Theorem insert_failure_keeps_entries fuel map key val heap err map' heap' err' :
  map_inv map ->
  blocks_fit map ->
  insert fuel map key val heap err = Returns (false, map', heap', err') ->
  count map' = count map /\
  (mapper_size map' = mapper_size map \/ mapper_size map' = 2 * mapper_size map) /\
  (count map <> calc_capacity (mapper_size map) -> map' = map) /\
  (forall k, 0 <= k < count map ->
     get (keys map') k = get (keys map) k /\ get (vals map') k = get (vals map) k).
Proof.
  intros Hinv _. unfold insert.
  destruct (if count map =? _ then _ else _) as [[[[grown map1] heap1] err1]| |] eqn:Hprep;
    simpl; [|done..].
  apply insert_prepares in Hprep; [|done].
  destruct grown; simpl.
  - destruct (Object_Hash key err1) as [hash e2]. destruct (occurred e2).
    + by intros [= <- <- <-].
    + intros Hprobe. apply insert_probe_fails in Hprobe. by subst.
  - by intros [= <- <- <-].
Qed.

(** *** The size of a new map *)

Lemma Object_NewMap_size fuel num heap err m heap' err' :
  Object_NewMap fuel num heap err = Returns (Some m, heap', err') ->
  initial_mapper_size fuel 8 (if num <? 0 then 0 else num) = Returns (mapper_size m).
Proof.
  unfold Object_NewMap.
  destruct (initial_mapper_size fuel 8 _) as [size| |] eqn:Hsize; simpl; [|done..].
  destruct (Heap_Malloc heap "map" err) as [[obj h0] e0].
  destruct (negb obj); [done|].
  destruct (Heap_RawMalloc h0 _ e0) as [[ok1 h1] e1].
  destruct (Heap_RawMalloc h1 _ e1) as [[ok2 h2] e2].
  destruct (Heap_RawMalloc h2 _ e2) as [[ok3 h3] e3].
  destruct (negb ok1 || negb ok2 || negb ok3); [done|].
  destruct (clear_mapper _ _); simpl; [|done..].
  by intros [= <- <- <-].
Qed.

(** X17: the map [Object_NewMap] returns has no entry and room for
    [num]; it has the 8 slots of the smallest map, or half its slots
    would not have had room for [num]; [num] is at most 715827882; and
    nothing has been reported. *)
Theorem Object_NewMap_smallest fuel num heap err m heap' err' :
  Object_NewMap fuel num heap err = Returns (Some m, heap', err') ->
  count m = 0 /\
  num <= calc_capacity (mapper_size m) /\
  (mapper_size m = 8 \/ calc_capacity (mapper_size m / 2) < num) /\
  num <= 715827882 /\
  err' = err.
Proof.
  intros Hnew. pose proof (Object_NewMap_size _ _ _ _ _ _ _ Hnew) as Hloop.
  apply Object_NewMap_spec in Hnew.
  destruct Hnew as (Hsize & Hnum & Hcount & _ & _ & _ & _ & Herr).
  split; [done|]. split; [lia|].
  apply (initial_mapper_size_least fuel 3) in Hloop; [|lia].
  split.
  { destruct Hloop as [?|Hlt]; [by left|right].
    destruct (Z.ltb_spec num 0); [|done].
    apply mapper_size_ok_range in Hsize.
    assert (0 <= mapper_size m / 2) by (apply Z.div_pos; lia).
    rewrite calc_capacity_div in Hlt by done.
    assert (0 <= mapper_size m / 2 * 2 / 3) by (apply Z.div_pos; lia). lia. }
  split; [|done].
  destruct Hsize as (k & Hk & Hm). rewrite Hm in Hnum.
  pose proof (calc_capacity_max k Hk). lia.
Qed.

(** X18: when [Object_NewMap] returns [NULL], the out-of-memory error
    of the heap is on the channel: the object or one of the three arrays
    was not served.  It returns before the loop that clears the slots. *)
Theorem Object_NewMap_NULL fuel num heap err heap' err' :
  Object_NewMap fuel num heap err = Returns (None, heap', err') ->
  is_OOM err'.
Proof.
  unfold Object_NewMap.
  destruct (initial_mapper_size fuel 8 _) as [size| |]; simpl; [|done..].
  unfold Heap_Malloc.
  destruct (alloc_typed heap "map") as [h0|]; simpl.
  2: { by intros [= <- <-]. }
  destruct (Heap_RawMalloc h0 _ err) as [[ok1 h1] e1] eqn:H1.
  destruct (Heap_RawMalloc h1 _ e1) as [[ok2 h2] e2] eqn:H2.
  destruct (Heap_RawMalloc h2 _ e2) as [[ok3 h3] e3] eqn:H3.
  destruct ok3.
  - destruct ok2.
    + destruct ok1.
      * simpl. destruct (clear_mapper _ _); simpl; done.
      * simpl. intros [= <- <-].
        eapply Heap_RawMalloc_keeps_OOM; [exact H3|].
        eapply Heap_RawMalloc_keeps_OOM; [exact H2|].
        eapply Heap_RawMalloc_fails; [exact H1|done].
    + rewrite orb_true_r. simpl. intros [= <- <-].
      eapply Heap_RawMalloc_keeps_OOM; [exact H3|].
      eapply Heap_RawMalloc_fails; [exact H2|done].
  - rewrite orb_true_r. intros [= <- <-].
    eapply Heap_RawMalloc_fails; [exact H3|done].
Qed.

End WithObjects.

End MapFacts.

(** ** The map on integer keys *)

Module MapExamples.

Import Stdlib.Floats.SpecFloat.
Import CInt CArray Map Sample MapFacts.

(** C3, where the code departs from it: [Object_NewMap(0, ...)] returns
    a map of 8 slots whose mapper was requested with room for 5 [int]s,
    the capacity, and the loop that clears the slots has written to
    [mapper[5]], [mapper[6]] and [mapper[7]], past the request. *)
Theorem new_map_mapper_is_short :
  exists map heap err,
    new_map 0 = Returns (Some map, heap, err) /\
    mapper_size map = 8 /\
    requested (mapper map) = 5 /\
    get (mapper map) 5 = Returns (-1) /\
    get (mapper map) 6 = Returns (-1) /\
    get (mapper map) 7 = Returns (-1).
Proof. do 3 eexists. split; [vm_compute; reflexivity|]. by vm_compute. Qed.

(** C1, where the code departs from it: after the inserts of (0, 10),
    (2, 12) and (1, 11) into a new map, each of which returns 1,
    [select] of the key 2 returns [NULL] with no error.  The key 2 is
    entry 1 and slot 2 names it; the probe compares with [keys[2]],
    the key of the slot's own number, which is the key 1, goes on to
    slot 3 and finds it empty. *)
Theorem select_misses_inserted_key :
  exists st,
    map_of three_keys = Returns (Some st) /\
    get (mapper st.1.1) 2 = Returns 1 /\
    get (keys st.1.1) 1 = Returns (IntObj 2) /\
    get (vals st.1.1) 1 = Returns (IntObj 12) /\
    lookup 2 st = Returns (None, Error_Init).
Proof. eexists. split; [vm_compute; reflexivity|]. by vm_compute. Qed.

(** C2, where the code departs from it: in the same map the key 2 is
    present, and inserting (2, 99) does not find it: the insert returns
    1 with [count] gone from 3 to 4, a copy of the key appended as entry
    3 with the new value, and the value of entry 1 still 12. *)
Theorem insert_again_appends :
  exists st map' heap' err',
    map_of three_keys = Returns (Some st) /\
    count st.1.1 = 3 /\
    put 2 99 st = Returns (true, map', heap', err') /\
    count map' = 4 /\
    get (keys map') 3 = Returns (IntObj 2) /\
    get (vals map') 3 = Returns (IntObj 99) /\
    get (vals map') 1 = Returns (IntObj 12).
Proof.
  do 4 eexists. split; [vm_compute; reflexivity|].
  split; [by vm_compute|]. split; [vm_compute; reflexivity|]. by vm_compute.
Qed.

(** C5, where the code departs from it: with the keys 0, 1, 3, 2, 4 in
    a map of 8 slots, which is full, [select] of the key 2 returns its
    value 12.  [grow] returns 1, the map has 16 slots and the same five
    entries in the same order, and [select] of the key 2 now returns
    [NULL]: the probe that went from slot 2 to slot 3 under the mask 7
    goes from slot 2 to the empty slot 11 under the mask 15.  So it is
    after the insert of a sixth key, which is what calls [grow]. *)
Theorem grow_loses_key :
  exists st map' heap' err' map'' heap'' err'',
    map_of five_keys = Returns (Some st) /\
    mapper_size st.1.1 = 8 /\
    lookup 2 st = Returns (Some (IntObj 12), Error_Init) /\
    grown st = Returns (true, map', heap', err') /\
    mapper_size map' = 16 /\
    count map' = 5 /\
    get (keys map') 3 = Returns (IntObj 2) /\
    get (vals map') 3 = Returns (IntObj 12) /\
    lookup 2 (map', heap', err') = Returns (None, Error_Init) /\
    put 5 15 st = Returns (true, map'', heap'', err'') /\
    mapper_size map'' = 16 /\
    count map'' = 6 /\
    lookup 2 (map'', heap'', err'') = Returns (None, Error_Init).
Proof.
  do 7 eexists. split; [vm_compute; reflexivity|].
  do 2 (split; [by vm_compute|]). split; [vm_compute; reflexivity|].
  do 5 (split; [by vm_compute|]). split; [vm_compute; reflexivity|].
  by vm_compute.
Qed.

(** C6 as it is stated fails: the empty map has room for 5 entries,
    not 0, and [select] of a float in it, a key without a hash, returns
    [NULL] with the error of [Object_Hash] reported. *)
Lemma select_on_empty_map_hashes :
  count empty_map = 0 /\
  calc_capacity (mapper_size empty_map) = 5 /\
  @select bump_heap sample_objects 1 empty_map (FloatObj (S754_zero false)) roomy Error_Init
  = Returns (None, Error_Report Error_Init false no_hash_text) /\
  occurred (Error_Report Error_Init false no_hash_text) = true.
Proof. by vm_compute. Qed.

Lemma select_on_new_map_witness :
  new_map 0 = Returns (Some empty_map, 65372, Error_Init) /\
  count empty_map = 0 /\
  5 <= calc_capacity (mapper_size empty_map) /\
  @select bump_heap sample_objects 1 empty_map (IntObj 7) roomy Error_Init
  = Returns (None, (@Object_Hash bump_heap sample_objects (IntObj 7) Error_Init).2).
Proof.
  split; [vm_compute; reflexivity|].
  apply (select_on_new_map (H := bump_heap) (H0 := sample_objects)
           plenty 0%nat 0 roomy Error_Init empty_map 65372 Error_Init).
  vm_compute; reflexivity.
Defined.


Lemma grow_keeps_entries_witness :
  mapper_size grown_map = 2 * mapper_size full_map /\
  count grown_map = count full_map /\
  requested (mapper grown_map) = mapper_size grown_map /\
  requested (keys grown_map) = calc_capacity (mapper_size grown_map) /\
  (forall k, 0 <= k < count full_map ->
     get (keys grown_map) k = get (keys full_map) k /\
     get (vals grown_map) k = get (vals full_map) k).
Proof.
  apply (grow_keeps_entries (H := bump_heap) (H0 := sample_objects)
           plenty full_map 65372 Error_Init grown_map 65148 Error_Init).
  - exists 3. split; [lia|]. vm_compute; reflexivity.
  - vm_compute; reflexivity.
  - vm_compute; reflexivity.
Defined.

Lemma Object_NewMap_mapper_request_witness :
  requested (mapper empty_map) = calc_capacity (mapper_size empty_map) /\
  requested (mapper empty_map) < mapper_size empty_map /\
  get (mapper empty_map) (mapper_size empty_map - 1) = Returns (-1).
Proof.
  apply (Object_NewMap_mapper_request (H := bump_heap) (H0 := sample_objects)
           plenty 0 roomy Error_Init empty_map 65372 Error_Init).
  vm_compute; reflexivity.
Defined.

Lemma select_never_returns_witness :
  @select bump_heap sample_objects plenty (the_map (map_of one_key)) (IntObj (-32))
    roomy Error_Init
  = OutOfFuel.
Proof.
  apply (select_never_returns (H := bump_heap) (H0 := sample_objects)
           plenty (the_map (map_of one_key)) (IntObj (-32)) roomy Error_Init
           Error_Init 0 (IntObj (-64)));
    first [discriminate | vm_compute; reflexivity].
Defined.

(** The full map of 8 slots is a map [grow] takes. *)
Lemma full_map_grows :
  mapper_size_ok (mapper_size full_map) /\
  0 < count full_map <= calc_capacity (mapper_size full_map) /\
  @grow bump_heap sample_objects plenty full_map 65372 Error_Init
  = Returns (true, grown_map, 65148, Error_Init).
Proof.
  split; [exists 3; split; [lia|vm_compute; reflexivity]|].
  split; [vm_compute; split; [reflexivity|discriminate]|].
  vm_compute; reflexivity.
Qed.

(** The grown map has blocks that fit. *)
Lemma grown_map_fits : map_inv grown_map /\ blocks_fit grown_map.
Proof.
  destruct full_map_grows as (Hsize & Hcount & Hgrow).
  exact (grow_fit (H := bump_heap) (H0 := sample_objects) _ _ _ _ _ _ _ Hsize Hcount Hgrow).
Qed.

(** The inserts of [put_all] keep them so. *)
Lemma put_all_fits pairs : forall st st',
  map_inv st.1.1 /\ blocks_fit st.1.1 ->
  put_all pairs st = Returns (Some st') ->
  map_inv st'.1.1 /\ blocks_fit st'.1.1.
Proof.
  induction pairs as [|[key val] pairs IH]; intros [[map heap] err] st' Hst; simpl.
  - by intros [= <-].
  - destruct (insert _ _ _ _ _ _) as [[[[[] map1] heap1] err1]| |] eqn:Hins;
      simpl; [|done..].
    apply IH. simpl. destruct Hst as [Hinv Hfit]. split.
    + by eapply insert_inv.
    + by eapply insert_fit.
Qed.

Lemma full_16_fits : map_inv full_16_state.1.1 /\ blocks_fit full_16_state.1.1.
Proof.
  apply (put_all_fits five_more grown_state); [exact grown_map_fits|].
  vm_compute; reflexivity.
Qed.

(** The insert of the key 5 into the grown map. *)
Lemma insert_keeps_map_inv_witness :
  map_inv (after_put 5 15 grown_state) /\ blocks_fit (after_put 5 15 grown_state).
Proof.
  apply (insert_keeps_map_inv (H := bump_heap) (H0 := sample_objects)
           plenty grown_map (IntObj 5) (IntObj 15) 65148 Error_Init
           (after_put 5 15 grown_state) 65148 Error_Init).
  - exact (proj1 grown_map_fits).
  - exact (proj2 grown_map_fits).
  - vm_compute; reflexivity.
Defined.

Lemma grow_fits_blocks_witness : map_inv grown_map /\ blocks_fit grown_map.
Proof.
  apply (grow_fits_blocks (H := bump_heap) (H0 := sample_objects)
           plenty full_map 65372 Error_Init grown_map 65148 Error_Init).
  - exact (proj1 full_map_grows).
  - exact (proj1 (proj2 full_map_grows)).
  - exact (proj2 (proj2 full_map_grows)).
Defined.



(** The insert of (2, 99) into the grown map, which holds the key 2
    as entry 3: the probe does not find it and appends entry 5. *)
Lemma insert_keeps_earlier_entries_witness :
  count (after_put 2 99 grown_state) = count grown_map + 1 /\
  (forall k, 0 <= k < count grown_map ->
     get (keys (after_put 2 99 grown_state)) k = get (keys grown_map) k) /\
  (forall k, 0 <= k < count grown_map ->
     get (vals (after_put 2 99 grown_state)) k = get (vals grown_map) k \/
     get (vals (after_put 2 99 grown_state)) k = Returns (IntObj 99) /\
     exists slot_key e,
       get (keys grown_map) k = Returns slot_key /\
       (@Object_Compare bump_heap sample_objects (IntObj 2) slot_key e).1 = true) /\
  (count (after_put 2 99 grown_state) = count grown_map \/
   count (after_put 2 99 grown_state) = count grown_map + 1 /\
   get (vals (after_put 2 99 grown_state)) (count grown_map) = Returns (IntObj 99) /\
   exists copy h e,
     (@Object_Copy bump_heap sample_objects (IntObj 2) h e).1.1 = Some copy /\
     get (keys (after_put 2 99 grown_state)) (count grown_map) = Returns copy).
Proof.
  split; [vm_compute; reflexivity|].
  apply (insert_keeps_earlier_entries (H := bump_heap) (H0 := sample_objects)
           plenty grown_map (IntObj 2) (IntObj 99) 65148 Error_Init
           (after_put 2 99 grown_state) 65148 Error_Init).
  - exact (proj1 grown_map_fits).
  - exact (proj2 grown_map_fits).
  - vm_compute; reflexivity.
Defined.

(** The insert of a float, which has no hash, into the full map of 16
    slots: the map has grown to 32 slots when the insert fails. *)
Lemma insert_failure_keeps_entries_witness :
  mapper_size full_16_state.1.1 = 16 /\
  mapper_size (map_after (put_float full_16_state)) = 32 /\
  count (map_after (put_float full_16_state)) = count full_16_state.1.1 /\
  (mapper_size (map_after (put_float full_16_state)) = mapper_size full_16_state.1.1 \/
   mapper_size (map_after (put_float full_16_state)) = 2 * mapper_size full_16_state.1.1) /\
  (count full_16_state.1.1 <> calc_capacity (mapper_size full_16_state.1.1) ->
   map_after (put_float full_16_state) = full_16_state.1.1) /\
  (forall k, 0 <= k < count full_16_state.1.1 ->
     get (keys (map_after (put_float full_16_state))) k = get (keys full_16_state.1.1) k /\
     get (vals (map_after (put_float full_16_state))) k = get (vals full_16_state.1.1) k).
Proof.
  split; [vm_compute; reflexivity|]. split; [vm_compute; reflexivity|].
  apply (insert_failure_keeps_entries (H := bump_heap) (H0 := sample_objects)
           plenty full_16_state.1.1 (FloatObj (S754_zero false)) (IntObj 1)
           full_16_state.1.2 full_16_state.2
           (map_after (put_float full_16_state))
           (heap_after (put_float full_16_state))
           (Error_Report Error_Init false no_hash_text)).
  - exact (proj1 full_16_fits).
  - exact (proj2 full_16_fits).
  - vm_compute; reflexivity.
Defined.

(** A map for 6 entries has 16 slots: 8 have room for 5. *)
Lemma Object_NewMap_smallest_witness :
  mapper_size (new_map_of 6) = 16 /\
  count (new_map_of 6) = 0 /\
  6 <= calc_capacity (mapper_size (new_map_of 6)) /\
  (mapper_size (new_map_of 6) = 8 \/ calc_capacity (mapper_size (new_map_of 6) / 2) < 6) /\
  6 <= 715827882 /\
  Error_Init = Error_Init.
Proof.
  split; [vm_compute; reflexivity|].
  apply (Object_NewMap_smallest (H := bump_heap) (H0 := sample_objects)
           plenty 6 roomy Error_Init (new_map_of 6) 65272 Error_Init).
  vm_compute; reflexivity.
Defined.

(** On a heap of 100 bytes the object and the mapper are served, the
    keys are not. *)
Lemma Object_NewMap_NULL_witness :
  @Object_NewMap bump_heap sample_objects plenty 0 100 Error_Init
  = Returns (None, 16, Error_Report Error_Init true "Out of heap") /\
  @is_OOM bump_heap (Error_Report Error_Init true "Out of heap").
Proof.
  assert (Hrun : @Object_NewMap bump_heap sample_objects plenty 0 100 Error_Init
                 = Returns (None, 16, Error_Report Error_Init true "Out of heap")).
  { vm_compute; reflexivity. }
  split; [exact Hrun|].
  exact (Object_NewMap_NULL (H := bump_heap) (H0 := sample_objects)
           plenty 0 100 Error_Init 16 (Error_Report Error_Init true "Out of heap") Hrun).
Defined.

End MapExamples.

(** ** The closure *)

Module ClosureFacts.

Import Closure ClosureSpec.

Section Facts.
Context `{HeapOps}.
Variable Value : Type.
Variable Object_Select :
  Object Value -> Object Value -> Heap -> Error -> option (Object Value) * Heap * Error.

(** Induction along a chain, from the outermost scope inward. *)
Lemma closure_chain_ind (P : ClosureObject Value -> Prop) :
  (forall vars, P (mkClosure None vars)) ->
  (forall outer vars, P outer -> P (mkClosure (Some outer) vars)) ->
  forall closure, P closure.
Proof.
  intros Hlast Hstep. fix IH 1. intros [[outer|] vars].
  - apply Hstep, IH.
  - apply Hlast.
Qed.

(** C9: [select] on a closure gives what the specification says of the
    walk over its scopes, the innermost first: the first result of
    [Object_Select] on a scope's [vars] that is not [NULL]; [NULL] when
    no scope has the key; and, as soon as a scope leaves an error on the
    channel, [NULL] with that error, the scopes further out not being
    asked. *)
Theorem select_walks_chain self key heap err :
  walk_result Value Object_Select key (scopes Value self) heap err
    (select Value Object_Select self key heap err).
Proof.
  unfold select. revert heap err.
  induction self as [vars|outer vars IH] using closure_chain_ind; intros heap err; simpl.
  - destruct (Object_Select vars key heap err) as [[selected heap'] err'] eqn:Hsel.
    destruct (occurred err') eqn:Herr.
    + by eapply walk_abort.
    + destruct selected as [value|].
      * by eapply walk_found.
      * eapply walk_on; [done..|]. constructor.
  - destruct (Object_Select vars key heap err) as [[selected heap'] err'] eqn:Hsel.
    destruct (occurred err') eqn:Herr.
    + by eapply walk_abort.
    + destruct selected as [value|].
      * by eapply walk_found.
      * eapply walk_on; [done..|]. apply IH.
Qed.

(** C10: when the heap serves the typed allocation,
    [Object_NewClosure] returns [NULL] and reports the user error
    "Object is not a closure" for a [parent] that is an object of
    another type; for a [parent] that is [NULL] or a closure it returns
    a closure whose [prev] is [parent] and whose [vars] is [new_map],
    and reports nothing. *)
Theorem Object_NewClosure_result parent new_map heap err heap' :
  alloc_typed heap "closure" = Some heap' ->
  (forall p, parent = Some p -> is_closure p = false ->
     Object_NewClosure Value parent new_map heap err
     = (None, heap', Error_Report err false "Object is not a closure")) /\
  ((parent = None \/ exists p, parent = Some p /\ is_closure p = true) ->
     exists closure,
       Object_NewClosure Value parent new_map heap err
       = (Some (OfClosure closure), heap', err) /\
       prev_object Value closure = parent /\
       vars closure = new_map).
Proof.
  intros Halloc. unfold Object_NewClosure, Heap_Malloc. rewrite Halloc. simpl. split.
  - intros p -> Hp. by rewrite Hp.
  - intros [->|(p & -> & Hp)].
    + by eexists.
    + rewrite Hp. simpl. eexists. split; [done|]. split; [|done].
      destruct p; [done|discriminate].
Qed.

End Facts.

(** On a heap of 128 bytes, with integers as the objects of the other
    types: a closure over the scope 1 is a parent, the integer 2 is
    not. *)
Lemma Object_NewClosure_result_witness :
  @alloc_typed bump_heap 128 "closure" = Some 64 /\
  @Object_NewClosure bump_heap Z (Some (OfOther 2)) (OfOther 3) 128 Error_Init
  = (None, 64, Error_Report Error_Init false "Object is not a closure") /\
  exists closure,
    @Object_NewClosure bump_heap Z
      (Some (OfClosure (mkClosure None (OfOther 1)))) (OfOther 3) 128 Error_Init
    = (Some (OfClosure closure), 64, Error_Init) /\
    prev_object Z closure = Some (OfClosure (mkClosure None (OfOther 1))) /\
    vars closure = OfOther 3.
Proof.
  split; [reflexivity|]. split.
  - apply (proj1 (Object_NewClosure_result (H := bump_heap) Z
                    (Some (OfOther 2)) (OfOther 3) 128 Error_Init 64 eq_refl)
             (OfOther 2)); reflexivity.
  - apply (proj2 (Object_NewClosure_result (H := bump_heap) Z
                    (Some (OfClosure (mkClosure None (OfOther 1)))) (OfOther 3)
                    128 Error_Init 64 eq_refl)).
    right. eexists. split; reflexivity.
Defined.

End ClosureFacts.

(** ** The code generator *)

Module CodegenFacts.

Import Codegen CodegenSpec Sample.

(** C7, as amended: for the program [a, b = f(x);], whatever the spans
    of its nodes, [compile] returns an executable that stores the
    targets in reverse order with a [POP 1] between the two stores, and
    whose [ASS "a"] is followed by the [POP 1] with which a block ends
    every expression statement, then by the [RETURN 0] of [compile].
    The assignment itself emits nothing after its last store: with the
    expression alone as the root the listing is the one the
    specification gives. *)
Theorem compile_ab_fx span fuel size used cells init err :
  listing (compile init (3 + fuel) (mkAST (program_ab_fx span) (mkSource size))
             (Some (unbounded used cells)) err)
  = Some listing_with_pop /\
  listing (compile init (2 + fuel) (mkAST (assign_ab_fx span) (mkSource size))
             (Some (unbounded used cells)) err)
  = Some listing_in_spec.
Proof. split; reflexivity. Qed.

(** C7 as it is stated fails: the listing of the program is not the one
    the specification gives. *)
Lemma compile_ab_fx_pops :
  listing (compiled 3 (program_ab_fx one_byte_each) 12) <> Some listing_in_spec.
Proof. vm_compute. discriminate. Qed.

(** The lowering of one [break] node: it reports the user error
    "Break not inside a loop" and calls [longjmp] exactly when the break
    destination it is given is [NULL]; given a destination, and the
    builder having room, it appends the one instruction [JUMP] whose
    operand is that promise, with the span of the node, and reports
    nothing. *)
Lemma break_lowering fuel off len break_dest ctx :
  let r := emitInstrForNode (S fuel) (BreakNode off len) break_dest ctx in
  (jumps_with BreakOutsideLoop r <-> break_dest = None) /\
  (forall dest, break_dest = Some dest ->
     serves (alloc ctx) (requests (alloc ctx)) = true ->
     exists ctx',
       r = Ok tt ctx' /\
       code (builder ctx')
       = code (builder ctx) ++ [mkInstr OPCODE_JUMP [OPTP_PROMISE dest] off len] /\
       error ctx' = error ctx).
Proof.
  simpl. destruct break_dest as [dest|]; split.
  - split; [|done]. intros (ctx' & Hr & Hb). exfalso.
    unfold emitInstr, ExeBuilder_Append, BPAlloc_Malloc in Hr.
    destruct (serves _ _); [done|].
    injection Hr as <-. destruct Hb as (_ & Hint & _). done.
  - intros d [= <-] Hserves.
    unfold emitInstr, ExeBuilder_Append, BPAlloc_Malloc. rewrite Hserves.
    eexists. split; [done|]. done.
  - split; [done|]. intros _. eexists. split; [done|]. done.
  - intros d [=].
Qed.

(** C8, where the code departs from it: for the program [break;],
    whatever the spans of its nodes and the context, the walk reports
    the user error "Break not inside a loop" and calls [longjmp]; and
    [compile] does not fail with that error.  The [jmp_buf] was filled
    by the [setjmp] of [setOrcatchJump], a call that had ended before
    the walk began, so the jump is into a function that has returned,
    and what [compile] does after it is not defined: the [return NULL]
    that the jump is meant to lead to is not where C takes it. *)
Theorem compile_break_undefined span fuel size used cells init err :
  (forall ctx,
     emitInstrForNode (2 + fuel) (program_break span) None ctx
     = Jumped (reported ctx "Break not inside a loop") /\
     BreakOutsideLoop (error (reported ctx "Break not inside a loop"))) /\
  compile init (2 + fuel) (mkAST (program_break span) (mkSource size))
    (Some (unbounded used cells)) err
  = Undefined.
Proof. split; [|reflexivity]. intros ctx. split; [reflexivity|]. by repeat split. Qed.

(** *** The scenarios of the specification

    The spans of the nodes, the size of the source, the error channel
    and the fuel beyond the depth of the tree are arbitrary; the scratch
    allocator is one that never runs out. *)

(** X4: [return 1;] compiles to [PUSHINT 1; RETURN 1; RETURN 0]. *)
Theorem compile_return_1 span fuel size used init err :
  listing (compile init (3 + fuel) (mkAST (program_return_1 span) (mkSource size))
             (Some (unbounded used [])) err)
  = Some [(OPCODE_PUSHINT, [OPTP_INT 1]);
          (OPCODE_RETURN, [OPTP_INT 1]);
          (OPCODE_RETURN, [OPTP_INT 0])].
Proof. reflexivity. Qed.

(** X5: [if x < 0: return -x; return x;] compiles to the listing of the
    specification, the one forward jump resolved to 7, the index after
    the then-branch. *)
Theorem compile_abs span fuel size used init err :
  listing (compile init (5 + fuel) (mkAST (program_abs span) (mkSource size))
             (Some (unbounded used [])) err)
  = Some [(OPCODE_PUSHVAR, [OPTP_STRING "x"]);
          (OPCODE_PUSHINT, [OPTP_INT 0]);
          (OPCODE_LSS, []);
          (OPCODE_JUMPIFNOTANDPOP, [OPTP_INT 7]);
          (OPCODE_PUSHVAR, [OPTP_STRING "x"]);
          (OPCODE_NEG, []);
          (OPCODE_RETURN, [OPTP_INT 1]);
          (OPCODE_PUSHVAR, [OPTP_STRING "x"]);
          (OPCODE_RETURN, [OPTP_INT 1]);
          (OPCODE_RETURN, [OPTP_INT 0])].
Proof. reflexivity. Qed.

(** X6: [while n > 0: { n = n - 1; }] compiles to the listing of the
    specification, with the start at 0 and the end at 10; the [POP 1]
    after [ASS "n"] is the one of the expression statement in the
    block. *)
Theorem compile_countdown span fuel size used init err :
  listing (compile init (6 + fuel) (mkAST (program_countdown span) (mkSource size))
             (Some (unbounded used [])) err)
  = Some [(OPCODE_PUSHVAR, [OPTP_STRING "n"]);
          (OPCODE_PUSHINT, [OPTP_INT 0]);
          (OPCODE_GRT, []);
          (OPCODE_JUMPIFNOTANDPOP, [OPTP_INT 10]);
          (OPCODE_PUSHVAR, [OPTP_STRING "n"]);
          (OPCODE_PUSHINT, [OPTP_INT 1]);
          (OPCODE_SUB, []);
          (OPCODE_ASS, [OPTP_STRING "n"]);
          (OPCODE_POP, [OPTP_INT 1]);
          (OPCODE_JUMP, [OPTP_INT 0]);
          (OPCODE_RETURN, [OPTP_INT 0])].
Proof. reflexivity. Qed.

(** X7: [fun g(x) return x+1;] followed by [g(2);] compiles to the
    listing of the specification, the function at 4 and the jump over it
    to 11; the call, an expression statement of the root block, is
    followed by [POP 1]. *)
Theorem compile_fun_call span fuel size used init err :
  listing (compile init (5 + fuel) (mkAST (program_fun_call span) (mkSource size))
             (Some (unbounded used [])) err)
  = Some [(OPCODE_PUSHFUN, [OPTP_INT 4; OPTP_INT 1]);
          (OPCODE_ASS, [OPTP_STRING "g"]);
          (OPCODE_POP, [OPTP_INT 1]);
          (OPCODE_JUMP, [OPTP_INT 11]);
          (OPCODE_ASS, [OPTP_STRING "x"]);
          (OPCODE_POP, [OPTP_INT 1]);
          (OPCODE_PUSHVAR, [OPTP_STRING "x"]);
          (OPCODE_PUSHINT, [OPTP_INT 1]);
          (OPCODE_ADD, []);
          (OPCODE_RETURN, [OPTP_INT 1]);
          (OPCODE_RETURN, [OPTP_INT 0]);
          (OPCODE_PUSHINT, [OPTP_INT 2]);
          (OPCODE_PUSHVAR, [OPTP_STRING "g"]);
          (OPCODE_CALL, [OPTP_INT 1; OPTP_INT 1]);
          (OPCODE_POP, [OPTP_INT 1]);
          (OPCODE_RETURN, [OPTP_INT 0])].
Proof. reflexivity. Qed.

(** X8: the empty block as the root compiles to the single
    [RETURN 0], with the size of the source as its offset. *)
Theorem compile_empty span fuel size used cells init err :
  compile init (1 + fuel) (mkAST (program_empty span) (mkSource size))
    (Some (unbounded used cells)) err
  = Returns (Some (mkExecutable [mkInstr OPCODE_RETURN [OPTP_INT 0] size 0]
                     (Some (mkSource size))), err).
Proof. reflexivity. Qed.

(** X10: [while true: break;] compiles, the [break] being the [JUMP]
    to 4, the index after the loop, to which the exit test of the loop
    jumps as well. *)
Theorem compile_while_break span fuel size used init err :
  listing (compile init (3 + fuel) (mkAST (program_while_break span) (mkSource size))
             (Some (unbounded used [])) err)
  = Some [(OPCODE_PUSHTRU, []);
          (OPCODE_JUMPIFNOTANDPOP, [OPTP_INT 4]);
          (OPCODE_JUMP, [OPTP_INT 4]);
          (OPCODE_JUMP, [OPTP_INT 0]);
          (OPCODE_RETURN, [OPTP_INT 0])].
Proof. reflexivity. Qed.

End CodegenFacts.

(** ** What the walk keeps *)

Module WalkFacts.

Import Codegen CodegenSpec.
Local Open Scope gen_scope.

(** *** Contexts and steps *)

Lemma extends_refl ctx : extends ctx ctx.
Proof. split; try done. by exists []; rewrite app_nil_r. Qed.

Lemma extends_trans ctx1 ctx2 ctx3 : extends ctx1 ctx2 -> extends ctx2 ctx3 -> extends ctx1 ctx3.
Proof.
  intros [E1 O1 S1 R1 P1 [m1 C1]] [E2 O2 S2 R2 P2 [m2 C2]]. split.
  - congruence.
  - congruence.
  - congruence.
  - lia.
  - lia.
  - exists (m1 ++ m2). rewrite C2, C1. by rewrite app_assoc.
Qed.

Lemma reach_refl base ctx : reach base ctx ctx.
Proof. split; [apply extends_refl|done]. Qed.

Lemma triple_bind {A B : Type} ctx (m : Gen A) (k : A -> Gen B) Q :
  triple ctx m (fun a ctx' => triple ctx' (k a) Q) -> triple ctx (bind m k) Q.
Proof. unfold triple, bind. by destruct (m ctx). Qed.

Lemma triple_ret {A : Type} ctx (a : A) (Q : A -> CodegenContext -> Prop) :
  Q a ctx -> triple ctx (ret a) Q.
Proof. done. Qed.

Lemma triple_report {A : Type} ctx internal text (Q : A -> CodegenContext -> Prop) :
  triple ctx (reportErrorAndJump internal text) Q.
Proof. done. Qed.

Lemma triple_malformed {A : Type} ctx (Q : A -> CodegenContext -> Prop) :
  triple ctx malformed Q.
Proof. done. Qed.

(** The steps of the pass, each with what may be assumed of the
    context it leaves.  [ctx0] is where the pass began, with [base]
    promises. *)
Section Steps.
Variable base : nat.
Variable ctx0 : CodegenContext.

(** An appended instruction. *)
Lemma emitInstr_at ctx opcode opv off len (Q : unit -> CodegenContext -> Prop) :
  reach base ctx0 ctx ->
  (good base ctx0 -> forall p, OPTP_PROMISE p ∈ opv -> valid base ctx p) ->
  (good base ctx0 -> forall op, op ∈ targets (mkInstr opcode opv off len) ->
     target_ok ctx op) ->
  (forall ctx', reach base ctx0 ctx' -> plen ctx' = plen ctx ->
     clen ctx' = S (clen ctx) -> Q tt ctx') ->
  triple ctx (emitInstr opcode opv off len) Q.
Proof.
  intros [Hext Hgood] Hops Htargets HQ.
  unfold triple, emitInstr, ExeBuilder_Append, BPAlloc_Malloc.
  destruct (serves (alloc ctx) (requests (alloc ctx))); [|done].
  apply HQ; [|done|unfold clen; simpl; rewrite length_app; simpl; lia]. split.
  - eapply extends_trans; [exact Hext|]. split; simpl; try done; [lia|by eexists].
  - intros Hg0. specialize (Hgood Hg0). specialize (Hops Hg0). specialize (Htargets Hg0).
    destruct Hgood as [Gb Gc Go Gt]. split; unfold valid, plen, clen in *; simpl.
    + done.
    + intros p v Hp Hcell. rewrite length_app. simpl. specialize (Gc p v Hp Hcell). lia.
    + intros instr p Hin Hop. apply elem_of_app in Hin as [Hin|Hin].
      * by eapply Go.
      * apply list_elem_of_singleton in Hin. subst instr. by apply Hops.
    + intros instr op Hin Hop.
      assert (Hok : target_ok ctx op).
      { apply elem_of_app in Hin as [Hin|Hin].
        - by apply (Gt instr).
        - apply list_elem_of_singleton in Hin. subst instr. by apply Htargets. }
      destruct op; try done. unfold target_ok, clen in *. simpl.
      rewrite length_app. simpl. lia.
Qed.


Lemma newOffsetPromise_at ctx (Q : Promise -> CodegenContext -> Prop) :
  reach base ctx0 ctx ->
  (forall ctx', reach base ctx0 ctx' -> plen ctx' = S (plen ctx) ->
     clen ctx' = clen ctx -> Q (plen ctx) ctx') ->
  triple ctx newOffsetPromise Q.
Proof.
  intros [Hext Hgood] HQ.
  unfold triple, newOffsetPromise, Promise_New, BPAlloc_Malloc.
  destruct (serves (alloc ctx) (requests (alloc ctx))); [|done]. simpl.
  apply HQ; [|unfold plen; simpl; rewrite length_app; simpl; lia|done]. split.
  - eapply extends_trans; [exact Hext|]. split; simpl; try done; [lia| |].
    + unfold plen. simpl. rewrite length_app. lia.
    + exists []. by rewrite app_nil_r.
  - intros Hg0. specialize (Hgood Hg0).
    destruct Hgood as [Gb Gc Go Gt]. split; unfold valid, plen, clen in *; simpl.
    + rewrite length_app. lia.
    + intros p v Hp Hcell. apply (Gc p v Hp).
      apply lookup_app_Some in Hcell as [Hcell|[Hlen Hcell]]; [done|].
      apply list_lookup_singleton_Some in Hcell as [_ ?]. done.
    + intros instr p Hin Hop. rewrite length_app. specialize (Go instr p Hin Hop). lia.
    + done.
Qed.

Lemma resolve_here_at ctx promise (Q : unit -> CodegenContext -> Prop) :
  reach base ctx0 ctx ->
  (forall ctx', reach base ctx0 ctx' -> plen ctx' = plen ctx ->
     clen ctx' = clen ctx -> Q tt ctx') ->
  triple ctx (resolve_here promise) Q.
Proof.
  intros [Hext Hgood] HQ. unfold triple, resolve_here, Promise_Resolve.
  apply HQ; [|unfold plen; simpl; by rewrite length_insert|done]. split.
  - eapply extends_trans; [exact Hext|]. split; simpl; try done.
    + unfold plen. simpl. by rewrite length_insert.
    + exists []. by rewrite app_nil_r.
  - intros Hg0. specialize (Hgood Hg0).
    destruct Hgood as [Gb Gc Go Gt]. split; unfold valid, plen, clen in *; simpl.
    + by rewrite length_insert.
    + intros p v Hp Hcell. destruct (decide (p = promise)) as [->|Hne].
      * apply list_lookup_insert_Some in Hcell as [(_ & Hv & _)|[? _]]; [|done].
        injection Hv as <-. unfold ExeBuilder_InstrCount. lia.
      * rewrite list_lookup_insert_ne in Hcell by done. by apply (Gc p v).
    + intros instr p Hin Hop. rewrite length_insert. by apply (Go instr p).
    + done.
Qed.

Lemma instr_count_at ctx (Q : Z -> CodegenContext -> Prop) :
  Q (Z.of_nat (clen ctx)) ctx -> triple ctx instr_count Q.
Proof. done. Qed.

Lemma for_each_at {A : Type} (l : list A) (f : A -> Gen unit) : forall ctx,
  reach base ctx0 ctx ->
  (forall x ctx1, x ∈ l -> reach base ctx0 ctx1 -> (plen ctx <= plen ctx1)%nat ->
     goes_on base ctx0 (f x) ctx1) ->
  goes_on base ctx0 (for_each l f) ctx.
Proof.
  induction l as [|x l IH]; intros ctx Hreach Hf Q HQ; simpl.
  - apply triple_ret. by apply HQ.
  - apply triple_bind. apply (Hf x ctx); [left|done|done|].
    intros ctx1 Hreach1 Hplen1 Hclen1. apply IH; [done| |].
    + intros y ctx2 Hy Hreach2 Hplen2. apply Hf; [by right|done|lia].
    + intros ctx2 Hreach2 Hplen2 Hclen2. apply HQ; [done|lia..].
Qed.

Lemma for_index_at steps (body : Z -> Gen unit) : forall i ctx,
  reach base ctx0 ctx ->
  (forall j ctx1, i <= j < i + Z.of_nat steps -> reach base ctx0 ctx1 ->
     (plen ctx <= plen ctx1)%nat -> goes_on base ctx0 (body j) ctx1) ->
  goes_on base ctx0 (for_index steps i body) ctx.
Proof.
  induction steps as [|steps IH]; intros i ctx Hreach Hbody Q HQ; simpl.
  - apply triple_ret. by apply HQ.
  - apply triple_bind. apply (Hbody i ctx); [lia|done|done|].
    intros ctx1 Hreach1 Hplen1 Hclen1. apply IH; [done| |].
    + intros j ctx2 Hj Hreach2 Hplen2. apply Hbody; [lia|done|lia].
    + intros ctx2 Hreach2 Hplen2 Hclen2. apply HQ; [done|lia..].
Qed.

End Steps.

(** The side conditions of a step: a promise is one of the pass, a
    target is in range. *)
Ltac side :=
  let Hg := fresh "Hg" in
  let Hside := fresh "Hside" in
  intros Hg ? Hside;
  try (unfold targets in Hside; simpl in Hside);
  try set_unfold in Hside;
  destruct_or?; simplify_eq; try done;
  try match goal with
      | Hbd : good _ _ -> forall d, ?bd = Some d -> valid _ _ d |- valid _ _ ?d =>
        let V := fresh in pose proof (Hbd Hg d eq_refl) as V; unfold valid in V
      end;
  unfold valid, target_ok;
  repeat match goal with
         | Hr : reach _ _ _ |- _ => pose proof (good_base _ _ (proj2 Hr Hg)); clear Hr
         end;
  try done; lia.

(** *** The functions of the walk, given the recursive call *)

Section Helpers.
Variable base : nat.
Variable ctx0 : CodegenContext.


Lemma goes_on_bind (m : Gen unit) (k : Gen unit) ctx Q :
  goes_on base ctx0 m ctx ->
  (forall ctx', reach base ctx0 ctx' -> (plen ctx <= plen ctx')%nat ->
     (clen ctx <= clen ctx')%nat -> triple ctx' k Q) ->
  triple ctx (m ;; k) Q.
Proof. intros Hm Hk. apply triple_bind. by apply Hm. Qed.

Lemma emitInstr_goes_on ctx opcode opv off len :
  reach base ctx0 ctx ->
  (good base ctx0 -> forall p, OPTP_PROMISE p ∈ opv -> valid base ctx p) ->
  (good base ctx0 -> forall op, op ∈ targets (mkInstr opcode opv off len) ->
     target_ok ctx op) ->
  goes_on base ctx0 (emitInstr opcode opv off len) ctx.
Proof.
  intros Hreach Hops Htargets Q HQ. apply (emitInstr_at base ctx0); [done..|].
  intros. apply HQ; [done|lia..].
Qed.

Lemma resolve_here_goes_on ctx promise :
  reach base ctx0 ctx -> goes_on base ctx0 (resolve_here promise) ctx.
Proof.
  intros Hreach Q HQ. apply (resolve_here_at base ctx0); [done|].
  intros. apply HQ; [done|lia..].
Qed.

Lemma ret_goes_on ctx : reach base ctx0 ctx -> goes_on base ctx0 (ret tt) ctx.
Proof. intros Hreach Q HQ. apply triple_ret. by apply HQ. Qed.

Lemma report_goes_on ctx internal text : goes_on base ctx0 (reportErrorAndJump internal text) ctx.
Proof. intros Q HQ. apply triple_report. Qed.

Lemma malformed_goes_on ctx : goes_on base ctx0 malformed ctx.
Proof. intros Q HQ. apply triple_malformed. Qed.

(** The [POP 1] after a statement that is an expression. *)
Lemma pop_goes_on ctx (b : bool) off len :
  reach base ctx0 ctx ->
  goes_on base ctx0 (if b then emitInstr_POP1 off len else ret tt) ctx.
Proof.
  intros Hreach. destruct b; [|by apply ret_goes_on].
  apply emitInstr_goes_on; [done|side..].
Qed.

Lemma seq_goes_on (m k : Gen unit) ctx :
  goes_on base ctx0 m ctx ->
  (forall ctx', reach base ctx0 ctx' -> (plen ctx <= plen ctx')%nat ->
     (clen ctx <= clen ctx')%nat -> goes_on base ctx0 k ctx') ->
  goes_on base ctx0 (m ;; k) ctx.
Proof.
  intros Hm Hk Q HQ. apply goes_on_bind; [done|].
  intros ctx1 R1 P1 C1. apply Hk; [done..|].
  intros ctx2 R2 P2 C2. apply HQ; [done|lia..].
Qed.

Section Pieces.
Variable emitNode : emitter.
Hypothesis Hnode : emitter_ok base ctx0 emitNode.

Lemma nodes_go_on (l : list Node) bd ctx :
  reach base ctx0 ctx ->
  (good base ctx0 -> forall d, bd = Some d -> valid base ctx d) ->
  goes_on base ctx0 (for_each l (fun node => emitNode node bd)) ctx.
Proof.
  intros Hreach Hbd. apply (for_each_at base ctx0); [done|].
  intros node ctx1 _ R1 P1. apply Hnode; [done|side].
Qed.

Lemma emitInstrForFuncCallNode_goes_on off len func argv argc bd returns ctx :
  reach base ctx0 ctx ->
  (good base ctx0 -> forall d, bd = Some d -> valid base ctx d) ->
  goes_on base ctx0 (emitInstrForFuncCallNode emitNode off len func argv argc bd returns) ctx.
Proof.
  intros Hreach Hbd. unfold emitInstrForFuncCallNode.
  apply seq_goes_on; [by apply nodes_go_on|]. intros c1 R1 P1 C1.
  apply seq_goes_on; [apply Hnode; [done|side]|]. intros c2 R2 P2 C2.
  apply emitInstr_goes_on; [done|side..].
Qed.

Lemma emitInstrForFuncNode_goes_on off len name argv argc body bd ctx :
  reach base ctx0 ctx ->
  goes_on base ctx0 (emitInstrForFuncNode emitNode off len name argv argc body bd) ctx.
Proof.
  intros Hreach Q HQ. unfold emitInstrForFuncNode.
  apply triple_bind, (newOffsetPromise_at base ctx0); [done|]. intros c1 R1 P1 C1.
  apply triple_bind, (newOffsetPromise_at base ctx0); [done|]. intros c2 R2 P2 C2.
  apply goes_on_bind; [apply emitInstr_goes_on; [done|side..]|]. intros c3 R3 P3 C3.
  apply goes_on_bind; [apply emitInstr_goes_on; [done|side..]|]. intros c4 R4 P4 C4.
  apply goes_on_bind; [apply emitInstr_goes_on; [done|side..]|]. intros c5 R5 P5 C5.
  apply goes_on_bind; [apply emitInstr_goes_on; [done|side..]|]. intros c6 R6 P6 C6.
  apply goes_on_bind; [by apply resolve_here_goes_on|]. intros c7 R7 P7 C7.
  apply goes_on_bind.
  { apply (for_each_at base ctx0); [done|]. intros arg c R P _.
    apply seq_goes_on; [apply emitInstr_goes_on; [done|side..]|]. intros c' R' P' C'.
    apply emitInstr_goes_on; [done|side..]. }
  intros c8 R8 P8 C8.
  apply goes_on_bind; [apply Hnode; [done|side]|]. intros c9 R9 P9 C9.
  apply goes_on_bind; [by apply pop_goes_on|]. intros c10 R10 P10 C10.
  apply goes_on_bind; [apply emitInstr_goes_on; [done|side..]|]. intros c11 R11 P11 C11.
  apply resolve_here_goes_on; [done|]. intros c12 R12 P12 C12.
  apply HQ; [done|lia..].
Qed.

Lemma emitInstrForIfElseNode_goes_on off len condition true_branch false_branch bd ctx :
  reach base ctx0 ctx ->
  (good base ctx0 -> forall d, bd = Some d -> valid base ctx d) ->
  goes_on base ctx0 (emitInstrForIfElseNode emitNode off len condition true_branch false_branch bd) ctx.
Proof.
  intros Hreach Hbd Q HQ. unfold emitInstrForIfElseNode.
  apply goes_on_bind; [apply Hnode; [done|side]|]. intros c1 R1 P1 C1.
  destruct false_branch as [false_branch|].
  - apply triple_bind, (newOffsetPromise_at base ctx0); [done|]. intros c2 R2 P2 C2.
    apply triple_bind, (newOffsetPromise_at base ctx0); [done|]. intros c3 R3 P3 C3.
    apply goes_on_bind; [apply emitInstr_goes_on; [done|side..]|]. intros c4 R4 P4 C4.
    apply goes_on_bind; [apply Hnode; [done|side]|]. intros c5 R5 P5 C5.
    apply goes_on_bind; [by apply pop_goes_on|]. intros c6 R6 P6 C6.
    apply goes_on_bind; [apply emitInstr_goes_on; [done|side..]|]. intros c7 R7 P7 C7.
    apply goes_on_bind; [by apply resolve_here_goes_on|]. intros c8 R8 P8 C8.
    apply goes_on_bind; [apply Hnode; [done|side]|]. intros c9 R9 P9 C9.
    apply goes_on_bind; [by apply pop_goes_on|]. intros c10 R10 P10 C10.
    apply resolve_here_goes_on; [done|]. intros c11 R11 P11 C11.
    apply HQ; [done|lia..].
  - apply triple_bind, (newOffsetPromise_at base ctx0); [done|]. intros c2 R2 P2 C2.
    apply goes_on_bind; [apply emitInstr_goes_on; [done|side..]|]. intros c4 R4 P4 C4.
    apply goes_on_bind; [apply Hnode; [done|side]|]. intros c5 R5 P5 C5.
    apply goes_on_bind; [by apply pop_goes_on|]. intros c6 R6 P6 C6.
    apply resolve_here_goes_on; [done|]. intros c11 R11 P11 C11.
    apply HQ; [done|lia..].
Qed.

Lemma emitInstrForTarget_goes_on tuple_item bd ctx :
  reach base ctx0 ctx ->
  (good base ctx0 -> forall d, bd = Some d -> valid base ctx d) ->
  goes_on base ctx0 (emitInstrForTarget emitNode tuple_item bd) ctx.
Proof.
  intros Hreach Hbd. unfold emitInstrForTarget.
  destruct tuple_item; try apply report_goes_on.
  - apply emitInstr_goes_on; [done|side..].
  - apply seq_goes_on; [apply Hnode; [done|side]|]. intros c1 R1 P1 C1.
    apply seq_goes_on; [apply Hnode; [done|side]|]. intros c2 R2 P2 C2.
    apply emitInstr_goes_on; [done|side..].
Qed.

End Pieces.
End Helpers.

(** *** Tuples *)

Lemma leaves_not_nil root : leaves root <> [].
Proof.
  assert (Hgen : forall n root, (pairs root <= n)%nat -> leaves root <> []).
  { clear root. induction n as [|n IH]; intros root Hn.
    - destruct root as [[] off len [|a [|b rest]]| | | | | | | | | | | | | | | |]; simpl in *;
        try done; lia.
    - destruct root as [[] off len [|a [|b rest]]| | | | | | | | | | | | | | | |]; simpl in *;
        try done.
      intros Happ. apply app_eq_nil in Happ as [Ha _]. apply (IH a); [lia|done]. }
  by apply (Hgen (pairs root)).
Qed.

Lemma flattenTupleTree_outcome root : forall tuple max ctx,
  match flattenTupleTree root tuple max ctx with
  | Ok t ctx' => ctx' = ctx /\ t = tuple ++ leaves root
  | Jumped ctx' => ctx' = reported ctx "Static buffer is too small"
  | Malformed => True
  | Exhausted => False
  end.
Proof.
  assert (Hgen : forall n root tuple max ctx, (pairs root <= n)%nat ->
    match flattenTupleTree root tuple max ctx with
    | Ok t ctx' => ctx' = ctx /\ t = tuple ++ leaves root
    | Jumped ctx' => ctx' = reported ctx "Static buffer is too small"
    | Malformed => True
    | Exhausted => False
    end).
  { clear root. induction n as [|n IH]; intros root tuple max ctx Hn.
    - destruct root as [[] off len [|a [|b rest]]| | | | | | | | | [] | | | | | | |]; simpl in *;
        try lia; try done;
        unfold reportErrorAndJump, ret; destruct (max =? _); done.
    - destruct root as [[] off len [|a [|b rest]]| | | | | | | | | [] | | | | | | |]; simpl in *;
        try done;
        try (unfold reportErrorAndJump, ret; destruct (max =? _); done).
      unfold bind.
      pose proof (IH a tuple max ctx ltac:(lia)) as Ha.
      destruct (flattenTupleTree a tuple max ctx) as [t1 c1| | |]; try done.
      destruct Ha as [-> ->].
      pose proof (IH b (tuple ++ leaves a) max ctx ltac:(lia)) as Hb.
      destruct (flattenTupleTree b _ max ctx) as [t2 c2| | |]; try done.
      destruct Hb as [-> ->]. by rewrite app_assoc. }
  intros. by apply (Hgen (pairs root)).
Qed.

(** [flattenTupleTree] on a tree of the parser: the leaves, while
    they fit [max] cells. *)
Lemma flattenTupleTree_fits root : forall tuple max ctx,
  tuple_ok root = true ->
  Z.of_nat (length tuple) <= max ->
  flattenTupleTree root tuple max ctx =
  if Z.of_nat (length tuple + length (leaves root)) <=? max
  then Ok (tuple ++ leaves root) ctx
  else Jumped (reported ctx "Static buffer is too small").
Proof.
  assert (Hgen : forall n root tuple max ctx, (pairs root <= n)%nat ->
    tuple_ok root = true ->
    Z.of_nat (length tuple) <= max ->
    flattenTupleTree root tuple max ctx =
    if Z.of_nat (length tuple + length (leaves root)) <=? max
    then Ok (tuple ++ leaves root) ctx
    else Jumped (reported ctx "Static buffer is too small")).
  { clear root.
    assert (Hleaf : forall (root : Node) tuple max ctx,
      Z.of_nat (length tuple) <= max ->
      (if max =? Z.of_nat (length tuple)
       then reportErrorAndJump false "Static buffer is too small"
       else ret (tuple ++ [root])) ctx =
      if Z.of_nat (length tuple + 1) <=? max
      then Ok (tuple ++ [root]) ctx else Jumped (reported ctx "Static buffer is too small")).
    { intros root tuple max ctx Hlen.
      destruct (Z.eqb_spec max (Z.of_nat (length tuple)));
        destruct (Z.leb_spec (Z.of_nat (length tuple + 1)) max); try done; lia. }
    induction n as [|n IH]; intros root tuple max ctx Hn Hok Hlen.
    - destruct root as [[] off len [|a [|b rest]]| | | | | | | | | [] | | | | | | |]; simpl in *;
        try lia; try done; by apply Hleaf.
    - destruct root as [[] off len [|a [|b rest]]| | | | | | | | | [] | | | | | | |]; simpl in *;
        try done; try by apply Hleaf.
      apply andb_true_iff in Hok as [Hoka Hokb].
      unfold bind. rewrite (IH a tuple max ctx) by (done || lia).
      rewrite length_app.
      assert (Hb : (1 <= length (leaves b))%nat).
      { pose proof (leaves_not_nil b). destruct (leaves b); [done|simpl; lia]. }
      destruct (Z.leb_spec (Z.of_nat (length tuple + length (leaves a))) max) as [Hfit|Hnot].
      + rewrite (IH b) by (done || lia || (rewrite length_app; lia)).
        rewrite length_app, <- app_assoc, Nat.add_assoc. done.
      + destruct (Z.leb_spec (Z.of_nat (length tuple + (length (leaves a) + length (leaves b))))
                    max); [lia|done]. }
  intros. by apply (Hgen (pairs root)).
Qed.

(** X25: on a tree whose [EXPR_PAIR] nodes have two operands each,
    [flattenTupleTree] appends the leaves to the buffer from left to
    right and leaves the context as it was, when they fit the [max]
    cells of the buffer; when they do not, it takes the exit with the
    user error "Static buffer is too small", whatever the place of the
    leaf that did not fit. *)
Theorem flattenTupleTree_leaves root tuple max ctx :
  tuple_ok root = true ->
  Z.of_nat (length tuple) <= max ->
  flattenTupleTree root tuple max ctx =
  if Z.of_nat (length tuple + length (leaves root)) <=? max
  then Ok (tuple ++ leaves root) ctx
  else Jumped (reported ctx "Static buffer is too small").
Proof. apply flattenTupleTree_fits. Qed.

(** *** The walk *)

Section Walk.
Variable base : nat.
Variable ctx0 : CodegenContext.

Lemma flattenTupleTree_at root tuple max ctx (Q : list Node -> CodegenContext -> Prop) :
  Q (tuple ++ leaves root) ctx ->
  triple ctx (flattenTupleTree root tuple max) Q.
Proof.
  intros HQ. unfold triple.
  pose proof (flattenTupleTree_outcome root tuple max ctx) as Hout.
  destruct (flattenTupleTree root tuple max ctx) as [t c| | |]; try done.
  - by destruct Hout as [-> ->].
  - by subst.
Qed.

Section Pieces2.
Variable emitNode : emitter.
Hypothesis Hnode : emitter_ok base ctx0 emitNode.

Lemma emitInstrForAssignmentNode_goes_on off head bd ctx :
  reach base ctx0 ctx ->
  (good base ctx0 -> forall d, bd = Some d -> valid base ctx d) ->
  goes_on base ctx0 (emitInstrForAssignmentNode emitNode off head bd) ctx.
Proof.
  intros Hreach Hbd Q HQ. unfold emitInstrForAssignmentNode.
  destruct head as [|lop rest]; [done|].
  apply triple_bind, flattenTupleTree_at. simpl app.
  apply (goes_on_bind base ctx0).
  { destruct (_ =? 1).
    - destruct rest as [|rop rest]; [apply malformed_goes_on|]. apply Hnode; [done|side].
    - destruct rest as [|rop rest]; [apply malformed_goes_on|].
      destruct rop; try apply report_goes_on.
      apply emitInstrForFuncCallNode_goes_on; [done|done|side]. }
  intros c1 R1 P1 C1.
  apply (for_index_at base ctx0); [done| |intros; apply HQ; [done|lia..]].
  intros j c2 Hj R2 P2.
  destruct (leaves lop !! _) as [item|]; [|apply malformed_goes_on].
  apply seq_goes_on; [apply emitInstrForTarget_goes_on; [done|done|side]|].
  intros c3 R3 P3 C3. by apply pop_goes_on.
Qed.

Lemma emitInstrForItems_goes_on items bd : forall i ctx,
  reach base ctx0 ctx ->
  (good base ctx0 -> forall d, bd = Some d -> valid base ctx d) ->
  goes_on base ctx0 (emitInstrForItems emitNode items i bd) ctx.
Proof.
  induction items as [|item items IH]; intros i ctx Hreach Hbd; simpl.
  - by apply ret_goes_on.
  - apply seq_goes_on; [apply emitInstr_goes_on; [done|side..]|]. intros c1 R1 P1 C1.
    apply seq_goes_on; [apply Hnode; [done|side]|]. intros c2 R2 P2 C2.
    apply seq_goes_on; [apply emitInstr_goes_on; [done|side..]|]. intros c3 R3 P3 C3.
    apply IH; [done|side].
Qed.

Lemma emitInstrForPairs_goes_on items bd : forall keys ctx,
  reach base ctx0 ctx ->
  (good base ctx0 -> forall d, bd = Some d -> valid base ctx d) ->
  goes_on base ctx0 (emitInstrForPairs emitNode keys items bd) ctx.
Proof.
  induction items as [|item items IH]; intros keys ctx Hreach Hbd.
  - destruct keys; by apply ret_goes_on.
  - destruct keys as [|key keys]; simpl; [apply malformed_goes_on|].
    apply seq_goes_on; [apply Hnode; [done|side]|]. intros c1 R1 P1 C1.
    apply seq_goes_on; [apply Hnode; [done|side]|]. intros c2 R2 P2 C2.
    apply seq_goes_on; [apply emitInstr_goes_on; [done|side..]|]. intros c3 R3 P3 C3.
    apply IH; [done|side].
Qed.

End Pieces2.

Lemma emitInstrForNode_ok fuel : emitter_ok base ctx0 (emitInstrForNode fuel).
Proof.
  induction fuel as [|fuel IH]; intros node bd ctx Hreach Hbd; [by intros Q HQ|].
  destruct node; cbn [emitInstrForNode].
  - (* operators *)
    destruct kind; try apply malformed_goes_on; try apply report_goes_on;
      try (by apply emitInstrForAssignmentNode_goes_on);
      cbn [exprkind_to_opcode];
      (apply seq_goes_on; [by apply nodes_go_on|]; intros c1 R1 P1 C1;
       apply emitInstr_goes_on; [done|side..]).
  - apply emitInstr_goes_on; [done|side..].
  - apply emitInstr_goes_on; [done|side..].
  - apply emitInstr_goes_on; [done|side..].
  - apply emitInstr_goes_on; [done|side..].
  - apply seq_goes_on; [apply emitInstr_goes_on; [done|side..]|]. intros c1 R1 P1 C1.
    apply emitInstrForItems_goes_on; [done|done|side].
  - apply seq_goes_on; [apply emitInstr_goes_on; [done|side..]|]. intros c1 R1 P1 C1.
    apply emitInstrForPairs_goes_on; [done|done|side].
  - by apply emitInstrForFuncCallNode_goes_on.
  - apply seq_goes_on; [apply IH; [done|side]|]. intros c1 R1 P1 C1.
    apply seq_goes_on; [apply IH; [done|side]|]. intros c2 R2 P2 C2.
    apply emitInstr_goes_on; [done|side..].
  - destruct kind; try apply malformed_goes_on; (apply emitInstr_goes_on; [done|side..]).
  - destruct bd as [dest|]; [|apply report_goes_on].
    apply emitInstr_goes_on; [done|side..].
  - by apply emitInstrForIfElseNode_goes_on.
  - (* while *)
    intros Q HQ.
    apply triple_bind, (newOffsetPromise_at base ctx0); [done|]. intros c1 R1 P1 C1.
    apply triple_bind, (newOffsetPromise_at base ctx0); [done|]. intros c2 R2 P2 C2.
    apply (goes_on_bind base ctx0); [by apply resolve_here_goes_on|]. intros c3 R3 P3 C3.
    apply (goes_on_bind base ctx0); [apply IH; [done|side]|]. intros c4 R4 P4 C4.
    apply (goes_on_bind base ctx0); [apply emitInstr_goes_on; [done|side..]|]. intros c5 R5 P5 C5.
    apply (goes_on_bind base ctx0); [apply IH; [done|side]|]. intros c6 R6 P6 C6.
    apply (goes_on_bind base ctx0); [by apply pop_goes_on|]. intros c7 R7 P7 C7.
    apply (goes_on_bind base ctx0); [apply emitInstr_goes_on; [done|side..]|]. intros c8 R8 P8 C8.
    apply (resolve_here_goes_on base ctx0); [done|]. intros c9 R9 P9 C9.
    apply HQ; [done|lia..].
  - (* do-while *)
    intros Q HQ.
    apply triple_bind, (newOffsetPromise_at base ctx0); [done|]. intros c1 R1 P1 C1.
    apply triple_bind, instr_count_at.
    apply (goes_on_bind base ctx0); [apply IH; [done|side]|]. intros c2 R2 P2 C2.
    apply (goes_on_bind base ctx0); [by apply pop_goes_on|]. intros c3 R3 P3 C3.
    apply (goes_on_bind base ctx0); [apply IH; [done|side]|]. intros c4 R4 P4 C4.
    apply (goes_on_bind base ctx0); [apply emitInstr_goes_on; [done|side..]|]. intros c5 R5 P5 C5.
    apply (resolve_here_goes_on base ctx0); [done|]. intros c6 R6 P6 C6.
    apply HQ; [done|lia..].
  - (* block *)
    apply (for_each_at base ctx0); [done|]. intros stmt c1 _ R1 P1.
    apply seq_goes_on; [apply IH; [done|side]|]. intros c2 R2 P2 C2.
    by apply pop_goes_on.
  - (* return *)
    intros Q HQ. apply triple_bind, flattenTupleTree_at. simpl app.
    apply (goes_on_bind base ctx0); [by apply nodes_go_on|]. intros c1 R1 P1 C1.
    apply (emitInstr_goes_on base ctx0); [done|side..|]. intros. apply HQ; [done|lia..].
  - by apply emitInstrForFuncNode_goes_on.
Qed.

End Walk.

(** The walk from any context, whatever the break destination. *)
Lemma walk_outcome fuel node bd ctx :
  match emitInstrForNode fuel node bd ctx with
  | Ok _ ctx' => extends ctx ctx'
  | Jumped ctx' => occurred (error ctx') = true
  | Malformed | Exhausted => True
  end.
Proof.
  pose proof (emitInstrForNode_ok (S (plen ctx)) ctx fuel node bd ctx
                (reach_refl _ _)) as Hwalk.
  apply (Hwalk ltac:(intros [Hb _ _ _]; lia) (fun _ ctx' => extends ctx ctx')).
  by intros ctx' [Hext _] _ _.
Qed.

(** The walk of [compile], which has no break destination. *)
Lemma walk_good fuel node ctx :
  good (plen ctx) ctx ->
  match emitInstrForNode fuel node None ctx with
  | Ok _ ctx' => good (plen ctx) ctx'
  | _ => True
  end.
Proof.
  intros Hgood.
  pose proof (emitInstrForNode_ok (plen ctx) ctx fuel node None ctx
                (reach_refl _ _) ltac:(done)
                (fun _ ctx' => good (plen ctx) ctx')) as Hwalk.
  unfold triple in Hwalk. destruct (emitInstrForNode fuel node None ctx); try done.
  apply Hwalk. intros ctx' [_ Hg] _ _. by apply Hg.
Qed.

Lemma good_initial ctx : code (builder ctx) = [] -> good (plen ctx) ctx.
Proof.
  intros Hcode. split.
  - done.
  - intros p v Hp Hcell. apply lookup_lt_Some in Hcell. unfold plen in Hp. lia.
  - intros instr p Hin. rewrite Hcode in Hin. by apply elem_of_nil in Hin.
  - intros instr p Hin. rewrite Hcode in Hin. by apply elem_of_nil in Hin.
Qed.

(** A target of a finalized instruction is what [finalize_operand]
    made of a target of the instruction. *)
Lemma finalize_instr_targets alloc instr instr' op' :
  finalize_instr alloc instr = Some instr' ->
  op' ∈ targets instr' ->
  exists op, op ∈ targets instr /\ finalize_operand alloc op = Some op'.
Proof.
  unfold finalize_instr. destruct (mapM _ (operands instr)) as [opv|] eqn:Hopv; [|done].
  simpl. intros [= <-]. apply mapM_Some in Hopv.
  assert (Hin : forall l l', Forall2 (fun x y => finalize_operand alloc x = Some y) l l' ->
            op' ∈ l' -> exists op, op ∈ l /\ finalize_operand alloc op = Some op').
  { intros l l' Hall Hop. apply list_elem_of_lookup in Hop as [i Hi].
    destruct (Forall2_lookup_r _ _ _ _ _ Hall Hi) as (op & Hop & Hfin).
    exists op. split; [|done]. by eapply list_elem_of_lookup_2. }
  unfold targets. simpl.
  destruct (opcode instr); try (by intros Hnil; apply elem_of_nil in Hnil);
    try (by apply Hin).
  apply Hin. by apply Forall2_take.
Qed.


(** *** The fuel the walk needs *)

Lemma depth_in (l : list Node) node : node ∈ l -> (depth node <= list_max (map depth l))%nat.
Proof.
  induction l as [|x l IH]; intros Hin; [by apply elem_of_nil in Hin|].
  apply elem_of_cons in Hin as [->|Hin]; simpl; [lia|].
  specialize (IH Hin). lia.
Qed.

Lemma depth_leaves root node : node ∈ leaves root -> (depth node <= depth root)%nat.
Proof.
  assert (Hgen : forall n root, (pairs root <= n)%nat ->
            forall node, node ∈ leaves root -> (depth node <= depth root)%nat).
  { clear. induction n as [|n IH]; intros root Hn node Hin.
    - destruct root as [[] off len [|a [|b rest]]| | | | | | | | | | | | | | | |];
        simpl in Hn; try lia;
        apply list_elem_of_singleton in Hin; by subst.
    - destruct root as [[] off len [|a [|b rest]]| | | | | | | | | | | | | | | |];
        try (apply list_elem_of_singleton in Hin; by subst).
      simpl in Hn. cbn [leaves] in Hin. cbn [depth map list_max].
      apply elem_of_app in Hin as [Hin|Hin].
      + apply IH in Hin; [|lia]. simpl. lia.
      + apply IH in Hin; [|lia]. simpl. lia. }
  by apply (Hgen (pairs root)).
Qed.

Lemma ends_bind {A B : Type} (m : Gen A) (k : A -> Gen B) :
  ends m -> (forall a, ends (k a)) -> ends (bind m k).
Proof.
  intros Hm Hk ctx. unfold bind. specialize (Hm ctx).
  destruct (m ctx); try done. apply Hk.
Qed.

Lemma ends_emitInstr opcode opv off len : ends (emitInstr opcode opv off len).
Proof.
  intros ctx. unfold emitInstr, ExeBuilder_Append.
  by destruct (BPAlloc_Malloc (alloc ctx)).
Qed.

Lemma ends_newOffsetPromise : ends newOffsetPromise.
Proof. intros ctx. unfold newOffsetPromise. by destruct (Promise_New (alloc ctx)) as [[]|]. Qed.

Lemma ends_for_each {A : Type} (l : list A) (f : A -> Gen unit) :
  (forall x, x ∈ l -> ends (f x)) -> ends (for_each l f).
Proof.
  induction l as [|x l IH]; intros Hf; simpl; [done|].
  apply ends_bind; [apply Hf; left|]. intros _. apply IH. intros y Hy. apply Hf. by right.
Qed.

Lemma ends_for_index steps (body : Z -> Gen unit) : forall i,
  (forall j, ends (body j)) -> ends (for_index steps i body).
Proof.
  induction steps as [|steps IH]; intros i Hbody; simpl; [done|].
  apply ends_bind; [done|]. intros _. by apply IH.
Qed.

Lemma ends_pop (b : bool) off len : ends (if b then emitInstr_POP1 off len else ret tt).
Proof. destruct b; [apply ends_emitInstr|done]. Qed.

Lemma ends_flattenTupleTree root tuple max : ends (flattenTupleTree root tuple max).
Proof.
  intros ctx Hrun. pose proof (flattenTupleTree_outcome root tuple max ctx) as Hout.
  by rewrite Hrun in Hout.
Qed.

Section Pieces3.
Variable emitNode : emitter.
Variable bound : nat.
Hypothesis Hnode : forall node bd, (depth node <= bound)%nat -> ends (emitNode node bd).

Lemma ends_nodes (l : list Node) bd :
  (list_max (map depth l) <= bound)%nat ->
  ends (for_each l (fun node => emitNode node bd)).
Proof.
  intros Hl. apply ends_for_each. intros node Hin. apply Hnode.
  apply depth_in in Hin. lia.
Qed.

Lemma ends_emitInstrForFuncCallNode off len func argv argc bd returns :
  (depth func <= bound)%nat -> (list_max (map depth argv) <= bound)%nat ->
  ends (emitInstrForFuncCallNode emitNode off len func argv argc bd returns).
Proof.
  intros Hfunc Hargv. unfold emitInstrForFuncCallNode.
  apply ends_bind; [by apply ends_nodes|]. intros _.
  apply ends_bind; [by apply Hnode|]. intros _. apply ends_emitInstr.
Qed.

Lemma ends_emitInstrForTarget item bd :
  (depth item <= S bound)%nat -> ends (emitInstrForTarget emitNode item bd).
Proof.
  intros Hitem. unfold emitInstrForTarget. destruct item; try done; simpl in Hitem.
  - apply ends_emitInstr.
  - apply ends_bind; [apply Hnode; lia|]. intros _.
    apply ends_bind; [apply Hnode; lia|]. intros _. apply ends_emitInstr.
Qed.

Lemma ends_emitInstrForAssignmentNode off head bd :
  (list_max (map depth head) <= bound)%nat ->
  ends (emitInstrForAssignmentNode emitNode off head bd).
Proof.
  intros Hhead. unfold emitInstrForAssignmentNode.
  destruct head as [|lop rest]; [done|]. simpl in Hhead.
  intros ctx. unfold bind at 1.
  pose proof (flattenTupleTree_outcome lop [] 32 ctx) as Hout.
  destruct (flattenTupleTree lop [] 32 ctx) as [tuple ctx1| | |]; try done.
  destruct Hout as [-> ->]. simpl app. revert ctx.
  apply ends_bind.
  - destruct (_ =? 1).
    + destruct rest as [|rop rest]; [done|]. simpl in Hhead. apply Hnode. lia.
    + destruct rest as [|rop rest]; [done|]. simpl in Hhead.
      destruct rop; try done. simpl in Hhead.
      apply ends_emitInstrForFuncCallNode; lia.
  - intros _. apply ends_for_index. intros j.
    destruct (leaves lop !! _) as [item|] eqn:Hitem; [|done].
    apply ends_bind; [|intros _; apply ends_pop].
    apply ends_emitInstrForTarget.
    apply list_elem_of_lookup_2, depth_leaves in Hitem. lia.
Qed.

Lemma ends_emitInstrForItems items bd : forall i,
  (list_max (map depth items) <= bound)%nat ->
  ends (emitInstrForItems emitNode items i bd).
Proof.
  induction items as [|item items IH]; intros i Hitems; simpl; [done|].
  simpl in Hitems.
  apply ends_bind; [apply ends_emitInstr|]. intros _.
  apply ends_bind; [apply Hnode; lia|]. intros _.
  apply ends_bind; [apply ends_emitInstr|]. intros _.
  apply IH. lia.
Qed.

Lemma ends_emitInstrForPairs items bd : forall keys,
  (list_max (map depth keys) <= bound)%nat ->
  (list_max (map depth items) <= bound)%nat ->
  ends (emitInstrForPairs emitNode keys items bd).
Proof.
  induction items as [|item items IH]; intros keys Hkeys Hitems.
  - by destruct keys.
  - destruct keys as [|key keys]; simpl; [done|]. simpl in Hkeys, Hitems.
    apply ends_bind; [apply Hnode; lia|]. intros _.
    apply ends_bind; [apply Hnode; lia|]. intros _.
    apply ends_bind; [apply ends_emitInstr|]. intros _.
    apply IH; lia.
Qed.

Lemma ends_emitInstrForFuncNode off len name argv argc body bd :
  (depth body <= bound)%nat ->
  ends (emitInstrForFuncNode emitNode off len name argv argc body bd).
Proof.
  intros Hbody. unfold emitInstrForFuncNode.
  apply ends_bind; [apply ends_newOffsetPromise|]. intros func_index.
  apply ends_bind; [apply ends_newOffsetPromise|]. intros jump_index.
  do 4 (apply ends_bind; [apply ends_emitInstr|]; intros _).
  apply ends_bind; [done|]. intros _.
  apply ends_bind.
  { apply ends_for_each. intros arg _.
    apply ends_bind; [apply ends_emitInstr|]. intros _. apply ends_emitInstr. }
  intros _. apply ends_bind; [by apply Hnode|]. intros _.
  apply ends_bind; [apply ends_pop|]. intros _.
  apply ends_bind; [apply ends_emitInstr|]. intros _. done.
Qed.

Lemma ends_emitInstrForIfElseNode off len condition true_branch false_branch bd :
  (depth condition <= bound)%nat -> (depth true_branch <= bound)%nat ->
  (match false_branch with Some node => depth node | None => O end <= bound)%nat ->
  ends (emitInstrForIfElseNode emitNode off len condition true_branch false_branch bd).
Proof.
  intros Hc Ht Hf. unfold emitInstrForIfElseNode.
  apply ends_bind; [by apply Hnode|]. intros _.
  destruct false_branch as [false_branch|].
  - apply ends_bind; [apply ends_newOffsetPromise|]. intros else_offset.
    apply ends_bind; [apply ends_newOffsetPromise|]. intros done_offset.
    apply ends_bind; [apply ends_emitInstr|]. intros _.
    apply ends_bind; [by apply Hnode|]. intros _.
    apply ends_bind; [apply ends_pop|]. intros _.
    apply ends_bind; [apply ends_emitInstr|]. intros _.
    apply ends_bind; [done|]. intros _.
    apply ends_bind; [by apply Hnode|]. intros _.
    apply ends_bind; [apply ends_pop|]. intros _. done.
  - apply ends_bind; [apply ends_newOffsetPromise|]. intros done_offset.
    apply ends_bind; [apply ends_emitInstr|]. intros _.
    apply ends_bind; [by apply Hnode|]. intros _.
    apply ends_bind; [apply ends_pop|]. intros _. done.
Qed.

End Pieces3.

Lemma ends_emitInstrForNode fuel : forall node bd,
  (depth node <= fuel)%nat -> ends (emitInstrForNode fuel node bd).
Proof.
  induction fuel as [|fuel IH]; intros node bd Hdepth.
  { destruct node; simpl in Hdepth; lia. }
  destruct node; cbn [emitInstrForNode]; simpl in Hdepth.
  - destruct kind; try done;
      try (apply (ends_emitInstrForAssignmentNode _ fuel IH); lia);
      cbn [exprkind_to_opcode];
      (apply ends_bind; [apply (ends_nodes _ fuel IH); lia|intros _; apply ends_emitInstr]).
  - apply ends_emitInstr.
  - apply ends_emitInstr.
  - apply ends_emitInstr.
  - apply ends_emitInstr.
  - apply ends_bind; [apply ends_emitInstr|]. intros _.
    apply (ends_emitInstrForItems _ fuel IH). lia.
  - apply ends_bind; [apply ends_emitInstr|]. intros _.
    apply (ends_emitInstrForPairs _ fuel IH); lia.
  - apply (ends_emitInstrForFuncCallNode _ fuel IH); lia.
  - apply ends_bind; [apply IH; lia|]. intros _.
    apply ends_bind; [apply IH; lia|]. intros _. apply ends_emitInstr.
  - destruct kind; try done; apply ends_emitInstr.
  - destruct bd; [apply ends_emitInstr|done].
  - apply (ends_emitInstrForIfElseNode _ fuel IH); lia.
  - apply ends_bind; [apply ends_newOffsetPromise|]. intros start_offset.
    apply ends_bind; [apply ends_newOffsetPromise|]. intros end_offset.
    apply ends_bind; [done|]. intros _.
    apply ends_bind; [apply IH; lia|]. intros _.
    apply ends_bind; [apply ends_emitInstr|]. intros _.
    apply ends_bind; [apply IH; lia|]. intros _.
    apply ends_bind; [apply ends_pop|]. intros _.
    apply ends_bind; [apply ends_emitInstr|]. intros _. done.
  - apply ends_bind; [apply ends_newOffsetPromise|]. intros end_offset.
    apply ends_bind; [done|]. intros start.
    apply ends_bind; [apply IH; lia|]. intros _.
    apply ends_bind; [apply ends_pop|]. intros _.
    apply ends_bind; [apply IH; lia|]. intros _.
    apply ends_bind; [apply ends_emitInstr|]. intros _. done.
  - apply ends_for_each. intros stmt Hin. apply depth_in in Hin.
    apply ends_bind; [apply IH; lia|]. intros _. apply ends_pop.
  - intros ctx. unfold bind at 1.
    pose proof (flattenTupleTree_outcome node [] 32 ctx) as Hout.
    destruct (flattenTupleTree node [] 32 ctx) as [tuple ctx1| | |]; try done.
    destruct Hout as [-> ->]. simpl app. revert ctx.
    apply ends_bind; [|intros _; apply ends_emitInstr].
    apply ends_for_each. intros item Hin. apply IH. apply depth_leaves in Hin. lia.
  - apply (ends_emitInstrForFuncNode _ fuel IH). lia.
Qed.


(** *** Breaks and loops *)

Lemma forallb_elem {A : Type} (f : A -> bool) (l : list A) x :
  forallb f l = true -> x ∈ l -> f x = true.
Proof.
  induction l as [|y l IH]; intros Hall Hin; [by apply elem_of_nil in Hin|].
  simpl in Hall. apply andb_true_iff in Hall as [Hy Hl].
  apply elem_of_cons in Hin as [->|Hin]; [done|by apply IH].
Qed.

Lemma breaks_in_loops_leaves in_loop root node :
  breaks_in_loops in_loop root = true -> node ∈ leaves root ->
  breaks_in_loops in_loop node = true.
Proof.
  assert (Hgen : forall n root, (pairs root <= n)%nat ->
            breaks_in_loops in_loop root = true ->
            forall node, node ∈ leaves root -> breaks_in_loops in_loop node = true).
  { clear. induction n as [|n IH]; intros root Hn Hroot node Hin.
    - destruct root as [[] off len [|a [|b rest]]| | | | | | | | | | | | | | | |];
        simpl in Hn; try lia;
        apply list_elem_of_singleton in Hin; by subst.
    - destruct root as [[] off len [|a [|b rest]]| | | | | | | | | | | | | | | |];
        try (apply list_elem_of_singleton in Hin; by subst).
      simpl in Hn. cbn [leaves] in Hin. cbn [breaks_in_loops forallb] in Hroot.
      apply andb_true_iff in Hroot as [Ha Hrest].
      apply andb_true_iff in Hrest as [Hb _].
      apply elem_of_app in Hin as [Hin|Hin]; [apply (IH a)|apply (IH b)]; (lia || done). }
  intros Hroot Hin. by apply (Hgen (pairs root) root).
Qed.

Lemma quiet_bind {A B : Type} (m : Gen A) (k : A -> Gen B) :
  quiet m -> (forall a, quiet (k a)) -> quiet (bind m k).
Proof.
  intros Hm Hk ctx ctx'. unfold bind. specialize (Hm ctx).
  destruct (m ctx) as [a c| | |]; try done.
  - apply Hk.
  - intros [= <-]. by apply Hm.
Qed.

Lemma quiet_ret {A : Type} (a : A) : quiet (ret a).
Proof. done. Qed.

Lemma quiet_report {A : Type} internal text :
  text <> "Break not inside a loop" -> quiet (@reportErrorAndJump A internal text).
Proof. intros Htext ctx ctx' [= <-]. done. Qed.

Lemma quiet_emitInstr opcode opv off len : quiet (emitInstr opcode opv off len).
Proof.
  intros ctx ctx'. unfold emitInstr, ExeBuilder_Append.
  destruct (BPAlloc_Malloc (alloc ctx)); [done|]. by intros [= <-].
Qed.

Lemma quiet_newOffsetPromise : quiet newOffsetPromise.
Proof.
  intros ctx ctx'. unfold newOffsetPromise.
  destruct (Promise_New (alloc ctx)) as [[]|]; [done|]. by intros [= <-].
Qed.

Lemma quiet_for_each {A : Type} (l : list A) (f : A -> Gen unit) :
  (forall x, x ∈ l -> quiet (f x)) -> quiet (for_each l f).
Proof.
  induction l as [|x l IH]; intros Hf; simpl; [done|].
  apply quiet_bind; [apply Hf; left|]. intros _. apply IH. intros y Hy. apply Hf. by right.
Qed.

Lemma quiet_for_index steps (body : Z -> Gen unit) : forall i,
  (forall j, quiet (body j)) -> quiet (for_index steps i body).
Proof.
  induction steps as [|steps IH]; intros i Hbody; simpl; [done|].
  apply quiet_bind; [done|]. intros _. by apply IH.
Qed.

Lemma quiet_pop (b : bool) off len : quiet (if b then emitInstr_POP1 off len else ret tt).
Proof. destruct b; [apply quiet_emitInstr|done]. Qed.

Section Pieces4.
Variable emitNode : emitter.
Hypothesis Hnode : forall node bd,
  breaks_in_loops (has_dest bd) node = true -> quiet (emitNode node bd).

Lemma quiet_nodes (l : list Node) bd :
  forallb (breaks_in_loops (has_dest bd)) l = true ->
  quiet (for_each l (fun node => emitNode node bd)).
Proof.
  intros Hl. apply quiet_for_each. intros node Hin. apply Hnode.
  by eapply forallb_elem.
Qed.

Lemma quiet_emitInstrForFuncCallNode off len func argv argc bd returns :
  breaks_in_loops (has_dest bd) func = true ->
  forallb (breaks_in_loops (has_dest bd)) argv = true ->
  quiet (emitInstrForFuncCallNode emitNode off len func argv argc bd returns).
Proof.
  intros Hfunc Hargv. unfold emitInstrForFuncCallNode.
  apply quiet_bind; [by apply quiet_nodes|]. intros _.
  apply quiet_bind; [by apply Hnode|]. intros _. apply quiet_emitInstr.
Qed.

Lemma quiet_emitInstrForTarget item bd :
  breaks_in_loops (has_dest bd) item = true ->
  quiet (emitInstrForTarget emitNode item bd).
Proof.
  intros Hitem. unfold emitInstrForTarget.
  destruct item; try (by apply quiet_report); simpl in Hitem.
  - apply quiet_emitInstr.
  - apply andb_true_iff in Hitem as [Hset Hidx].
    apply quiet_bind; [by apply Hnode|]. intros _.
    apply quiet_bind; [by apply Hnode|]. intros _. apply quiet_emitInstr.
Qed.

Lemma quiet_emitInstrForAssignmentNode off head bd :
  forallb (breaks_in_loops (has_dest bd)) head = true ->
  quiet (emitInstrForAssignmentNode emitNode off head bd).
Proof.
  intros Hhead. unfold emitInstrForAssignmentNode.
  destruct head as [|lop rest]; [done|]. simpl in Hhead.
  apply andb_true_iff in Hhead as [Hlop Hrest].
  intros ctx ctx'. unfold bind at 1.
  pose proof (flattenTupleTree_outcome lop [] 32 ctx) as Hout.
  destruct (flattenTupleTree lop [] 32 ctx) as [tuple ctx1| | |]; try done.
  2: { intros [= <-]. by subst. }
  destruct Hout as [-> ->]. simpl app. revert ctx ctx'.
  apply quiet_bind.
  - destruct (_ =? 1).
    + destruct rest as [|rop rest]; [done|]. simpl in Hrest.
      apply andb_true_iff in Hrest as [Hrop _]. by apply Hnode.
    + destruct rest as [|rop rest]; [done|]. simpl in Hrest.
      apply andb_true_iff in Hrest as [Hrop _].
      destruct rop; try (by apply quiet_report). simpl in Hrop.
      apply andb_true_iff in Hrop as [Hfunc Hargv].
      by apply quiet_emitInstrForFuncCallNode.
  - intros _. apply quiet_for_index. intros j.
    destruct (leaves lop !! _) as [item|] eqn:Hitem; [|done].
    apply quiet_bind; [|intros _; apply quiet_pop].
    apply quiet_emitInstrForTarget.
    apply list_elem_of_lookup_2 in Hitem. by eapply breaks_in_loops_leaves.
Qed.

Lemma quiet_emitInstrForItems items bd : forall i,
  forallb (breaks_in_loops (has_dest bd)) items = true ->
  quiet (emitInstrForItems emitNode items i bd).
Proof.
  induction items as [|item items IH]; intros i Hitems; simpl; [done|].
  simpl in Hitems. apply andb_true_iff in Hitems as [Hitem Hitems].
  apply quiet_bind; [apply quiet_emitInstr|]. intros _.
  apply quiet_bind; [by apply Hnode|]. intros _.
  apply quiet_bind; [apply quiet_emitInstr|]. intros _.
  by apply IH.
Qed.

Lemma quiet_emitInstrForPairs items bd : forall keys,
  forallb (breaks_in_loops (has_dest bd)) keys = true ->
  forallb (breaks_in_loops (has_dest bd)) items = true ->
  quiet (emitInstrForPairs emitNode keys items bd).
Proof.
  induction items as [|item items IH]; intros keys Hkeys Hitems.
  - by destruct keys.
  - destruct keys as [|key keys]; simpl; [done|]. simpl in Hkeys, Hitems.
    apply andb_true_iff in Hkeys as [Hkey Hkeys].
    apply andb_true_iff in Hitems as [Hitem Hitems].
    apply quiet_bind; [by apply Hnode|]. intros _.
    apply quiet_bind; [by apply Hnode|]. intros _.
    apply quiet_bind; [apply quiet_emitInstr|]. intros _.
    by apply IH.
Qed.

Lemma quiet_emitInstrForFuncNode off len name argv argc body bd :
  breaks_in_loops false body = true ->
  quiet (emitInstrForFuncNode emitNode off len name argv argc body bd).
Proof.
  intros Hbody. unfold emitInstrForFuncNode.
  apply quiet_bind; [apply quiet_newOffsetPromise|]. intros func_index.
  apply quiet_bind; [apply quiet_newOffsetPromise|]. intros jump_index.
  do 4 (apply quiet_bind; [apply quiet_emitInstr|]; intros _).
  apply quiet_bind; [done|]. intros _.
  apply quiet_bind.
  { apply quiet_for_each. intros arg _.
    apply quiet_bind; [apply quiet_emitInstr|]. intros _. apply quiet_emitInstr. }
  intros _. apply quiet_bind; [by apply (Hnode body None)|]. intros _.
  apply quiet_bind; [apply quiet_pop|]. intros _.
  apply quiet_bind; [apply quiet_emitInstr|]. intros _. done.
Qed.

Lemma quiet_emitInstrForIfElseNode off len condition true_branch false_branch bd :
  breaks_in_loops (has_dest bd) condition = true ->
  breaks_in_loops (has_dest bd) true_branch = true ->
  match false_branch with
  | Some node => breaks_in_loops (has_dest bd) node
  | None => true
  end = true ->
  quiet (emitInstrForIfElseNode emitNode off len condition true_branch false_branch bd).
Proof.
  intros Hc Ht Hf. unfold emitInstrForIfElseNode.
  apply quiet_bind; [by apply Hnode|]. intros _.
  destruct false_branch as [false_branch|].
  - apply quiet_bind; [apply quiet_newOffsetPromise|]. intros else_offset.
    apply quiet_bind; [apply quiet_newOffsetPromise|]. intros done_offset.
    apply quiet_bind; [apply quiet_emitInstr|]. intros _.
    apply quiet_bind; [by apply Hnode|]. intros _.
    apply quiet_bind; [apply quiet_pop|]. intros _.
    apply quiet_bind; [apply quiet_emitInstr|]. intros _.
    apply quiet_bind; [done|]. intros _.
    apply quiet_bind; [by apply Hnode|]. intros _.
    apply quiet_bind; [apply quiet_pop|]. intros _. done.
  - apply quiet_bind; [apply quiet_newOffsetPromise|]. intros done_offset.
    apply quiet_bind; [apply quiet_emitInstr|]. intros _.
    apply quiet_bind; [by apply Hnode|]. intros _.
    apply quiet_bind; [apply quiet_pop|]. intros _. done.
Qed.

End Pieces4.

Lemma quiet_emitInstrForNode fuel : forall node bd,
  breaks_in_loops (has_dest bd) node = true -> quiet (emitInstrForNode fuel node bd).
Proof.
  induction fuel as [|fuel IH]; intros node bd Hbreaks; [done|].
  destruct node; cbn [emitInstrForNode]; cbn [breaks_in_loops] in Hbreaks.
  - destruct kind; try done; try (by apply quiet_report);
      try (by apply (quiet_emitInstrForAssignmentNode _ IH));
      cbn [exprkind_to_opcode];
      (apply quiet_bind; [by apply (quiet_nodes _ IH)|intros _; apply quiet_emitInstr]).
  - apply quiet_emitInstr.
  - apply quiet_emitInstr.
  - apply quiet_emitInstr.
  - apply quiet_emitInstr.
  - apply quiet_bind; [apply quiet_emitInstr|]. intros _.
    by apply (quiet_emitInstrForItems _ IH).
  - apply andb_true_iff in Hbreaks as [Hkeys Hitems].
    apply quiet_bind; [apply quiet_emitInstr|]. intros _.
    by apply (quiet_emitInstrForPairs _ IH).
  - apply andb_true_iff in Hbreaks as [Hfunc Hargv].
    by apply (quiet_emitInstrForFuncCallNode _ IH).
  - apply andb_true_iff in Hbreaks as [Hset Hidx].
    apply quiet_bind; [by apply IH|]. intros _.
    apply quiet_bind; [by apply IH|]. intros _. apply quiet_emitInstr.
  - destruct kind; try done; apply quiet_emitInstr.
  - destruct bd; [apply quiet_emitInstr|done].
  - apply andb_true_iff in Hbreaks as [Hct Hf].
    apply andb_true_iff in Hct as [Hc Ht].
    by apply (quiet_emitInstrForIfElseNode _ IH).
  - apply andb_true_iff in Hbreaks as [Hc Hb].
    apply quiet_bind; [apply quiet_newOffsetPromise|]. intros start_offset.
    apply quiet_bind; [apply quiet_newOffsetPromise|]. intros end_offset.
    apply quiet_bind; [done|]. intros _.
    apply quiet_bind; [by apply IH|]. intros _.
    apply quiet_bind; [apply quiet_emitInstr|]. intros _.
    apply quiet_bind; [by apply (IH _ (Some end_offset))|]. intros _.
    apply quiet_bind; [apply quiet_pop|]. intros _.
    apply quiet_bind; [apply quiet_emitInstr|]. intros _. done.
  - apply andb_true_iff in Hbreaks as [Hb Hc].
    apply quiet_bind; [apply quiet_newOffsetPromise|]. intros end_offset.
    apply quiet_bind; [done|]. intros start.
    apply quiet_bind; [by apply (IH _ (Some end_offset))|]. intros _.
    apply quiet_bind; [apply quiet_pop|]. intros _.
    apply quiet_bind; [by apply IH|]. intros _.
    apply quiet_bind; [apply quiet_emitInstr|]. intros _. done.
  - apply quiet_for_each. intros stmt Hin.
    apply quiet_bind; [|intros _; apply quiet_pop].
    apply IH. by eapply forallb_elem.
  - intros ctx ctx'. unfold bind at 1.
    pose proof (flattenTupleTree_outcome node [] 32 ctx) as Hout.
    destruct (flattenTupleTree node [] 32 ctx) as [tuple ctx1| | |]; try done.
    2: { intros [= <-]. by subst. }
    destruct Hout as [-> ->]. simpl app. revert ctx ctx'.
    apply quiet_bind; [|intros _; apply quiet_emitInstr].
    apply quiet_for_each. intros item Hin. apply IH.
    by eapply breaks_in_loops_leaves.
  - by apply (quiet_emitInstrForFuncNode _ IH).
Qed.

(** X9: the walk reports "Break not inside a loop" only for a tree
    that has a [break] outside the loops of its function.  When every
    [break] of the tree is in the body of a [while] or a [do-while] with
    no function definition between the loop and the [break], or the
    node is lowered with a break destination and no [break] of it is in
    a function defined there, the walk does not take the exit with that
    report, whatever the allocator does. *)
Theorem break_report_needs_break_outside_loops fuel node break_dest ctx ctx' :
  breaks_in_loops (has_dest break_dest) node = true ->
  emitInstrForNode fuel node break_dest ctx = Jumped ctx' ->
  message (error ctx') <> "Break not inside a loop".
Proof. intros Hbreaks. by apply quiet_emitInstrForNode. Qed.

(** *** [compile] *)

Section CompileFacts.
Variable BPAlloc_Init : option BPAlloc.

Lemma initCodegenContext_Some err alloc ctx e :
  initCodegenContext BPAlloc_Init err alloc = (Some ctx, e) ->
  error ctx = err /\ code (builder ctx) = [].
Proof.
  unfold initCodegenContext, ExeBuilder_New, BPAlloc_Malloc.
  destruct alloc as [a|]; [|destruct BPAlloc_Init as [a|]]; try done;
    destruct (serves a (requests a)); try done; by intros [= <- <-].
Qed.

Lemma initCodegenContext_None err alloc e :
  initCodegenContext BPAlloc_Init err alloc = (None, e) ->
  alloc = None /\ BPAlloc_Init = None /\ e = Error_Report err true "No memory" \/
  e = err /\
  exists a, (alloc = Some a \/ alloc = None /\ BPAlloc_Init = Some a) /\
            ExeBuilder_New a = None.
Proof.
  unfold initCodegenContext.
  destruct alloc as [a|]; [|destruct BPAlloc_Init as [a|]].
  - destruct (ExeBuilder_New a) as [[b a']|] eqn:Hnew; [done|].
    intros [= <-]. right. split; [done|]. exists a. split; [by left|done].
  - destruct (ExeBuilder_New a) as [[b a']|] eqn:Hnew; [done|].
    intros [= <-]. right. split; [done|]. exists a. split; [by right|done].
  - intros [= <-]. by left.
Qed.

(** What the three steps of [compile] have done when they end well. *)
Lemma compile_steps fuel ast ctx exe ctx' :
  (emitInstrForNode fuel (root ast) None ;;
   emitInstr OPCODE_RETURN [OPTP_INT 0] (Source_GetSize (src ast)) 0 ;;
   makeExecutableAndFreeCodegenContext (src ast)) ctx = Ok exe ctx' ->
  exists ctx1,
    emitInstrForNode fuel (root ast) None ctx = Ok tt ctx1 /\
    error ctx' = error ctx1 /\
    promises (alloc ctx') = promises (alloc ctx1) /\
    exe_source exe = Some (src ast) /\
    mapM (finalize_instr (alloc ctx')) (code (builder ctx1) ++ [final_RETURN (src ast)])
    = Some (body exe).
Proof.
  unfold bind. destruct (emitInstrForNode fuel (root ast) None ctx) as [[] ctx1| | |];
    try done.
  unfold emitInstr, ExeBuilder_Append, BPAlloc_Malloc.
  destruct (serves (alloc ctx1) (requests (alloc ctx1))); [|done].
  unfold makeExecutableAndFreeCodegenContext, ExeBuilder_Finalize. simpl.
  destruct (mapM _ _) as [body|] eqn:Hbody; [|done].
  intros [= <- <-]. exists ctx1. simpl. done.
Qed.

(** X21: when [compile] returns an executable the error channel is
    as it was given, the executable is bound to the source of the tree,
    and its last instruction is [RETURN 0] with the size of the source
    as its offset and the length 0. *)
Theorem compile_returns_program fuel ast scratch err exe err' :
  compile BPAlloc_Init fuel ast scratch err = Returns (Some exe, err') ->
  err' = err /\
  exe_source exe = Some (src ast) /\
  exists front, body exe = front ++ [final_RETURN (src ast)].
Proof.
  unfold compile.
  destruct (initCodegenContext BPAlloc_Init err scratch) as [[ctx|] e] eqn:Hinit; [|done].
  apply initCodegenContext_Some in Hinit as [Herr _].
  destruct ((_ ;; _) ctx) as [exe0 ctx'| | |] eqn:Hrun; try done.
  intros [= -> <-]. apply compile_steps in Hrun as (ctx1 & Hwalk & He & _ & Hsrc & Hbody).
  pose proof (walk_outcome fuel (root ast) None ctx) as Hext.
  rewrite Hwalk in Hext. destruct Hext as [Hext _ _ _ _ _].
  split; [congruence|]. split; [done|].
  apply mapM_Some in Hbody. apply Forall2_app_inv_l in Hbody as (front & last & _ & Hlast & ->).
  exists front. f_equal.
  apply Forall2_cons_inv_l in Hlast as (instr & rest & Hinstr & Hrest & ->).
  apply Forall2_nil_inv_l in Hrest as ->.
  by injection Hinstr as <-.
Qed.

(** X22: when [compile] returns [NULL], the set-up has failed.  No
    allocator was given and [BPAlloc_Init] returned [NULL], and the
    internal error "No memory" has been reported; or [ExeBuilder_New]
    returned [NULL], and then nothing has been reported: the error
    channel is as it was given. *)
Theorem compile_returns_NULL fuel ast scratch err err' :
  compile BPAlloc_Init fuel ast scratch err = Returns (None, err') ->
  scratch = None /\ BPAlloc_Init = None /\ err' = Error_Report err true "No memory" \/
  err' = err /\
  exists a, (scratch = Some a \/ scratch = None /\ BPAlloc_Init = Some a) /\
            ExeBuilder_New a = None.
Proof.
  unfold compile.
  destruct (initCodegenContext BPAlloc_Init err scratch) as [[ctx|] e] eqn:Hinit.
  - by destruct ((_ ;; _) ctx).
  - intros [= <-]. by apply initCodegenContext_None.
Qed.

(** X23: in an executable that [compile] returns, every operand of
    a [JUMP], [JUMPIFNOTANDPOP] or [JUMPIFANDPOP] and the first operand
    of a [PUSHFUN] is an [INT] that is the index of an instruction of the
    executable: no promise is left, and no jump leaves the program. *)
Theorem compile_jumps_in_range fuel ast scratch err exe err' instr op :
  compile BPAlloc_Init fuel ast scratch err = Returns (Some exe, err') ->
  instr ∈ body exe ->
  op ∈ targets instr ->
  exists v, op = OPTP_INT v /\ 0 <= v < Z.of_nat (length (body exe)).
Proof.
  unfold compile.
  destruct (initCodegenContext BPAlloc_Init err scratch) as [[ctx|] e] eqn:Hinit; [|done].
  apply initCodegenContext_Some in Hinit as [_ Hcode].
  destruct ((_ ;; _) ctx) as [exe0 ctx'| | |] eqn:Hrun; try done.
  intros [= -> <-] Hinstr Hop.
  apply compile_steps in Hrun as (ctx1 & Hwalk & _ & Hcells & _ & Hbody).
  pose proof (walk_good fuel (root ast) ctx (good_initial ctx Hcode)) as Hgood.
  rewrite Hwalk in Hgood. destruct Hgood as [Gb Gc Go Gt].
  apply mapM_Some in Hbody.
  assert (Hlen : length (body exe) = S (clen ctx1)).
  { rewrite <- (Forall2_length _ _ _ Hbody), length_app. unfold clen. simpl. lia. }
  apply list_elem_of_lookup in Hinstr as [i Hi].
  destruct (Forall2_lookup_r _ _ _ _ _ Hbody Hi) as (instr0 & Hi0 & Hfin).
  destruct (finalize_instr_targets _ _ _ _ Hfin Hop) as (op0 & Hop0 & Hfin0).
  apply list_elem_of_lookup_2 in Hi0. apply elem_of_app in Hi0 as [Hin|Hin].
  - pose proof (Gt instr0 op0 Hin Hop0) as Hok.
    destruct op0 as [v| | |p]; simpl in *; try done.
    + injection Hfin0 as <-. exists v. split; [done|lia].
    + destruct (Promise_Read (alloc ctx') p) as [v|] eqn:Hread; [|done].
      injection Hfin0 as <-. exists v. split; [done|].
      assert (Hvalid : valid (plen ctx) ctx1 p).
      { apply (Go instr0 p Hin). unfold targets in Hop0.
        destruct (opcode instr0); try (by apply elem_of_nil in Hop0); try done.
        apply elem_of_take in Hop0 as (j & Hj & _). by eapply list_elem_of_lookup_2. }
      unfold Promise_Read in Hread. rewrite Hcells in Hread.
      destruct (promises (alloc ctx1) !! p) as [[v'|]|] eqn:Hcell; try done.
      simpl in Hread. injection Hread as ->.
      specialize (Gc p v (proj1 Hvalid) Hcell). lia.
  - apply list_elem_of_singleton in Hin. subst instr0. by apply elem_of_nil in Hop0.
Qed.

End CompileFacts.

(** *** The walk of one node *)

(** X19: while [emitInstrForNode] goes on, it only appends: the
    instructions that were there are a prefix of the code it leaves, and
    the error channel and the owner of the allocator are as they were. *)
Theorem emitInstrForNode_appends fuel node break_dest ctx ctx' :
  emitInstrForNode fuel node break_dest ctx = Ok tt ctx' ->
  error ctx' = error ctx /\
  own_alloc ctx' = own_alloc ctx /\
  exists more, code (builder ctx') = code (builder ctx) ++ more.
Proof.
  intros Hrun. pose proof (walk_outcome fuel node break_dest ctx) as Hwalk.
  rewrite Hrun in Hwalk. by destruct Hwalk.
Qed.

(** X24: given fuel for the height of the tree, the walk comes to an
    end: the recursion of [emitInstrForNode] is on the children of the
    node and on the leaves of its tuples. *)
Theorem emitInstrForNode_ends fuel node break_dest ctx :
  (depth node <= fuel)%nat ->
  emitInstrForNode fuel node break_dest ctx <> Exhausted.
Proof. intros Hfuel. by apply ends_emitInstrForNode. Qed.

(** X20: when [emitInstrForNode] calls [longjmp], an error is on the
    channel, whatever the node and the destination of its breaks. *)
Theorem emitInstrForNode_jumps fuel node break_dest ctx ctx' :
  emitInstrForNode fuel node break_dest ctx = Jumped ctx' ->
  occurred (error ctx') = true.
Proof.
  intros Hrun. pose proof (walk_outcome fuel node break_dest ctx) as Hwalk.
  by rewrite Hrun in Hwalk.
Qed.


(** *** Assignments *)




Lemma bind_ret_r (m : Gen unit) ctx : (m ;; ret tt) ctx = m ctx.
Proof. unfold bind. by destruct (m ctx) as [[] ?| | |]. Qed.



(** The first part of [emitInstrForAssignmentNode], up to the loop. *)
Lemma assignment_flattens emitNode off lop rest bd ctx :
  tuple_ok lop = true ->
  (length (leaves lop) <= 32)%nat ->
  emitInstrForAssignmentNode emitNode off (lop :: rest) bd ctx =
  ((if Z.of_nat (length (leaves lop)) =? 1
    then
      match rest with
      | rop :: _ => emitNode rop bd
      | [] => malformed
      end
    else
      match rest with
      | CallExprNode call_off call_len func argv argc :: _ =>
        emitInstrForFuncCallNode emitNode call_off call_len func argv argc bd
          (Z.of_nat (length (leaves lop)))
      | _ :: _ =>
        reportErrorAndJump false
          ("Assigning to " ++ pretty (Z.of_nat (length (leaves lop))) ++ " variables only 1 value")
      | [] => malformed
      end) ;;
   store_loop emitNode off (leaves lop) bd (length (leaves lop)) 0) ctx.
Proof.
  intros Hok Hlen. unfold emitInstrForAssignmentNode, bind at 1.
  rewrite flattenTupleTree_fits by (done || simpl; lia).
  simpl length. simpl app.
  destruct (Z.leb_spec (Z.of_nat (0 + length (leaves lop))) 32); [done|lia].
Qed.

(** X27: an assignment to a tuple of 2 to 32 targets whose right
    operand is an expression that is not a call takes the exit with the
    user error "Assigning to N variables only 1 value", N the number of
    targets, and has appended nothing. *)
Theorem tuple_assignment_needs_call fuel off len lop rop rest bd ctx :
  tuple_ok lop = true ->
  (2 <= length (leaves lop) <= 32)%nat ->
  is_NODE_EXPR rop = true ->
  expr_kind rop <> Some EXPR_CALL ->
  emitInstrForNode (S fuel) (OperExprNode EXPR_ASS off len (lop :: rop :: rest)) bd ctx
  = Jumped (reported ctx ("Assigning to " ++ pretty (Z.of_nat (length (leaves lop)))
                          ++ " variables only 1 value")).
Proof.
  intros Hok Hlen _ Hrop. cbn [emitInstrForNode].
  rewrite assignment_flattens by (done || lia).
  destruct (Z.eqb_spec (Z.of_nat (length (leaves lop))) 1); [lia|].
  by destruct rop.
Qed.

Section Call.
Variable fuel : nat.

(** The code of a call: the arguments and the callee, then [CALL]. *)



(** X28: an assignment whose left operand is an expression that is
    no tuple, no variable and no index selection takes the exit with the
    user error "Assigning to something that it can't be assigned to",
    after the code of the right operand has been appended. *)
Theorem assignment_to_no_target off len lop rop rest bd ctx ctx1 :
  is_NODE_EXPR lop = true ->
  expr_kind lop <> Some EXPR_PAIR ->
  expr_kind lop <> Some EXPR_IDENT ->
  expr_kind lop <> Some EXPR_SELECT ->
  emitInstrForNode fuel rop bd ctx = Ok tt ctx1 ->
  emitInstrForNode (S fuel) (OperExprNode EXPR_ASS off len (lop :: rop :: rest)) bd ctx
  = Jumped (reported ctx1 "Assigning to something that it can't be assigned to").
Proof.
  intros _ Hpair Hident Hselect Hrop. cbn [emitInstrForNode].
  assert (Hleaves : leaves lop = [lop]).
  { destruct lop as [[] ? ? ?| | | | | | | | | | | | | | | |]; try done. }
  assert (Hok : tuple_ok lop = true).
  { destruct lop as [[] ? ? ?| | | | | | | | | [] | | | | | | |]; try done. }
  rewrite assignment_flattens by (done || rewrite Hleaves; simpl; lia).
  rewrite Hleaves. simpl. unfold bind at 1. rewrite Hrop.
  unfold store_loop. simpl. unfold bind.
  by destruct lop.
Qed.

End Call.

End WalkFacts.

(** ** The walk on the programs of the examples *)

Module WalkExamples.

Import Codegen CodegenSpec Sample WalkFacts.

(** The loop [while n > 0: { n = n - 1; }], lowered in the middle of a
    pass. *)
Lemma emitInstrForNode_appends_witness :
  error (context_of (emitInstrForNode plenty (program_countdown one_byte_each) None
                       busy_context))
  = error busy_context /\
  own_alloc (context_of (emitInstrForNode plenty (program_countdown one_byte_each) None
                           busy_context))
  = own_alloc busy_context /\
  exists more,
    code (builder (context_of (emitInstrForNode plenty (program_countdown one_byte_each) None
                                 busy_context)))
    = code (builder busy_context) ++ more.
Proof.
  apply (emitInstrForNode_appends plenty (program_countdown one_byte_each) None busy_context).
  vm_compute; reflexivity.
Defined.

(** [while true: break;] with an allocator that serves nothing: the
    walk takes the exit at the first promise, with "No memory". *)
Lemma break_report_needs_break_outside_loops_witness :
  breaks_in_loops false (program_while_break one_byte_each) = true /\
  message (error (context_of (emitInstrForNode plenty (program_while_break one_byte_each)
                                None starved_context)))
  <> "Break not inside a loop".
Proof.
  split; [reflexivity|].
  apply (break_report_needs_break_outside_loops plenty (program_while_break one_byte_each)
           None starved_context).
  - reflexivity.
  - vm_compute; reflexivity.
Defined.

(** A [break] in a block that is in no loop. *)
Lemma emitInstrForNode_jumps_witness :
  occurred (error (context_of (emitInstrForNode plenty (program_break one_byte_each) None
                                 busy_context)))
  = true.
Proof.
  apply (emitInstrForNode_jumps plenty (program_break one_byte_each) None busy_context).
  vm_compute; reflexivity.
Defined.

Lemma compile_returns_program_witness :
  Error_Init = Error_Init /\
  exe_source (the_executable (compiled plenty (program_ab_fx one_byte_each) 12))
  = Some (mkSource 12) /\
  exists front,
    body (the_executable (compiled plenty (program_ab_fx one_byte_each) 12))
    = front ++ [final_RETURN (mkSource 12)].
Proof.
  apply (compile_returns_program None plenty
           (mkAST (program_ab_fx one_byte_each) (mkSource 12))
           (Some (unbounded 0 [])) Error_Init
           (the_executable (compiled plenty (program_ab_fx one_byte_each) 12)) Error_Init).
  vm_compute; reflexivity.
Defined.

(** An allocator that serves nothing: [ExeBuilder_New] fails, and
    [compile] returns [NULL] with the error channel clear. *)
Lemma compile_returns_NULL_witness :
  compile None plenty (mkAST (program_ab_fx one_byte_each) (mkSource 12))
    (Some (mkBPAlloc (fun _ => false) 0 [])) Error_Init
  = Returns (None, Error_Init) /\
  (Some (mkBPAlloc (fun _ => false) 0 []) = None /\ None = @None BPAlloc /\
   Error_Init = Error_Report Error_Init true "No memory" \/
   Error_Init = Error_Init /\
   exists a, (Some (mkBPAlloc (fun _ => false) 0 []) = Some a \/
              Some (mkBPAlloc (fun _ => false) 0 []) = None /\ None = Some a) /\
             ExeBuilder_New a = None).
Proof.
  split; [reflexivity|].
  apply (compile_returns_NULL None plenty
           (mkAST (program_ab_fx one_byte_each) (mkSource 12))
           (Some (mkBPAlloc (fun _ => false) 0 [])) Error_Init Error_Init).
  reflexivity.
Defined.

(** The exit test of the loop [while n > 0: { n = n - 1; }], the
    instruction 3 of 11, goes to 10. *)
Lemma compile_jumps_in_range_witness :
  exists v,
    OPTP_INT 10 = OPTP_INT v /\
    0 <= v < Z.of_nat (length (body (the_executable
                                       (compiled plenty (program_countdown one_byte_each) 30)))).
Proof.
  apply (compile_jumps_in_range None plenty
           (mkAST (program_countdown one_byte_each) (mkSource 30))
           (Some (unbounded 0 [])) Error_Init
           (the_executable (compiled plenty (program_countdown one_byte_each) 30)) Error_Init
           (mkInstr OPCODE_JUMPIFNOTANDPOP [OPTP_INT 10] 2 1) (OPTP_INT 10)).
  - vm_compute; reflexivity.
  - apply (list_elem_of_lookup_2 _ 3%nat). vm_compute; reflexivity.
  - left.
Defined.

Lemma emitInstrForNode_ends_witness :
  (depth (program_fun_call one_byte_each) <= 5)%nat /\
  emitInstrForNode 5 (program_fun_call one_byte_each) None busy_context <> Exhausted.
Proof.
  assert (Hdepth : (depth (program_fun_call one_byte_each) <= 5)%nat).
  { vm_compute. lia. }
  split; [exact Hdepth|].
  exact (emitInstrForNode_ends 5 (program_fun_call one_byte_each) None busy_context Hdepth).
Defined.

(** The targets of [a, b = f(x)]. *)
Lemma flattenTupleTree_leaves_witness :
  flattenTupleTree
    (oper one_byte_each 2 EXPR_PAIR [ident one_byte_each 3 "a"; ident one_byte_each 4 "b"])
    [] 32 busy_context
  = Ok [ident one_byte_each 3 "a"; ident one_byte_each 4 "b"] busy_context.
Proof.
  apply (flattenTupleTree_leaves
           (oper one_byte_each 2 EXPR_PAIR
              [ident one_byte_each 3 "a"; ident one_byte_each 4 "b"])
           [] 32 busy_context).
  - reflexivity.
  - simpl. lia.
Defined.


(** [a, b = 1] *)
Lemma tuple_assignment_needs_call_witness :
  emitInstrForNode 1
    (OperExprNode EXPR_ASS 1 1
       [oper one_byte_each 2 EXPR_PAIR [ident one_byte_each 3 "a"; ident one_byte_each 4 "b"];
        int_lit one_byte_each 5 1])
    None busy_context
  = Jumped (reported busy_context "Assigning to 2 variables only 1 value").
Proof.
  apply (tuple_assignment_needs_call 0 1 1
           (oper one_byte_each 2 EXPR_PAIR
              [ident one_byte_each 3 "a"; ident one_byte_each 4 "b"])
           (int_lit one_byte_each 5 1) [] None busy_context).
  - reflexivity.
  - simpl. lia.
  - reflexivity.
  - discriminate.
Defined.

(** [1 = x] *)
Lemma assignment_to_no_target_witness :
  emitInstrForNode 2
    (OperExprNode EXPR_ASS 1 1 [int_lit one_byte_each 2 1; ident one_byte_each 3 "x"])
    None busy_context
  = Jumped (reported (context_of (emitInstrForNode 1 (ident one_byte_each 3 "x") None
                                    busy_context))
              "Assigning to something that it can't be assigned to").
Proof.
  apply (assignment_to_no_target 1 1 1 (int_lit one_byte_each 2 1)
           (ident one_byte_each 3 "x") [] None busy_context).
  - reflexivity.
  - discriminate.
  - discriminate.
  - discriminate.
  - vm_compute; reflexivity.
Defined.

End WalkExamples.
